(** * visualzzer: the number-list validator, the notifications and the step
    generators

    - [JS]: the ECMAScript built-ins that [static/js/main.js] calls
      ([String.prototype.trim], [replace], [split], [Array.prototype.filter],
      [join], [slice], [parseInt], [isNaN] and the Number-to-String
      conversion of template literals).
    - [formatNumbers] and [validateNumberInput], embedded from the source,
      first as functions, then ([RegExp], [OverStore]) as computations over
      the store of RegExp objects.
    - [DOM]: [showNotification], embedded from the source as a computation
      over the page: its elements, the children of the body and the active
      timers.
    - [Engine]: the six step generators of the visualizer, which is not
      among the sources, modelled from the specification.
    - The properties of each. *)

From Stdlib Require Import ZArith NArith List String Ascii DecimalString Bool Lia.
From Stdlib Require Import Sorting.Permutation Sorting.Sorted.
From Stdlib Require Import DecimalN.
From stdpp Require Import base tactics option numbers list sorting.
Import ListNotations.

Local Open Scope Z_scope.

(** ** ECMAScript strings

    A String value is a finite sequence of UTF-16 code units. *)

Module JS.

Definition code_unit : Type := N.
Definition JSString : Type := list code_unit.

(** The code units of a literal written in the source (ASCII only). *)
Definition lit (s : string) : JSString :=
  List.map N_of_ascii (list_ascii_of_string s).

Definition COMMA : code_unit := 44%N.
Definition SPACE : code_unit := 32%N.
Definition DQUOTE : code_unit := 34%N.
Definition PLUS : code_unit := 43%N.
Definition MINUS : code_unit := 45%N.

(** [WhiteSpace] and [LineTerminator] code points: what [trim] strips, what
    the [\s] character class matches and what [parseInt] skips. *)
Definition isWhiteSpace (c : code_unit) : bool :=
  ((9 <=? c) && (c <=? 13)            (* TAB, LF, VT, FF, CR *)
   || (c =? 32) || (c =? 160)         (* SP, NBSP *)
   || (c =? 5760)                     (* U+1680 *)
   || ((8192 <=? c) && (c <=? 8202))  (* U+2000 .. U+200A *)
   || (c =? 8232) || (c =? 8233)      (* LS, PS *)
   || (c =? 8239) || (c =? 8287)      (* U+202F, U+205F *)
   || (c =? 12288) || (c =? 65279))%N (* U+3000, U+FEFF *).

Fixpoint trimStart (s : JSString) : JSString :=
  match s with
  | c :: rest => if isWhiteSpace c then trimStart rest else s
  | [] => []
  end.

Definition trimEnd (s : JSString) : JSString := rev (trimStart (rev s)).

(** [s.trim()] *)
Definition trim (s : JSString) : JSString := trimEnd (trimStart s).

(** [s.replace(/,/g, ' ')]: every comma becomes a space. *)
Definition replace_commas (s : JSString) : JSString :=
  List.map (fun c => if (c =? COMMA)%N then SPACE else c) s.

(** [s.split(/\s+/)]: the pieces between the maximal runs of white space, in
    order. A run at either end of the string leaves an empty piece there,
    and the empty string gives one empty piece. [cur] is the piece being
    read, reversed; [run] says that the previous code unit belonged to a
    separator. (The limit of [2^32 - 1] pieces that [split] applies when it
    is given none is out of reach of any string an engine can hold, and is
    left out.) *)
Fixpoint split_go (cur : JSString) (run : bool) (s : JSString) : list JSString :=
  match s with
  | [] => [rev cur]
  | c :: rest =>
      if isWhiteSpace c
      then (if run then split_go [] true rest
            else rev cur :: split_go [] true rest)
      else split_go (c :: cur) false rest
  end.

Definition split_ws (s : JSString) : list JSString := split_go [] false s.

(** ToBoolean of a String: the empty string is the only falsy one. *)
Definition truthy (s : JSString) : bool :=
  match s with [] => false | _ => true end.

(** [parts.join(sep)] on an array of strings. *)
Fixpoint join (sep : JSString) (parts : list JSString) : JSString :=
  match parts with
  | [] => []
  | [p] => p
  | p :: rest => p ++ sep ++ join sep rest
  end.

(** [a.slice(start, end)]; a negative index counts from the end and both
    are clamped to the array. [None] is an omitted [end]. *)
Definition slice {A} (a : list A) (start : Z) (end_ : option Z) : list A :=
  let len := Z.of_nat (length a) in
  let clamp (i : Z) := if i <? 0 then Z.max (len + i) 0 else Z.min i len in
  let k := clamp start in
  let final := match end_ with None => len | Some e => clamp e end in
  firstn (Z.to_nat (final - k)) (skipn (Z.to_nat k) a).

(** ** Numbers

    [parseInt] only produces integral values, so a Number is modelled by the
    integer it denotes. [Finite z] is the binary64 value [z] (the model only
    builds it for representable [z]); [-0] and [+0] are both [Finite 0]: they
    compare equal and both print as "0". *)
Inductive Number : Type :=
| NaN
| Finite (z : Z)
| Infinity (negative : bool).

(** Round-to-nearest, ties-to-even, of a mathematical integer to binary64. *)
Definition roundToDouble (z : Z) : Number :=
  let a := Z.abs z in
  if a <=? 2 ^ 53 then Finite z
  else
    let e := Z.log2 a - 52 in
    let q := Z.shiftr a e in
    let r := Z.land a (Z.ones e) in
    let half := 2 ^ (e - 1) in
    let q' := if r <? half then q
              else if half <? r then q + 1
              else if Z.even q then q else q + 1 in
    let v := q' * 2 ^ e in
    if 2 ^ 1024 <=? v then Infinity (z <? 0)
    else Finite (Z.sgn z * v).

(** The value of a digit in radix [R], if it is one. *)
Definition digitValue (R : Z) (c : code_unit) : option Z :=
  let c := Z.of_N c in
  let v := if (48 <=? c) && (c <=? 57) then c - 48
           else if (97 <=? c) && (c <=? 122) then c - 97 + 10
           else if (65 <=? c) && (c <=? 90) then c - 65 + 10
           else R in
  if v <? R then Some v else None.

(** The longest prefix of radix-[R] digits, as digit values. *)
Fixpoint takeDigits (R : Z) (s : JSString) : list Z :=
  match s with
  | c :: rest =>
      match digitValue R c with
      | Some v => v :: takeDigits R rest
      | None => []
      end
  | [] => []
  end.

Definition mathInt (R : Z) (digits : list Z) : Z :=
  fold_left (fun acc d => acc * R + d) digits 0.

(** [parseInt(string)] with no radix argument. *)
Definition parseInt (string : JSString) : Number :=
  let s := trimStart string in
  let sign := match s with
              | c :: _ => if (c =? MINUS)%N then -1 else 1
              | [] => 1
              end in
  let s := match s with
           | c :: rest => if ((c =? PLUS) || (c =? MINUS))%N then rest else s
           | [] => s
           end in
  let '(R, s) := match s with
                 | c0 :: c1 :: rest =>
                     if ((c0 =? 48) && ((c1 =? 120) || (c1 =? 88)))%N
                     then (16, rest) else (10, s)
                 | _ => (10, s)
                 end in
  match takeDigits R s with
  | [] => NaN
  | ds => roundToDouble (sign * mathInt R ds)
  end.

Definition isNaN (n : Number) : bool :=
  match n with NaN => true | _ => false end.

(** [n < k] and [n > k] against an integer literal [k]; both are false for
    [NaN]. *)
Definition lessThan (n : Number) (k : Z) : bool :=
  match n with
  | NaN => false
  | Finite z => z <? k
  | Infinity negative => negative
  end.

Definition greaterThan (n : Number) (k : Z) : bool :=
  match n with
  | NaN => false
  | Finite z => k <? z
  | Infinity negative => negb negative
  end.

(** Decimal digits of a natural number. *)
Definition decimal (z : Z) : JSString :=
  lit (NilEmpty.string_of_uint (N.to_uint (Z.to_N z))).

Definition numDigits (z : Z) : Z := Z.of_nat (length (decimal z)).

(** Number::toString picks the shortest digit string that still reads back
    as the same binary64 value, and among those the one nearest to it. With
    [k] significant digits the only candidates are the two multiples of
    [10^(d-k)] around [v]; [shortest] returns the chosen multiple. *)
Fixpoint shortest (v d : Z) (ks : list Z) : Z :=
  match ks with
  | [] => v
  | k :: ks' =>
      let g := 10 ^ (d - k) in
      let lo := (v / g) * g in
      let hi := lo + g in
      let ok c := match roundToDouble c with
                  | Finite w => w =? v
                  | _ => false
                  end in
      match ok lo, ok hi with
      | true, true => if v - lo <=? hi - v then lo else hi
      | true, false => lo
      | false, true => hi
      | false, false => shortest v d ks'
      end
  end.

Fixpoint stripZeros (rev_digits : JSString) : JSString :=
  match rev_digits with
  | c :: rest => if (c =? 48)%N then stripZeros rest else rev_digits
  | [] => []
  end.

(** A positive integral value [v]: below [10^21] the digits of the chosen
    decimal are printed in full, from there on in exponential notation. *)
Definition positiveToString (v : Z) : JSString :=
  let d := numDigits v in
  let c := shortest v d (List.map Z.of_nat (seq 1 (Z.to_nat d))) in
  if c <? 10 ^ 21 then decimal c
  else
    let n := numDigits c in
    match rev (stripZeros (rev (decimal c))) with
    | [] => []
    | [d1] => d1 :: lit "e+" ++ decimal (n - 1)
    | d1 :: more => d1 :: lit "." ++ more ++ lit "e+" ++ decimal (n - 1)
    end.

(** [String(n)], as a template literal or [join] applies it. *)
Definition toString (n : Number) : JSString :=
  match n with
  | NaN => lit "NaN"
  | Infinity false => lit "Infinity"
  | Infinity true => lit "-Infinity"
  | Finite z =>
      if z =? 0 then lit "0"
      else if z <? 0 then MINUS :: positiveToString (- z)
      else positiveToString z
  end.

End JS.

(** ** The application code: [formatNumbers] and [validateNumberInput] *)

Import JS.

(** [formatNumbers(numbers)]. The array may hold any values; [ToString] is
    the conversion [join] applies to an element. *)
Section FormatNumbers.
Context {A : Type} (ToString : A -> JSString).

Definition joinWith (sep : JSString) (a : list A) : JSString :=
  join sep (List.map ToString a).

Definition formatNumbers (numbers : list A) : JSString :=
  if (Z.of_nat (length numbers) <=? 10)
  then joinWith (lit ", ") numbers
  else joinWith (lit ", ") (slice numbers 0 (Some 5))
       ++ lit " ... "
       ++ joinWith (lit ", ") (slice numbers (-5) None).

End FormatNumbers.

(** The [numbers] property of a result: missing, [null] or an array. *)
Inductive NumbersField : Type :=
| NumbersUndefined
| NumbersNull
| NumbersArray (a : list Number).

(** The object [validateNumberInput] returns; [None] is a property the object
    literal does not mention. *)
Record Result : Type := mkResult {
  valid : bool;
  numbers : NumbersField;
  message : option JSString;
  error : option JSString
}.

(** [`"${numStr}" is not a number`] *)
Definition notANumber (numStr : JSString) : JSString :=
  DQUOTE :: numStr ++ DQUOTE :: lit " is not a number".

(** [`${num} is out of range (1-1000)`] *)
Definition outOfRange (num : Number) : JSString :=
  toString num ++ lit " is out of range (1-1000)".

(** [trimmed.replace(/,/g, ' ').split(/\s+/).filter(n => n)] *)
Definition tokenize (trimmed : JSString) : list JSString :=
  List.filter truthy (split_ws (replace_commas trimmed)).

(** The body of the [for (const numStr of numbers)] loop, on the two arrays
    it pushes to. *)
Definition loopBody (acc : list Number * list JSString) (numStr : JSString)
  : list Number * list JSString :=
  let '(validNumbers, errors) := acc in
  let num := parseInt numStr in
  if isNaN num then (validNumbers, errors ++ [notANumber numStr])
  else if lessThan num 1 || greaterThan num 1000 then (validNumbers, errors ++ [outOfRange num])
  else (validNumbers ++ [num], errors).

(** The three [return] statements after the loop. *)
Definition conclude (validNumbers : list Number) (errors : list JSString) : Result :=
  if (0 <? Z.of_nat (length errors))
  then mkResult false NumbersUndefined None (Some (join (lit ", ") errors))
  else if (25 <? Z.of_nat (length validNumbers))
  then mkResult true (NumbersArray (slice validNumbers 0 (Some 25)))
         (Some (lit "Too many numbers. Using first 25: "
                ++ joinWith toString (lit ", ") (slice validNumbers 0 (Some 25))))
         None
  else mkResult true (NumbersArray validNumbers)
         (Some (lit "Valid numbers: " ++ joinWith toString (lit ", ") validNumbers))
         None.

Definition validateNumberInput (input : JSString) : Result :=
  let trimmed := trim input in
  if negb (truthy trimmed)
  then mkResult true NumbersNull
         (Some (lit "Empty input - will use random numbers")) None
  else
    let numbers := tokenize trimmed in
    let '(validNumbers, errors) := fold_left loopBody numbers ([], []) in
    conclude validNumbers errors.

(** ** Vocabulary of the specification *)

(** Empty or white space only. *)
Definition blank (input : JSString) : bool := forallb isWhiteSpace input.

(** The delimiters of the numeric-list text format: a comma or white space. *)
Definition isDelimiter (c : code_unit) : bool :=
  (c =? COMMA)%N || isWhiteSpace c.

(** "Split on [,] and whitespace, ignore empty tokens": the maximal runs of
    code units that are not delimiters, in order. [cur] is the run being
    read, reversed. *)
Fixpoint fields (cur : JSString) (s : JSString) : list JSString :=
  match s with
  | [] => match cur with [] => [] | _ => [rev cur] end
  | c :: rest =>
      if isDelimiter c
      then match cur with
           | [] => fields [] rest
           | _ => rev cur :: fields [] rest
           end
      else fields (c :: cur) rest
  end.

Definition tokens (input : JSString) : list JSString := fields [] input.

(** The same, as a reading of the text: delimiters, then a token, which is a
    non-empty run without delimiters that ends at a delimiter or at the end
    of the text, and so on. *)
Inductive Tokenized : JSString -> list JSString -> Prop :=
| Tokenized_end (ds : JSString) :
    forallb isDelimiter ds = true -> Tokenized ds []
| Tokenized_token (ds t rest : JSString) (toks : list JSString) :
    forallb isDelimiter ds = true ->
    t <> [] -> forallb (fun c => negb (isDelimiter c)) t = true ->
    match rest with c :: _ => isDelimiter c = true | [] => True end ->
    Tokenized rest toks ->
    Tokenized (ds ++ t ++ rest) (t :: toks).

(** [haystack.includes(needle)] *)
Definition includes (haystack needle : JSString) : Prop :=
  exists before after, haystack = before ++ needle ++ after.

Definition isDecimalDigit (c : code_unit) : bool := ((48 <=? c) && (c <=? 57))%N.



(** The verdict on one token: the number it contributes, or the message it
    adds to the error list. *)
Definition inRange (num : Number) : bool :=
  negb (isNaN num) && negb (lessThan num 1 || greaterThan num 1000).

Definition tokenNumber (token : JSString) : option Number :=
  let num := parseInt token in
  if inRange num then Some num else None.

Definition tokenError (token : JSString) : option JSString :=
  let num := parseInt token in
  if isNaN num then Some (notANumber token)
  else if inRange num then None
  else Some (outOfRange num).

(** The value of a valid list element. *)
Definition isIntegerIn (lo hi : Z) (num : Number) : Prop :=
  exists z, num = Finite z /\ lo <= z <= hi.

(** The four shapes of the returned object. *)
Definition emptyResult : Result :=
  mkResult true NumbersNull (Some (lit "Empty input - will use random numbers")) None.

Definition errorResult (errors : list JSString) : Result :=
  mkResult false NumbersUndefined None (Some (join (lit ", ") errors)).

Definition truncatedResult (nums : list Number) : Result :=
  mkResult true (NumbersArray (firstn 25 nums))
    (Some (lit "Too many numbers. Using first 25: "
           ++ join (lit ", ") (List.map toString (firstn 25 nums))))
    None.

Definition validResult (nums : list Number) : Result :=
  mkResult true (NumbersArray nums)
    (Some (lit "Valid numbers: " ++ join (lit ", ") (List.map toString nums)))
    None.

Definition to_list {A} (o : option A) : list A :=
  match o with Some x => [x] | None => [] end.

(** A list of thirty numbers, five more than are kept. *)
Definition thirtyNumbers : JSString :=
  lit "1 2 3 4 5 6 7 8 9 10 11 12 13 14 15 16 17 18 19 20 21 22 23 24 25 26 27 28 29 30".
(** ** Vocabulary of the further properties *)

(** A token of the text format: not empty, and free of commas and white
    space. *)
Definition isToken (t : JSString) : bool :=
  truthy t && forallb (fun c => negb (isDelimiter c)) t.

(** The digit values of a decimal numeral, most significant first. *)
Fixpoint digitsOf (d : Decimal.uint) : list Z :=
  match d with
  | Decimal.Nil => []
  | Decimal.D0 d => 0 :: digitsOf d
  | Decimal.D1 d => 1 :: digitsOf d
  | Decimal.D2 d => 2 :: digitsOf d
  | Decimal.D3 d => 3 :: digitsOf d
  | Decimal.D4 d => 4 :: digitsOf d
  | Decimal.D5 d => 5 :: digitsOf d
  | Decimal.D6 d => 6 :: digitsOf d
  | Decimal.D7 d => 7 :: digitsOf d
  | Decimal.D8 d => 8 :: digitsOf d
  | Decimal.D9 d => 9 :: digitsOf d
  end.

(** [numbers.join(', ')] on an array of Numbers, as [formatNumbers] and the
    messages of [validateNumberInput] print it. *)
Definition printed (nums : list Number) : JSString :=
  joinWith toString (lit ", ") nums.

(** ** Numerals and NumberLists *)






(** A NumberList of the specification: between 1 and 25 integers, each
    between 1 and 1000. *)
Definition isNumberList (a : list Number) : Prop :=
  (1 <= length a <= 25)%nat /\ Forall (isIntegerIn 1 1000) a.

(** ** The same function with its RegExp objects

    [/,/g] and [/\s+/] are RegExp objects, and a RegExp object carries
    mutable state, its [lastIndex]. [RegExpBuiltinExec] reads and writes it,
    [replace] and [split] are loops around [RegExpBuiltinExec]. The store
    below holds every RegExp object of the program, those of earlier calls
    included; the function is re-stated as a computation over it. *)

Module RegExp.

(** The two patterns of the source. *)
Inductive Pattern : Type :=
| Comma          (* /,/ *)
| WhiteSpaces.   (* /\s+/ *)

Fixpoint whiteSpaceRun (s : JSString) : nat :=
  match s with
  | c :: rest => if isWhiteSpace c then S (whiteSpaceRun rest) else 0%nat
  | [] => 0%nat
  end.

(** The pattern's matcher at index [i]: the end index of the match, if any.
    [\s+] is greedy and nothing follows it, so it takes the whole run. *)
Definition matcher (p : Pattern) (s : JSString) (i : nat) : option nat :=
  match p with
  | Comma =>
      match drop i s with
      | c :: _ => if (c =? COMMA)%N then Some (i + 1)%nat else None
      | [] => None
      end
  | WhiteSpaces =>
      match whiteSpaceRun (drop i s) with
      | O => None
      | n => Some (i + n)%nat
      end
  end.

Record Object : Type := mkObject {
  pattern : Pattern;
  global : bool;
  sticky : bool;
  lastIndex : nat
}.

(** The store: every RegExp object, by address. *)
Abbreviation Store := (list Object).
Definition M (A : Type) : Type := Store -> A * Store.

Definition ret {A} (a : A) : M A := fun st => (a, st).
Definition bind {A B} (c : M A) (k : A -> M B) : M B :=
  fun st => let '(a, st') := c st in k a st'.

Notation "x <~ c ;; k" := (bind c (fun x => k))
  (at level 100, c at next level, right associativity).
Notation "c ;;; k" := (bind c (fun _ => k))
  (at level 100, right associativity).

(** Evaluating a regular expression literal creates a new object, with
    [lastIndex] 0. *)
Definition New (p : Pattern) (g y : bool) : M nat :=
  fun st => (length st, st ++ [mkObject p g y 0]).

Definition get (r : nat) : M Object :=
  fun st => (default (mkObject Comma false false 0) (st !! r), st).

Definition setLastIndex (r : nat) (i : nat) : M unit :=
  fun st => (tt, alter (fun o => mkObject (pattern o) (global o) (sticky o) i) r st).

(** The search of [RegExpBuiltinExec]: from [i] on, stop at the first index
    where the matcher succeeds; a sticky expression tries [i] only. [fuel]
    is [length s + 1 - i]: at 0 the index has passed the end. *)
Fixpoint scan (p : Pattern) (y : bool) (s : JSString) (fuel i : nat)
  : option (nat * nat) :=
  match fuel with
  | O => None
  | S fuel' =>
      match matcher p s i with
      | Some e => Some (i, e)
      | None => if y then None else scan p y s fuel' (i + 1)
      end
  end.

(** [RegExpBuiltinExec(R, S)]: the match as (index, end index). *)
Definition RegExpBuiltinExec (r : nat) (s : JSString) : M (option (nat * nat)) :=
  o <~ get r ;;
  let tracked := global o || sticky o in
  let start := if tracked then lastIndex o else 0%nat in
  match scan (pattern o) (sticky o) s (S (length s) - start) start with
  | None =>
      (if tracked then setLastIndex r 0 else ret tt) ;;;
      ret None
  | Some (i, e) =>
      (if tracked then setLastIndex r e else ret tt) ;;;
      ret (Some (i, e))
  end.

(** The first loop of [RegExp.prototype[Symbol.replace]]: the matches, one
    when the expression is not global. An empty match moves [lastIndex] on
    by one. There are at most [length s + 1] matches. *)
Fixpoint collect (r : nat) (s : JSString) (fuel : nat) : M (list (nat * nat)) :=
  match fuel with
  | O => ret []
  | S fuel' =>
      z <~ RegExpBuiltinExec r s ;;
      match z with
      | None => ret []
      | Some (i, e) =>
          o <~ get r ;;
          if negb (global o) then ret [(i, e)]
          else
            (if (e =? i)%nat then setLastIndex r (lastIndex o + 1) else ret tt) ;;;
            rest <~ collect r s fuel' ;;
            ret ((i, e) :: rest)
      end
  end.

Definition substring (s : JSString) (from to : nat) : JSString :=
  take (to - from) (drop from s).

(** Its second loop: the text between the matches, each match replaced. *)
Fixpoint accumulate (s replacement : JSString) (results : list (nat * nat))
    (accumulated : JSString) (nextSourcePosition : nat) : JSString :=
  match results with
  | [] => accumulated ++ drop nextSourcePosition s
  | (position, e) :: more =>
      if (nextSourcePosition <=? position)%nat
      then accumulate s replacement more
             (accumulated ++ substring s nextSourcePosition position ++ replacement) e
      else accumulate s replacement more accumulated nextSourcePosition
  end.

(** [s.replace(r, replacement)], the replacement holding no [$]. *)
Definition replace (r : nat) (s replacement : JSString) : M JSString :=
  o <~ get r ;;
  (if global o then setLastIndex r 0 else ret tt) ;;;
  results <~ collect r s (length s + 2) ;;
  ret (accumulate s replacement results [] 0).

(** The loop of [RegExp.prototype[Symbol.split]] on a non-empty string: [p]
    is where the current piece starts, [q] where the splitter is tried.
    [fuel] is [length s - q]. *)
Fixpoint splitLoop (splitter : nat) (s : JSString) (fuel p q : nat)
  : M (list JSString) :=
  match fuel with
  | O => ret [drop p s]
  | S fuel' =>
      if (q <? length s)%nat then
        setLastIndex splitter q ;;;
        z <~ RegExpBuiltinExec splitter s ;;
        match z with
        | None => splitLoop splitter s fuel' p (q + 1)
        | Some _ =>
            o <~ get splitter ;;
            let e := Nat.min (lastIndex o) (length s) in
            if (e =? p)%nat then splitLoop splitter s fuel' p (q + 1)
            else
              rest <~ splitLoop splitter s fuel' e e ;;
              ret (substring s p q :: rest)
        end
      else ret [drop p s]
  end.

(** [s.split(r)] with no limit: the splitter is a new object, a sticky copy
    of [r]. *)
Definition split (r : nat) (s : JSString) : M (list JSString) :=
  o <~ get r ;;
  splitter <~ New (pattern o) (global o) true ;;
  match s with
  | [] =>
      z <~ RegExpBuiltinExec splitter s ;;
      ret (match z with Some _ => [] | None => [s] end)
  | _ => splitLoop splitter s (length s) 0 0
  end.

(** The matches [collect] finds for [/,/g] in [b], which starts at index
    [k] of the string: one per comma. *)
Fixpoint findComma (k : nat) (b : JSString) : option (nat * nat) :=
  match b with
  | [] => None
  | c :: b' => if (c =? COMMA)%N then Some (k, (k + 1)%nat) else findComma (k + 1) b'
  end.

Fixpoint commaPositions (k : nat) (b : JSString) : list (nat * nat) :=
  match b with
  | [] => []
  | c :: b' =>
      if (c =? COMMA)%N then (k, (k + 1)%nat) :: commaPositions (k + 1) b'
      else commaPositions (k + 1) b'
  end.

Definition withLastIndex (o : Object) (i : nat) : Object :=
  mkObject (pattern o) (global o) (sticky o) i.

End RegExp.

(** [validateNumberInput] as a computation over the store. *)
Module OverStore.
Import RegExp.

Definition validateNumberInput (input : JSString) : M Result :=
  let trimmed := trim input in
  if negb (truthy trimmed)
  then ret (mkResult true NumbersNull
              (Some (lit "Empty input - will use random numbers")) None)
  else
    commas <~ New Comma true false ;;
    replaced <~ replace commas trimmed [SPACE] ;;
    spaces <~ New WhiteSpaces false false ;;
    pieces <~ split spaces replaced ;;
    let numbers := List.filter truthy pieces in
    let '(validNumbers, errors) := fold_left loopBody numbers ([], []) in
    ret (conclude validNumbers errors).

End OverStore.

(** * The step generators

    The visualizer itself ([visualiser.py]) is not among the sources. The
    generators are modelled from the specification: every one walks an array
    with the direction-aware comparator and records each atomic action as a
    [Step] that carries the array as it is after the action. *)

Module Engine.

Local Open Scope nat_scope.

(** Modelled from the spec: the two directions, the six algorithms and the
    seven kinds of step of the absent visualizer. *)
Inductive Direction : Type := Ascending | Descending.

Inductive Algorithm : Type :=
| Bubble | Insertion | Selection | Quick | Merge | Heap.

Inductive Kind : Type :=
| Compare | Swap | SetValue | Pivot | MergeWrite | Sift | Done.

(** Modelled from the spec: the [Step] record of the data model, which the
    absent visualizer would yield. [value] is the element a [set] or
    [merge-write] step writes at its target index. *)
Record Step : Type := mkStep {
  kind : Kind;
  indices : list nat;
  value : option Z;
  arraySnapshot : list Z;
  stepIndex : nat
}.

(** Modelled from the spec: the comparator of the absent generators,
    [a > b] for ascending and [a < b] for descending. *)
Definition shouldSwap (d : Direction) (a b : Z) : bool :=
  match d with
  | Ascending => (b <? a)%Z
  | Descending => (a <? b)%Z
  end.

(** Modelled from the spec: the state of an absent generator while it runs,
    the working array and the steps emitted so far. *)
Record Run : Type := mkRun {
  array : list Z;
  steps : list Step
}.

Definition swapAt (i j : nat) (a : list Z) : list Z :=
  <[i := a !!! j]> (<[j := a !!! i]> a).

(** Modelled from the spec: what applying a step to an array does. A [swap]
    exchanges its two positions, a [set] or [merge-write] stores its value
    at its target index, every other kind leaves the array as it is. *)
Definition applyStep (a : list Z) (s : Step) : list Z :=
  match kind s, indices s, value s with
  | Swap, [i; j], _ => swapAt i j a
  | SetValue, [i], Some v => <[i := v]> a
  | MergeWrite, [i], Some v => <[i := v]> a
  | _, _, _ => a
  end.

(** Modelled from the spec: how the absent generators emit a step; its
    snapshot is the array after the action and its index the number of steps
    before it. *)
Definition emit (k : Kind) (idx : list nat) (v : option Z) (a : list Z) (r : Run)
  : Run :=
  mkRun a (steps r ++ [mkStep k idx v a (length (steps r))]).

Definition compareStep (i j : nat) (r : Run) : Run :=
  emit Compare [i; j] None (array r) r.
Definition swapStep (i j : nat) (r : Run) : Run :=
  emit Swap [i; j] None (swapAt i j (array r)) r.
Definition setStep (i : nat) (v : Z) (r : Run) : Run :=
  emit SetValue [i] (Some v) (<[i := v]> (array r)) r.
Definition writeStep (i : nat) (v : Z) (r : Run) : Run :=
  emit MergeWrite [i] (Some v) (<[i := v]> (array r)) r.
Definition pivotStep (i : nat) (r : Run) : Run :=
  emit Pivot [i] None (array r) r.
Definition siftStep (i : nat) (r : Run) : Run :=
  emit Sift [i] None (array r) r.
Definition doneStep (r : Run) : Run :=
  emit Done [] None (array r) r.

(** ** Bubble *)

(** Modelled from the spec: one pass of the absent Bubble generator over the
    adjacent pairs from [j] on, [count] of them; a [compare] before each
    comparison, a [swap] when the pair is out of order. Returns whether the
    pass swapped. *)
Fixpoint bubblePass (d : Direction) (count j : nat) (swapped : bool) (r : Run)
  : bool * Run :=
  match count with
  | O => (swapped, r)
  | S count' =>
      let r := compareStep j (j + 1) r in
      if shouldSwap d (array r !!! j) (array r !!! (j + 1))
      then bubblePass d count' (j + 1) true (swapStep j (j + 1) r)
      else bubblePass d count' (j + 1) swapped r
  end.

(** Modelled from the spec: the passes of the absent Bubble generator, until
    a full pass makes no swap; an array of [n] elements needs at most [n]
    passes, which is [fuel]. *)
Fixpoint bubblePasses (d : Direction) (fuel : nat) (r : Run) : Run :=
  match fuel with
  | O => r
  | S fuel' =>
      let '(swapped, r') := bubblePass d (length (array r) - 1) 0 false r in
      if swapped then bubblePasses d fuel' r' else r'
  end.

Definition bubble (d : Direction) (r : Run) : Run :=
  bubblePasses d (length (array r)) r.

(** ** Insertion *)

(** Modelled from the spec: the inner loop of the absent Insertion
    generator. [h] is the free position; while the element to its left must
    come after [key], a [compare] is emitted and the element is moved into
    the free position with a [set]. Returns the free position reached. *)
Fixpoint insertShift (d : Direction) (key : Z) (h : nat) (r : Run) : nat * Run :=
  match h with
  | O => (O, r)
  | S j =>
      let r := compareStep j h r in
      if shouldSwap d (array r !!! j) key
      then insertShift d key j (setStep h (array r !!! j) r)
      else (h, r)
  end.

(** Modelled from the spec: the outer loop of the absent Insertion
    generator, for the indices [i], [i + 1], ... ([count] of them); the
    element is placed with a last [set]. *)
Fixpoint insertFrom (d : Direction) (count i : nat) (r : Run) : Run :=
  match count with
  | O => r
  | S count' =>
      let key := array r !!! i in
      let '(h, r) := insertShift d key i r in
      insertFrom d count' (i + 1) (setStep h key r)
  end.

Definition insertion (d : Direction) (r : Run) : Run :=
  insertFrom d (length (array r) - 1) 1 r.

(** ** Selection *)

(** Modelled from the spec: the scan of the absent Selection generator over
    the remainder from [j] on, [count] elements; [m] is the index of the
    extremum so far, one [compare] per scan step. *)
Fixpoint selectScan (d : Direction) (count j m : nat) (r : Run) : nat * Run :=
  match count with
  | O => (m, r)
  | S count' =>
      let r := compareStep m j r in
      if shouldSwap d (array r !!! m) (array r !!! j)
      then selectScan d count' (j + 1) j r
      else selectScan d count' (j + 1) m r
  end.

(** Modelled from the spec: the positions [i], [i + 1], ... of the absent
    Selection generator, [count] of them; one [swap] per position, only if
    the extremum is elsewhere. *)
Fixpoint selectFrom (d : Direction) (count i : nat) (r : Run) : Run :=
  match count with
  | O => r
  | S count' =>
      let '(m, r) := selectScan d (length (array r) - (i + 1)) (i + 1) i r in
      let r := if (m =? i)%nat then r else swapStep i m r in
      selectFrom d count' (i + 1) r
  end.

Definition selection (d : Direction) (r : Run) : Run :=
  selectFrom d (length (array r)) 0 r.

(** ** Quick *)

(** Modelled from the spec: the partition loop of the absent Quick
    generator. [j] scans [count] positions, [i] is where the next element
    that belongs before the pivot (at [hi]) goes; a [compare] per test, a
    [swap] per exchange. *)
Fixpoint partitionLoop (d : Direction) (count j i hi : nat) (r : Run) : nat * Run :=
  match count with
  | O => (i, r)
  | S count' =>
      let r := compareStep j hi r in
      if shouldSwap d (array r !!! j) (array r !!! hi)
      then partitionLoop d count' (j + 1) i hi r
      else
        let r := if (i =? j)%nat then r else swapStep i j r in
        partitionLoop d count' (j + 1) (i + 1) hi r
  end.

(** Modelled from the spec: the partition of [lo..hi] around the last
    element, announced by a [pivot] step; the pivot ends at the returned
    index. *)
Definition partition (d : Direction) (lo hi : nat) (r : Run) : nat * Run :=
  let r := pivotStep hi r in
  let '(i, r) := partitionLoop d (hi - lo) lo lo hi r in
  (i, if (i =? hi)%nat then r else swapStep i hi r).

(** Modelled from the spec: the recursion of the absent Quick generator on
    [lo..hi], the left subrange fully before the right one. [fuel] bounds
    the depth; the range shrinks at every level. *)
Fixpoint quickRange (d : Direction) (fuel lo hi : nat) (r : Run) : Run :=
  match fuel with
  | O => r
  | S fuel' =>
      if (lo <? hi)%nat then
        let '(p, r) := partition d lo hi r in
        let r := quickRange d fuel' lo (p - 1) r in
        quickRange d fuel' (p + 1) hi r
      else r
  end.

Definition quick (d : Direction) (r : Run) : Run :=
  quickRange d (length (array r)) 0 (length (array r) - 1) r.

(** ** Merge *)

(** Modelled from the spec: the write-back of what is left of one half. *)
Fixpoint writeAll (xs : list Z) (k : nat) (r : Run) : Run :=
  match xs with
  | [] => r
  | x :: xs' => writeAll xs' (k + 1) (writeStep k x r)
  end.

(** Modelled from the spec: the merge of the absent Merge generator. [ls]
    and [rs] are what is left of the copies of the two halves, [li] and [ri]
    the indices their heads came from, [k] the target index; a [compare] per
    test, a [merge-write] per element written, never a [swap]. *)
Fixpoint mergeHalves (d : Direction) (ls : list Z) (li : nat)
  : list Z -> nat -> nat -> Run -> Run :=
  fix withRight (rs : list Z) (ri k : nat) (r : Run) {struct rs} : Run :=
    match ls, rs with
    | [], _ => writeAll rs k r
    | _, [] => writeAll ls k r
    | x :: ls', y :: rs' =>
        let r := compareStep li ri r in
        if shouldSwap d x y
        then withRight rs' (ri + 1)%nat (k + 1)%nat (writeStep k y r)
        else mergeHalves d ls' (li + 1) rs ri (k + 1)%nat (writeStep k x r)
    end.

(** Modelled from the spec: the recursion of the absent Merge generator on
    the range from [lo] up to, not including, [hi]: both halves are sorted,
    the left one first, before the range itself is merged. *)
Fixpoint mergeRange (d : Direction) (fuel lo hi : nat) (r : Run) : Run :=
  match fuel with
  | O => r
  | S fuel' =>
      if (hi - lo <? 2)%nat then r
      else
        let mid := (lo + (hi - lo) / 2)%nat in
        let r := mergeRange d fuel' lo mid r in
        let r := mergeRange d fuel' mid hi r in
        let ls := take (mid - lo) (drop lo (array r)) in
        let rs := take (hi - mid) (drop mid (array r)) in
        mergeHalves d ls lo rs mid lo r
  end.

Definition mergeSort (d : Direction) (r : Run) : Run :=
  mergeRange d (length (array r)) 0 (length (array r)) r.

(** ** Heap *)

(** Modelled from the spec: one sift-down of the absent Heap generator in
    the heap of the first [n] elements, from [i]: the children are compared
    with the element that is to stay on top, and it sinks by [swap]s.
    [fuel] bounds the number of levels. *)
Fixpoint siftDown (d : Direction) (fuel i n : nat) (r : Run) : Run :=
  match fuel with
  | O => r
  | S fuel' =>
      let l := (2 * i + 1)%nat in
      let '(top, r) :=
        if (l <? n)%nat
        then let r := compareStep l i r in
             (if shouldSwap d (array r !!! l) (array r !!! i) then l else i, r)
        else (i, r) in
      let '(top, r) :=
        if (l + 1 <? n)%nat
        then let r := compareStep (l + 1) top r in
             (if shouldSwap d (array r !!! (l + 1)) (array r !!! top)
              then (l + 1)%nat else top, r)
        else (top, r) in
      if (top =? i)%nat then r
      else siftDown d fuel' top n (swapStep i top r)
  end.

(** Modelled from the spec: a sift operation, announced by a [sift] step. *)
Definition sift (d : Direction) (i n : nat) (r : Run) : Run :=
  siftDown d n i n (siftStep i r).

(** Modelled from the spec: the heap is built by sifting down from the last
    parent to the root; [i] parents are left. *)
Fixpoint buildHeap (d : Direction) (i n : nat) (r : Run) : Run :=
  match i with
  | O => r
  | S i' => buildHeap d i' n (sift d i' n r)
  end.

(** Modelled from the spec: the extraction phase; with [n] elements in the
    heap the root is swapped with the last of them and sifted down in the
    reduced heap. *)
Fixpoint extractAll (d : Direction) (n : nat) (r : Run) : Run :=
  match n with
  | O => r
  | S last =>
      if (last =? 0)%nat then r
      else extractAll d last (sift d 0 last (swapStep 0 last r))
  end.

Definition heapSort (d : Direction) (r : Run) : Run :=
  let n := length (array r) in
  extractAll d n (buildHeap d (n / 2) n r).

(** ** The generators *)

Definition sortWith (alg : Algorithm) (d : Direction) (r : Run) : Run :=
  match alg with
  | Bubble => bubble d r
  | Insertion => insertion d r
  | Selection => selection d r
  | Quick => quick d r
  | Merge => mergeSort d r
  | Heap => heapSort d r
  end.

(** Modelled from the spec: [generate(initial, direction)] of the absent
    StepGenerator for each of the six algorithms; the last step is [done]. *)
Definition generate (alg : Algorithm) (initial : list Z) (d : Direction)
  : list Step :=
  steps (doneStep (sortWith alg d (mkRun initial []))).

(** Modelled from the spec: applying steps in order, as the absent playback
    does. *)
Definition applySteps (initial : list Z) (ss : list Step) : list Z :=
  fold_left applyStep ss initial.

(** Two neighbours in the requested order. *)
Definition inOrder (d : Direction) (x y : Z) : Prop :=
  match d with
  | Ascending => (x <= y)%Z
  | Descending => (y <= x)%Z
  end.

(** The positions from [lo] up to, not including, [hi] are in order. *)
Definition sortedRange (d : Direction) (a : list Z) (lo hi : nat) : Prop :=
  forall i j, lo <= i -> i < j -> j < hi -> inOrder d (a !!! i) (a !!! j).

(** Every position before [m] is in order with every position from [m] on. *)
Definition splitAt (d : Direction) (a : list Z) (m : nat) : Prop :=
  forall i j, i < m -> m <= j -> j < length a -> inOrder d (a !!! i) (a !!! j).

(** The tail from [m] on is final: sorted, and nothing before it belongs
    after any of it. *)
Definition settled (d : Direction) (a : list Z) (m : nat) : Prop :=
  sortedRange d a m (length a) /\ splitAt d a m.

(** The state of the inner loop of Insertion for the element [key] taken
    from index [i]: position [h] is free, the elements after it up to [i]
    have been moved one place to the right, and putting [key] at [h] gives
    back a rearrangement of [a0]. *)
Definition shifting (d : Direction) (a0 : list Z) (key : Z) (i h : nat)
    (a : list Z) : Prop :=
  length a = length a0
  /\ <[h := key]> a ≡ₚ a0
  /\ sortedRange d a 0 h
  /\ sortedRange d a (h + 1) (i + 1)
  /\ (forall p q, p < h -> h < q -> q <= i -> inOrder d (a !!! p) (a !!! q))
  /\ (forall q, h < q -> q <= i -> inOrder d key (a !!! q)).

(** [a'] differs from [a] only inside [lo..hi], by a rearrangement of that
    range. *)
Definition rearranged (a a' : list Z) (lo hi : nat) : Prop :=
  length a' = length a
  /\ a' ≡ₚ a
  /\ (forall k, k < lo \/ hi < k -> a' !!! k = a !!! k)
  /\ (forall k, lo <= k -> k <= hi ->
        exists k', lo <= k' /\ k' <= hi /\ a' !!! k = a !!! k').

(** The index a sift-down step at [i] leaves on top: [i] itself or the
    child that must come before it and before the other child. *)
Definition pickTop (d : Direction) (a : list Z) (i n : nat) : nat :=
  let l := 2 * i + 1 in
  let top := if (l <? n) && shouldSwap d (a !!! l) (a !!! i) then l else i in
  if (l + 1 <? n) && shouldSwap d (a !!! (l + 1)) (a !!! top) then l + 1 else top.

(** In the heap of the first [n] elements the parent [p] is in order with
    its children: no child has to come after it. *)
Definition heapOk (d : Direction) (a : list Z) (n p : nat) : Prop :=
  (2 * p + 1 < n -> inOrder d (a !!! (2 * p + 1)) (a !!! p))
  /\ (2 * p + 2 < n -> inOrder d (a !!! (2 * p + 2)) (a !!! p)).

Definition heapFrom (d : Direction) (a : list Z) (n lo : nat) : Prop :=
  forall p, lo <= p -> heapOk d a n p.

(** The steps emitted so far account for the working array: applying all
    of them to the initial array gives the working array, every step stands
    at its [stepIndex], and applying the steps up to and including it gives
    its snapshot. *)
Definition follows (initial : list Z) (r : Run) : Prop :=
  applySteps initial (steps r) = array r
  /\ forall n s, steps r !! n = Some s ->
       stepIndex s = n
       /\ applySteps initial (take (S n) (steps r)) = arraySnapshot s.

(** What a correct run of a generator leaves: the steps account for the
    array, which is the initial one rearranged into order. *)
Definition sorts (d : Direction) (initial : list Z) (r : Run) : Prop :=
  follows initial r
  /\ array r ≡ₚ initial
  /\ StronglySorted (inOrder d) (array r).

End Engine.
(** ** [showNotification] and the timers it starts

    [showNotification] builds a [div], appends it to [document.body] and
    starts two timers; the second timer's callback starts a third one, which
    removes the [div]. The page below holds what these calls read and write:
    the elements, the children of the body and the list of active timers.
    Nothing else changes the page: no other script runs on it. *)

Module DOM.

(** [a === b] on two Strings. *)
Fixpoint strictEquals (a b : JSString) : bool :=
  match a, b with
  | [], [] => true
  | x :: a', y :: b' => (x =? y)%N && strictEquals a' b'
  | _, _ => false
  end.

(** The declarations of an inline style, in order. *)
Definition Style : Type := list (JSString * JSString).

(** Setting one property: an existing declaration is updated in place, a new
    one is appended. *)
Fixpoint setProperty (name value : JSString) (s : Style) : Style :=
  match s with
  | [] => [(name, value)]
  | (n, v) :: rest =>
      if strictEquals n name then (n, value) :: rest
      else (n, v) :: setProperty name value rest
  end.

Fixpoint getPropertyValue (name : JSString) (s : Style) : JSString :=
  match s with
  | [] => []
  | (n, v) :: rest => if strictEquals n name then v else getPropertyValue name rest
  end.

Record Element : Type := mkElement {
  tagName : JSString;
  className : JSString;
  textContent : JSString;
  style : Style
}.

(** The three arrow functions handed to [setTimeout]; each closes over
    [notification]. *)
Inductive Callback : Type :=
| SlideIn (notification : nat)
    (* () => { notification.style.transform = 'translateX(0)'; } *)
| SlideOut (notification : nat)
    (* () => { notification.style.transform = 'translateX(100%)';
               setTimeout(..., 300); } *)
| Detach (notification : nat).
    (* () => { document.body.removeChild(notification); } *)

Record Timer : Type := mkTimer {
  handler : Callback;
  milliseconds : Z
}.

Record Page : Type := mkPage {
  elements : list Element;  (* every element, by address *)
  body : list nat;          (* the children of document.body, in order *)
  timers : list Timer       (* the active timers, in the order they were started *)
}.

Inductive DOMException : Type :=
| NotFoundError.

Inductive Completion (A : Type) : Type :=
| Normal (value : A) (page : Page)
| Throw (exception : DOMException).
Arguments Normal {A} value page.
Arguments Throw {A} exception.

Definition M (A : Type) : Type := Page -> Completion A.

Definition bind {A B} (c : M A) (k : A -> M B) : M B :=
  fun page =>
    match c page with
    | Normal a page' => k a page'
    | Throw e => Throw e
    end.

Notation "x <~ c ;; k" := (bind c (fun x => k))
  (at level 100, c at next level, right associativity).
Notation "c ;;; k" := (bind c (fun _ => k))
  (at level 100, right associativity).

(** [document.createElement(tag)] *)
Definition createElement (tag : JSString) : M nat :=
  fun page =>
    Normal (length (elements page))
      (mkPage (elements page ++ [mkElement tag [] [] []]) (body page) (timers page)).

Definition update (node : nat) (f : Element -> Element) : M unit :=
  fun page =>
    Normal tt (mkPage (alter f node (elements page)) (body page) (timers page)).

(** [node.className = value] *)
Definition setClassName (node : nat) (value : JSString) : M unit :=
  update node (fun e => mkElement (tagName e) value (textContent e) (style e)).

(** [node.textContent = value] *)
Definition setTextContent (node : nat) (value : JSString) : M unit :=
  update node (fun e => mkElement (tagName e) (className e) value (style e)).

(** [node.style.cssText = ...], given the declarations the text holds: they
    replace those of the element. *)
Definition setCssText (node : nat) (declarations : Style) : M unit :=
  update node (fun e => mkElement (tagName e) (className e) (textContent e) declarations).

(** [node.style.<property> = value] *)
Definition setStyle (node : nat) (property value : JSString) : M unit :=
  update node (fun e => mkElement (tagName e) (className e) (textContent e)
                          (setProperty property value (style e))).

Definition isChild (node : nat) (children : list nat) : bool :=
  existsb (Nat.eqb node) children.

Definition without (node : nat) (children : list nat) : list nat :=
  List.filter (fun k => negb (k =? node)%nat) children.

(** [document.body.appendChild(node)]: the node becomes the last child; a
    node that is a child already is moved. *)
Definition appendChild (node : nat) : M unit :=
  fun page =>
    Normal tt (mkPage (elements page) (without node (body page) ++ [node]) (timers page)).

(** [document.body.removeChild(node)]: a node that is not a child of the body
    makes it throw. *)
Definition removeChild (node : nat) : M unit :=
  fun page =>
    if isChild node (body page)
    then Normal tt (mkPage (elements page) (without node (body page)) (timers page))
    else Throw NotFoundError.

(** [setTimeout(callback, ms)]; the source never uses the identifier it
    returns. *)
Definition setTimeout (callback : Callback) (ms : Z) : M unit :=
  fun page =>
    Normal tt (mkPage (elements page) (body page) (timers page ++ [mkTimer callback ms])).

(** The [switch (type)] of [showNotification]. *)
Definition backgroundColor (type : JSString) : JSString :=
  if strictEquals type (lit "success") then lit "#22c55e"
  else if strictEquals type (lit "error") then lit "#ef4444"
  else if strictEquals type (lit "warning") then lit "#f59e0b"
  else lit "#3b82f6".

(** [showNotification(message, type = 'info')]; [None] is an argument that is
    missing or [undefined]. *)
Definition showNotification (message : JSString) (type : option JSString) : M unit :=
  let type := match type with Some t => t | None => lit "info" end in
  notification <~ createElement (lit "div") ;;
  setClassName notification (lit "notification notification-" ++ type) ;;;
  setTextContent notification message ;;;
  setCssText notification
    [(lit "position", lit "fixed");
     (lit "top", lit "20px");
     (lit "right", lit "20px");
     (lit "padding", lit "15px 20px");
     (lit "border-radius", lit "8px");
     (lit "color", lit "white");
     (lit "font-weight", lit "500");
     (lit "z-index", lit "1000");
     (lit "transform", lit "translateX(100%)");
     (lit "transition", lit "transform 0.3s ease")] ;;;
  setStyle notification (lit "background-color") (backgroundColor type) ;;;
  appendChild notification ;;;
  setTimeout (SlideIn notification) 100 ;;;
  setTimeout (SlideOut notification) 3000.

(** Running a timer's callback. *)
Definition invoke (callback : Callback) : M unit :=
  match callback with
  | SlideIn notification =>
      setStyle notification (lit "transform") (lit "translateX(0)")
  | SlideOut notification =>
      setStyle notification (lit "transform") (lit "translateX(100%)") ;;;
      setTimeout (Detach notification) 300
  | Detach notification =>
      removeChild notification
  end.

(** The order of timers: a timer waits for every timer that was started
    before it with the same or a shorter delay. Beyond that a browser is
    free, so the [k]-th active timer may run when no active timer before it
    has a delay that is not longer. *)
Definition mayRun (k : nat) (active : list Timer) : bool :=
  match active !! k with
  | Some t => forallb (fun t' => milliseconds t <? milliseconds t') (take k active)
  | None => false
  end.

(** What happens on the page: the script calls [showNotification], or the
    [k]-th active timer runs. *)
Inductive Event : Type :=
| Call (message : JSString) (type : option JSString)
| Timeout (k : nat).

(** One event; [None] when the event cannot happen on this page. *)
Definition step (e : Event) (page : Page) : option (Completion unit) :=
  match e with
  | Call message type => Some (showNotification message type page)
  | Timeout k =>
      match timers page !! k with
      | Some t =>
          if mayRun k (timers page)
          then Some (invoke (handler t)
                       (mkPage (elements page) (body page) (delete k (timers page))))
          else None
      | None => None
      end
  end.

(** A sequence of events; an exception ends it. *)
Fixpoint run (events : list Event) (page : Page) : option (Completion unit) :=
  match events with
  | [] => Some (Normal tt page)
  | e :: rest =>
      match step e page with
      | Some (Normal _ page') => run rest page'
      | Some (Throw exception) => Some (Throw exception)
      | None => None
      end
  end.

(** The page when the script starts: the body has the given children and no
    timer is active. *)
Definition load (children : list Element) : Page :=
  mkPage children (seq 0 (length children)) [].

(** The notifications on the page: the children of the body that follow
    the original ones. *)
Definition notifications (children : list Element) (page : Page) : list nat :=
  drop (length children) (body page).

(** The element a callback closes over. *)
Definition target (callback : Callback) : nat :=
  match callback with
  | SlideIn n | SlideOut n | Detach n => n
  end.

Definition sameCallback (a b : Callback) : bool :=
  match a, b with
  | SlideIn x, SlideIn y | SlideOut x, SlideOut y | Detach x, Detach y => (x =? y)%nat
  | _, _ => false
  end.

(** Whether a timer with this callback is active. *)
Definition pendingIn (callback : Callback) (active : list Timer) : bool :=
  existsb (fun t => sameCallback (handler t) callback) active.

Definition pending (callback : Callback) (page : Page) : bool :=
  pendingIn callback (timers page).

(** Where a notification is drawn: the [transform] of its inline style. *)
Definition transform (node : nat) (page : Page) : JSString :=
  match elements page !! node with
  | Some e => getPropertyValue (lit "transform") (style e)
  | None => []
  end.

(** Where its box is laid out: [position], [top] and [right]. *)
Definition corner (node : nat) (page : Page) : JSString * JSString * JSString :=
  match elements page !! node with
  | Some e =>
      (getPropertyValue (lit "position") (style e),
       getPropertyValue (lit "top") (style e),
       getPropertyValue (lit "right") (style e))
  | None => ([], [], [])
  end.

(** A notification is on screen from its first timer to its second. *)
Definition onScreen (node : nat) (page : Page) : bool :=
  negb (pending (SlideIn node) page) && pending (SlideOut node) page.

(** The timer callbacks still to run before the page is quiet: a [SlideOut]
    stands for itself and for the [Detach] it starts. *)
Definition remaining (active : list Timer) : nat :=
  list_sum (List.map (fun t => match handler t with
                               | SlideOut _ => 2 | _ => 1
                               end)%nat active).

(** A page with two elements on which two notifications are shown: the
    first has slid in and out again, the second has slid in. *)
Definition twoElements : list Element :=
  [mkElement (lit "nav") (lit "navbar") [] [];
   mkElement (lit "main") [] [] []].

Definition twoNotifications : list Event :=
  [Call (lit "Saved") (Some (lit "success")); Timeout 0;
   Call (lit "Hello") None; Timeout 1; Timeout 0].

(** ** Invariants of the page *)

(** A notification has one of [SlideOut] and [Detach] active. *)
Definition owner (t : Timer) : option nat :=
  match handler t with
  | SlideIn _ => None
  | SlideOut n | Detach n => Some n
  end.

Definition entering (t : Timer) : option nat :=
  match handler t with
  | SlideIn n => Some n
  | _ => None
  end.

(** The delays of the source. *)
Definition delayOf (callback : Callback) : Z :=
  match callback with
  | SlideIn _ => 100
  | SlideOut _ => 3000
  | Detach _ => 300
  end.

(** A [SlideIn] is followed by the [SlideOut] of the same notification. *)
Fixpoint ordered (active : list Timer) : Prop :=
  match active with
  | [] => True
  | t :: rest =>
      match handler t with
      | SlideIn n => In (SlideOut n) (List.map handler rest)
      | _ => True
      end /\ ordered rest
  end.

Definition Invariant (children : list Element) (page : Page) : Prop :=
  exists live : list nat,
    body page = seq 0 (length children) ++ live
    /\ take (length children) (elements page) = children
    /\ NoDup live
    /\ Forall (fun t => (length children <= target (handler t) < length (elements page))%nat)
         (timers page)
    /\ omap owner (timers page) ≡ₚ live
    /\ NoDup (omap entering (timers page))
    /\ Forall (fun t => milliseconds t = delayOf (handler t)) (timers page)
    /\ ordered (timers page)
    /\ (forall n, In n live ->
          transform n page
          = if onScreen n page then lit "translateX(0)" else lit "translateX(100%)").

End DOM.

(** * Properties of the validator *)

(** ** White space and [trim] *)

Lemma trimStart_split s :
  exists w, s = w ++ trimStart s /\ forallb isWhiteSpace w = true.
Proof.
  induction s as [|c s [w [Hs Hw]]]; simpl.
  - exists []. auto.
  - destruct (isWhiteSpace c) eqn:Hc.
    + exists (c :: w). simpl. rewrite Hc, Hw. split; [congruence | reflexivity].
    + exists []. auto.
Qed.

Lemma trimStart_blank s : blank s = true -> trimStart s = [].
Proof.
  unfold blank. induction s as [|c s IH]; simpl; [reflexivity|].
  intros [Hc Hs]%andb_prop. rewrite Hc. auto.
Qed.

Lemma trimStart_head s c r : trimStart s = c :: r -> isWhiteSpace c = false.
Proof.
  induction s as [|d s IH]; simpl; [discriminate|].
  destruct (isWhiteSpace d) eqn:Hd; [exact IH|].
  intros [= <- _]. exact Hd.
Qed.

Lemma trimStart_nil s : trimStart s = [] -> blank s = true.
Proof.
  unfold blank. induction s as [|c s IH]; simpl; [reflexivity|].
  destruct (isWhiteSpace c); [exact IH | discriminate].
Qed.

Lemma blank_rev s : blank (rev s) = blank s.
Proof.
  unfold blank. induction s as [|c s IH]; simpl; [reflexivity|].
  rewrite forallb_app, IH. simpl. rewrite andb_true_r. apply andb_comm.
Qed.

Lemma trim_blank input : blank input = true -> trim input = [].
Proof.
  intros H. unfold trim, trimEnd. rewrite (trimStart_blank _ H). reflexivity.
Qed.

Lemma trim_nil input : trim input = [] -> blank input = true.
Proof.
  unfold trim, trimEnd. intros H.
  assert (Hr : trimStart (rev (trimStart input)) = []).
  { destruct (trimStart (rev (trimStart input))) as [|c r]; [reflexivity|].
    apply (f_equal (@length _)) in H. rewrite length_rev in H. discriminate. }
  apply trimStart_nil in Hr. rewrite blank_rev in Hr.
  destruct (trimStart input) as [|c r] eqn:E.
  - apply trimStart_nil, E.
  - apply trimStart_head in E. unfold blank in Hr. simpl in Hr.
    rewrite E in Hr. discriminate.
Qed.

Lemma truthy_trim input : truthy (trim input) = negb (blank input).
Proof.
  destruct (blank input) eqn:B.
  - rewrite (trim_blank _ B). reflexivity.
  - destruct (trim input) eqn:T; [|reflexivity].
    apply trim_nil in T. congruence.
Qed.

(** ** Tokens *)

Lemma ws_delimiter c : isWhiteSpace c = true -> isDelimiter c = true.
Proof. unfold isDelimiter. intros ->. apply orb_true_r. Qed.

Lemma blank_delimiters w :
  forallb isWhiteSpace w = true -> forallb isDelimiter w = true.
Proof.
  induction w as [|c w IH]; simpl; [reflexivity|].
  intros [Hc Hw]%andb_prop. rewrite (ws_delimiter _ Hc). auto.
Qed.

Lemma fields_delimiters_nil d :
  forallb isDelimiter d = true -> fields [] d = [].
Proof.
  induction d as [|c d IH]; simpl; [reflexivity|].
  intros [Hc Hd]%andb_prop. rewrite Hc. auto.
Qed.

Lemma fields_delimiters cur d :
  forallb isDelimiter d = true -> fields cur d = fields cur [].
Proof.
  destruct d as [|c d]; [reflexivity|]. simpl.
  intros [Hc Hd]%andb_prop. rewrite Hc, (fields_delimiters_nil _ Hd).
  reflexivity.
Qed.

Lemma fields_skip_front w s :
  forallb isDelimiter w = true -> fields [] (w ++ s) = fields [] s.
Proof.
  induction w as [|c w IH]; simpl; [reflexivity|].
  intros [Hc Hw]%andb_prop. rewrite Hc. auto.
Qed.

Lemma fields_skip_back d s cur :
  forallb isDelimiter d = true -> fields cur (s ++ d) = fields cur s.
Proof.
  intros Hd. revert cur. induction s as [|c s IH]; intros cur.
  - simpl app. apply fields_delimiters, Hd.
  - simpl. destruct (isDelimiter c); [destruct cur|]; rewrite ?IH; reflexivity.
Qed.

Lemma fields_trim input : fields [] (trim input) = fields [] input.
Proof.
  unfold trim, trimEnd.
  destruct (trimStart_split input) as [w [Hi Hw]].
  destruct (trimStart_split (rev (trimStart input))) as [v [Hr Hv]].
  rewrite Hi at 2. rewrite (fields_skip_front _ _ (blank_delimiters _ Hw)).
  apply (f_equal (@rev _)) in Hr. rewrite rev_involutive, rev_app_distr in Hr.
  rewrite Hr at 2. symmetry. apply fields_skip_back.
  apply blank_delimiters. fold (blank (rev v)). rewrite blank_rev. exact Hv.
Qed.

Lemma Tokenized_delimiter c s toks :
  isDelimiter c = true -> Tokenized s toks -> Tokenized (c :: s) toks.
Proof.
  intros Hc H. destruct H as [ds Hds|ds t rest toks Hds Ht Hnd Hrest Hr].
  - apply Tokenized_end. simpl. rewrite Hc. exact Hds.
  - apply (Tokenized_token (c :: ds)); try assumption.
    simpl. rewrite Hc. exact Hds.
Qed.

Lemma fields_Tokenized s : forall cur,
  forallb (fun c => negb (isDelimiter c)) cur = true ->
  match cur with
  | [] => Tokenized s (fields [] s)
  | _ => Tokenized (rev cur ++ s) (fields cur s)
  end.
Proof.
  assert (Hrev : forall cur, forallb (fun c => negb (isDelimiter c)) cur = true ->
                   forallb (fun c => negb (isDelimiter c)) (rev cur) = true).
  { intros cur H. rewrite forallb_forall in *. intros x Hx. apply H.
    apply in_rev. exact Hx. }
  assert (Hne : forall (c : code_unit) cur, rev (c :: cur) <> []).
  { intros c cur E. apply (f_equal (@length _)) in E.
    rewrite length_rev in E. discriminate. }
  induction s as [|c s IH]; intros cur Hcur.
  - destruct cur as [|d cur]; simpl fields.
    + apply Tokenized_end. reflexivity.
    + apply (Tokenized_token [] (rev (d :: cur)) []); auto.
      apply Tokenized_end. reflexivity.
  - cbn [fields]. destruct (isDelimiter c) eqn:Hc.
    + pose proof (Tokenized_delimiter c s _ Hc (IH [] eq_refl)) as Hs.
      destruct cur as [|d cur]; [exact Hs|].
      apply (Tokenized_token [] (rev (d :: cur)) (c :: s)); auto.
    + specialize (IH (c :: cur)). cbn [forallb] in IH. rewrite Hc in IH.
      specialize (IH Hcur). destruct cur as [|d cur].
      * exact IH.
      * cbn [rev] in IH |- *. rewrite <- (app_assoc _ [c] s) in IH. exact IH.
Qed.

Lemma replace_delimiter c :
  isWhiteSpace (if (c =? COMMA)%N then SPACE else c) = isDelimiter c.
Proof.
  unfold isDelimiter. destruct (c =? COMMA)%N; reflexivity.
Qed.

Lemma truthy_rev cur : truthy (rev cur) = truthy cur.
Proof.
  destruct cur as [|c cur]; [reflexivity|]. simpl.
  destruct (rev cur); reflexivity.
Qed.

Lemma split_fields s : forall cur run,
  (run = true -> cur = []) ->
  List.filter truthy (split_go cur run (replace_commas s)) = fields cur s.
Proof.
  induction s as [|c s IH]; intros cur run Hrun; simpl.
  - rewrite truthy_rev. destruct cur; reflexivity.
  - rewrite replace_delimiter. destruct (isDelimiter c) eqn:Hc.
    + destruct run.
      * rewrite (Hrun eq_refl). apply IH. reflexivity.
      * simpl. rewrite truthy_rev, (IH [] true (fun _ => eq_refl)).
        destruct cur; reflexivity.
    + unfold isDelimiter in Hc. apply orb_false_elim in Hc as [Hc _].
      rewrite Hc. apply IH. discriminate.
Qed.

Lemma tokenize_trim input : tokenize (trim input) = tokens input.
Proof.
  unfold tokenize, tokens, split_ws. rewrite <- fields_trim.
  apply split_fields. discriminate.
Qed.

(** Every token is a non-empty run without delimiters, and the tokens are
    what is left of the input once the delimiters are taken out. *)
Lemma fields_sound s : forall cur,
  forallb (fun c => negb (isDelimiter c)) cur = true ->
  Forall (fun t => t <> [] /\ forallb (fun c => negb (isDelimiter c)) t = true)
         (fields cur s)
  /\ concat (fields cur s)
     = rev cur ++ List.filter (fun c => negb (isDelimiter c)) s.
Proof.
  assert (Hrev : forall cur, forallb (fun c => negb (isDelimiter c)) cur = true ->
                   forallb (fun c => negb (isDelimiter c)) (rev cur) = true).
  { intros cur H. rewrite forallb_forall in *. intros x Hx. apply H.
    apply in_rev. exact Hx. }
  assert (Hne : forall (c : code_unit) cur, rev (c :: cur) <> []).
  { intros c cur E. apply (f_equal (@length _)) in E.
    rewrite length_rev in E. discriminate. }
  induction s as [|c s IH]; intros cur Hcur; simpl.
  - destruct cur as [|d cur]; simpl.
    + split; [constructor | reflexivity].
    + split; [|rewrite !app_nil_r; reflexivity].
      constructor; [|constructor]. split; [apply (Hne d cur) | apply (Hrev (d :: cur) Hcur)].
  - destruct (isDelimiter c) eqn:Hc; simpl.
    + destruct (IH [] eq_refl) as [IH1 IH2]. destruct cur as [|d cur].
      * split; [exact IH1 | exact IH2].
      * split.
        -- constructor; [|exact IH1].
           split; [apply (Hne d cur) | apply (Hrev (d :: cur) Hcur)].
        -- simpl concat. rewrite IH2. reflexivity.
    + destruct (IH (c :: cur)) as [IH1 IH2].
      { simpl. rewrite Hc. exact Hcur. }
      split; [exact IH1|]. rewrite IH2. simpl. rewrite <- app_assoc. reflexivity.
Qed.

(** ** The loop over the tokens *)

Lemma loopBody_verdict vs es tok :
  loopBody (vs, es) tok
  = (vs ++ to_list (tokenNumber tok), es ++ to_list (tokenError tok)).
Proof.
  unfold loopBody, tokenNumber, tokenError, inRange.
  destruct (isNaN (parseInt tok)); simpl; [rewrite app_nil_r; reflexivity|].
  destruct (lessThan (parseInt tok) 1 || greaterThan (parseInt tok) 1000); simpl;
    rewrite app_nil_r; reflexivity.
Qed.

Lemma loop_verdicts toks : forall vs es,
  fold_left loopBody toks (vs, es)
  = (vs ++ omap tokenNumber toks, es ++ omap tokenError toks).
Proof.
  induction toks as [|tok toks IH]; intros vs es; cbn [fold_left omap list_omap].
  - rewrite !app_nil_r. reflexivity.
  - rewrite loopBody_verdict, IH, <- !app_assoc.
    destruct (tokenNumber tok), (tokenError tok); reflexivity.
Qed.

Lemma verdict_exclusive tok :
  (exists n, tokenNumber tok = Some n /\ tokenError tok = None)
  \/ (tokenNumber tok = None /\ exists m, tokenError tok = Some m).
Proof.
  unfold tokenNumber, tokenError, inRange.
  destruct (isNaN (parseInt tok)); simpl; [right; eauto|].
  destruct (lessThan (parseInt tok) 1 || greaterThan (parseInt tok) 1000); simpl; eauto.
Qed.

Lemma tokenNumber_parseInt tok num :
  tokenNumber tok = Some num -> num = parseInt tok.
Proof.
  unfold tokenNumber. destruct (inRange (parseInt tok)); congruence.
Qed.

Lemma no_errors_all_numbers toks :
  omap tokenError toks = [] ->
  omap tokenNumber toks = List.map parseInt toks.
Proof.
  induction toks as [|tok toks IH]; cbn [omap list_omap List.map]; [reflexivity|].
  destruct (verdict_exclusive tok) as [[n [Hn He]]|[Hn [m He]]];
    rewrite Hn, He; [|discriminate].
  intros H. rewrite (IH H), (tokenNumber_parseInt _ _ Hn). reflexivity.
Qed.

Lemma tokenNumber_range tok num :
  tokenNumber tok = Some num -> isIntegerIn 1 1000 num.
Proof.
  unfold tokenNumber, inRange.
  destruct (parseInt tok) as [|z|b]; simpl; try discriminate.
  - destruct (z <? 1) eqn:E1; [discriminate|].
    destruct (1000 <? z) eqn:E2; [discriminate|]. simpl.
    intros [= <-]. exists z. split; [reflexivity|lia].
  - destruct b; discriminate.
Qed.

Lemma firstn_min {A} n (a : list A) :
  firstn (Nat.min n (length a)) a = firstn n a.
Proof.
  destruct (Nat.le_gt_cases n (length a)) as [H|H].
  - rewrite Nat.min_l by exact H. reflexivity.
  - rewrite Nat.min_r by lia. rewrite !firstn_all2 by lia. reflexivity.
Qed.

Lemma slice_prefix {A} (a : list A) n :
  0 <= n -> slice a 0 (Some n) = firstn (Z.to_nat n) a.
Proof.
  intros Hn. unfold slice.
  assert (E0 : (0 <? 0) = false) by reflexivity. rewrite E0.
  assert (En : (n <? 0) = false) by lia. rewrite En.
  replace (Z.min 0 (Z.of_nat (length a))) with 0 by lia.
  simpl skipn. rewrite Z.sub_0_r.
  replace (Z.to_nat (Z.min n (Z.of_nat (length a))))
    with (Nat.min (Z.to_nat n) (length a)) by lia.
  apply firstn_min.
Qed.

Lemma slice_suffix {A} (a : list A) n :
  0 < n <= Z.of_nat (length a) ->
  slice a (- n) None = skipn (length a - Z.to_nat n) a.
Proof.
  intros Hn. unfold slice.
  assert (En : (- n <? 0) = true) by lia. rewrite En.
  replace (Z.max (Z.of_nat (length a) + - n) 0) with (Z.of_nat (length a) - n) by lia.
  replace (Z.to_nat (Z.of_nat (length a) - n)) with (length a - Z.to_nat n)%nat by lia.
  apply firstn_all2. rewrite length_skipn. lia.
Qed.

(** The function in terms of the token verdicts. *)
Lemma validate_verdicts input :
  validateNumberInput input =
  if blank input then emptyResult
  else match omap tokenError (tokens input) with
       | (_ :: _) as errors => errorResult errors
       | [] =>
           let nums := omap tokenNumber (tokens input) in
           if (25 <? length nums)%nat then truncatedResult nums
           else validResult nums
       end.
Proof.
  unfold validateNumberInput. rewrite truthy_trim, negb_involutive.
  destruct (blank input); [reflexivity|].
  rewrite tokenize_trim, loop_verdicts. simpl app. unfold conclude.
  destruct (omap tokenError (tokens input)) as [|e es]; simpl length.
  - change (0 <? Z.of_nat 0) with false. cbv iota.
    destruct (25 <? Z.of_nat (length (omap tokenNumber (tokens input)))) eqn:E.
    + assert (E' : (25 <? length (omap tokenNumber (tokens input)))%nat = true).
      { apply Nat.ltb_lt. apply Z.ltb_lt in E. lia. }
      cbv zeta. rewrite E'. unfold truncatedResult, joinWith.
      rewrite slice_prefix by lia. reflexivity.
    + assert (E' : (25 <? length (omap tokenNumber (tokens input)))%nat = false).
      { apply Nat.ltb_ge. apply Z.ltb_ge in E. lia. }
      cbv zeta. rewrite E'. reflexivity.
  - assert (E : (0 <? Z.of_nat (S (length es))) = true) by (apply Z.ltb_lt; lia).
    rewrite E. reflexivity.
Qed.

Lemma join_includes sep parts m : In m parts -> includes (join sep parts) m.
Proof.
  induction parts as [|p parts IH]; [intros []|].
  intros [->|H].
  - destruct parts as [|p' parts].
    + exists [], []. simpl. rewrite app_nil_r. reflexivity.
    + exists [], (sep ++ join sep (p' :: parts)). reflexivity.
  - destruct parts as [|p' parts]; [destruct H|].
    destruct (IH H) as [b [a E]].
    exists (p ++ sep ++ b), a.
    change (join sep (p :: p' :: parts)) with (p ++ sep ++ join sep (p' :: parts)).
    rewrite E, <- !app_assoc. reflexivity.
Qed.

Lemma In_omap_error toks tok m :
  In tok toks -> tokenError tok = Some m -> In m (omap tokenError toks).
Proof.
  intros Hin Hm. apply list_elem_of_In. apply list_elem_of_omap.
  exists tok. split; [apply list_elem_of_In, Hin | exact Hm].
Qed.

(** ** [parseInt] and [NaN] *)


Lemma takeDigits_nil R s :
  takeDigits R s = [] <->
  match s with c :: _ => digitValue R c = None | [] => True end.
Proof.
  destruct s as [|c s]; simpl; [tauto|].
  destruct (digitValue R c); split; intros H; try discriminate; reflexivity.
Qed.

Lemma digitValue_decimal c :
  digitValue 10 c = None <-> isDecimalDigit c = false.
Proof.
  unfold digitValue, isDecimalDigit.
  assert (E1 : (48 <=? Z.of_N c) = (48 <=? c)%N).
  { apply eq_true_iff_eq. rewrite Z.leb_le, N.leb_le. lia. }
  assert (E2 : (Z.of_N c <=? 57) = (c <=? 57)%N).
  { apply eq_true_iff_eq. rewrite Z.leb_le, N.leb_le. lia. }
  rewrite E1, E2.
  destruct (48 <=? c)%N eqn:A, (c <=? 57)%N eqn:B; simpl.
  - apply N.leb_le in A, B.
    assert (H : (Z.of_N c - 48 <? 10) = true) by (apply Z.ltb_lt; lia).
    rewrite H. split; discriminate.
  - split; [reflexivity|]. intros _.
    repeat match goal with |- context [if ?b then _ else _] => destruct b eqn:? end;
      try reflexivity; exfalso;
      repeat match goal with
             | H : (_ && _) = true |- _ => apply andb_prop in H as [? ?]
             | H : (_ <=? _) = true |- _ => apply Z.leb_le in H
             | H : (_ <? _) = true |- _ => apply Z.ltb_lt in H
             end; lia.
  - split; [reflexivity|]. intros _.
    repeat match goal with |- context [if ?b then _ else _] => destruct b eqn:? end;
      try reflexivity; exfalso;
      repeat match goal with
             | H : (_ && _) = true |- _ => apply andb_prop in H as [? ?]
             | H : (_ <=? _) = true |- _ => apply Z.leb_le in H
             | H : (_ <? _) = true |- _ => apply Z.ltb_lt in H
             end; lia.
  - split; [reflexivity|]. intros _.
    repeat match goal with |- context [if ?b then _ else _] => destruct b eqn:? end;
      try reflexivity; exfalso;
      repeat match goal with
             | H : (_ && _) = true |- _ => apply andb_prop in H as [? ?]
             | H : (_ <=? _) = true |- _ => apply Z.leb_le in H
             | H : (_ <? _) = true |- _ => apply Z.ltb_lt in H
             end; lia.
Qed.




Lemma tokenError_out_of_range token z :
  parseInt token = Finite z -> z < 1 \/ 1000 < z ->
  tokenError token = Some (outOfRange (Finite z)).
Proof.
  intros E Hz. unfold tokenError, inRange. rewrite E. simpl.
  assert (H : (z <? 1) || (1000 <? z) = true).
  { apply orb_true_iff. rewrite !Z.ltb_lt. exact Hz. }
  rewrite H. reflexivity.
Qed.

Lemma verdict_in_range token :
  isIntegerIn 1 1000 (parseInt token) ->
  tokenError token = None /\ tokenNumber token = Some (parseInt token).
Proof.
  intros [z [E Hz]]. unfold tokenError, tokenNumber, inRange. rewrite E. simpl.
  assert (H1 : (z <? 1) = false) by (apply Z.ltb_ge; lia).
  assert (H2 : (1000 <? z) = false) by (apply Z.ltb_ge; lia).
  rewrite H1, H2. auto.
Qed.

Lemma omap_error_nil toks :
  Forall (fun tok => isIntegerIn 1 1000 (parseInt tok)) toks ->
  omap tokenError toks = [].
Proof.
  induction 1 as [|tok toks H _ IH]; [reflexivity|].
  cbn [omap list_omap]. destruct (verdict_in_range _ H) as [-> _]. exact IH.
Qed.

Lemma omap_number_range toks :
  Forall (isIntegerIn 1 1000) (omap tokenNumber toks).
Proof.
  induction toks as [|tok toks IH]; cbn [omap list_omap]; [constructor|].
  destruct (tokenNumber tok) eqn:E; [|exact IH].
  constructor; [exact (tokenNumber_range _ _ E) | exact IH].
Qed.

Lemma errors_present toks tok :
  In tok toks -> tokenError tok <> None -> omap tokenError toks <> [].
Proof.
  intros Hin Hne E. destruct (tokenError tok) as [m|] eqn:Em; [|congruence].
  pose proof (In_omap_error _ _ _ Hin Em) as H. rewrite E in H. destruct H.
Qed.

Lemma validate_errors input :
  blank input = false ->
  omap tokenError (tokens input) <> [] ->
  validateNumberInput input = errorResult (omap tokenError (tokens input)).
Proof.
  intros B H. rewrite validate_verdicts, B.
  destruct (omap tokenError (tokens input)); [congruence | reflexivity].
Qed.

(** ** Printing exact values *)

Lemma roundToDouble_small c : Z.abs c <= 2 ^ 53 -> roundToDouble c = Finite c.
Proof.
  intros H. unfold roundToDouble.
  destruct (Z.leb_spec (Z.abs c) (2 ^ 53)); [reflexivity | lia].
Qed.

Lemma roundToDouble_large c w :
  2 ^ 53 < c -> roundToDouble c = Finite w ->
  2 ^ 53 <= w /\ (w = 2 ^ 53 -> c = 2 ^ 53 + 1).
Proof.
  intros Hc. unfold roundToDouble.
  rewrite (Z.abs_eq c) by lia.
  destruct (Z.leb_spec c (2 ^ 53)) as [Hle|_]; [lia|]. cbv zeta.
  assert (HL : 53 <= Z.log2 c).
  { change 53 with (Z.log2 (2 ^ 53)). apply Z.log2_le_mono. lia. }
  destruct (Z.log2_spec c ltac:(lia)) as [Hlo Hhi].
  set (e := Z.log2 c - 52) in *.
  assert (He : 1 <= e) by (unfold e; lia).
  rewrite Z.shiftr_div_pow2, Z.land_ones by lia.
  assert (Hpow : 2 ^ Z.log2 c = 2 ^ 52 * 2 ^ e).
  { unfold e. rewrite <- Z.pow_add_r by lia. f_equal. lia. }
  assert (Hp2 : 2 <= 2 ^ e).
  { change 2 with (2 ^ 1) at 1. apply Z.pow_le_mono_r; lia. }
  assert (Hp4 : e <> 1 -> 4 <= 2 ^ e).
  { intros Hne. change 4 with (2 ^ 2). apply Z.pow_le_mono_r; lia. }
  set (P := 2 ^ e) in *.
  assert (Hq : 2 ^ 52 <= c / P).
  { apply Z.div_le_lower_bound; lia. }
  pose proof (Z.div_mod c P ltac:(lia)) as Hdm.
  pose proof (Z.mod_pos_bound c P ltac:(lia)) as Hmod.
  set (q := c / P) in *. set (m := c mod P) in *.
  rewrite (Z.sgn_pos c) by lia.
  set (q' := if m <? 2 ^ (e - 1) then q
             else if 2 ^ (e - 1) <? m then q + 1
             else if Z.even q then q else q + 1).
  assert (Hq' : q' = q \/ q' = q + 1).
  { unfold q'. repeat match goal with |- context [if ?b then _ else _] =>
                        destruct b end; auto. }
  assert (Hq'm : q' = q + 1 -> 2 ^ (e - 1) <= m).
  { unfold q'. destruct (Z.ltb_spec m (2 ^ (e - 1))); [lia | auto]. }
  clearbody q'.
  destruct (2 ^ 1024 <=? q' * P); [discriminate|].
  intros [= <-]. change (2 ^ 52) with 4503599627370496 in *.
  change (2 ^ 53) with 9007199254740992 in *.
  split; [nia|]. intros Hw.
  assert (Hq52 : q' = 4503599627370496 /\ P = 2) by nia.
  destruct Hq52 as [-> HP].
  assert (e = 1).
  { destruct (decide (e = 1)) as [?|Hne]; [assumption|].
    specialize (Hp4 Hne). lia. }
  subst e P. destruct Hq' as [Hq'|Hq'].
  - assert (m <> 0) by lia. lia.
  - lia.
Qed.

Lemma shortest_exact v :
  0 < v <= 2 ^ 53 -> forall ks d, shortest v d ks = v.
Proof.
  intros Hv ks d. induction ks as [|k ks IH]; [reflexivity|].
  cbn [shortest]. cbv zeta.
  set (g := 10 ^ (d - k)).
  assert (Hg : 0 <= g) by (apply Z.pow_nonneg; lia).
  set (lo := v / g * g).
  assert (Hlo : 0 <= lo <= v).
  { unfold lo. destruct (decide (g = 0)) as [->|Hne].
    - rewrite Z.mul_0_r. lia.
    - pose proof (Z.mul_div_le v g ltac:(lia)).
      assert (0 <= v / g) by (apply Z.div_pos; lia). nia. }
  rewrite (roundToDouble_small lo) by lia.
  destruct (Z.eqb_spec lo v) as [Elo|Nlo].
  - destruct (roundToDouble (lo + g)) as [|w|b]; try reflexivity; try exact Elo.
    destruct (w =? v); [|exact Elo].
    destruct (Z.leb_spec (v - lo) (lo + g - v)); [exact Elo | lia].
  - destruct (roundToDouble (lo + g)) as [|w|b] eqn:Ehi; try exact IH.
    destruct (Z.eqb_spec w v) as [Ew|_]; [|exact IH]. subst w.
    destruct (Z.le_gt_cases (lo + g) (2 ^ 53)) as [Hsmall|Hbig].
    + rewrite roundToDouble_small in Ehi by lia. congruence.
    + destruct (roundToDouble_large _ _ Hbig Ehi) as [H1 H2].
      assert (Ev : v = 2 ^ 53) by lia. specialize (H2 Ev). exfalso.
      (* [lo + g] would be a multiple of ten *)
      assert (Hj : 1 <= d - k).
      { destruct (Z.le_gt_cases 1 (d - k)) as [?|Hj]; [assumption|].
        assert (Hg1 : g = 0 \/ g = 1).
        { unfold g. destruct (Z.eq_dec (d - k) 0) as [->|Hne]; [auto|].
          left. apply Z.pow_neg_r. lia. }
        destruct Hg1 as [Hg0|Hg1].
        - rewrite Hg0 in *. lia.
        - unfold lo in Nlo. rewrite Hg1, Z.div_1_r, Z.mul_1_r in Nlo. lia. }
      assert (Hten : g = 10 * 10 ^ (d - k - 1)).
      { unfold g. rewrite <- Z.pow_succ_r by lia. f_equal. lia. }
      assert (Hmul : lo + g = 10 * ((v / g + 1) * 10 ^ (d - k - 1))).
      { unfold lo. rewrite Hten at 2 3. ring. }
      change (2 ^ 53) with 9007199254740992 in *. lia.
Qed.

Lemma decimal_zero : decimal 0 = lit "0".
Proof. reflexivity. Qed.

(** A value that binary64 holds exactly prints as its decimal notation. *)
Lemma toString_exact z :
  Z.abs z <= 2 ^ 53 ->
  toString (Finite z) = if z <? 0 then MINUS :: decimal (- z) else decimal z.
Proof.
  intros Hz. unfold toString.
  assert (Hpos : forall v, 0 < v <= 2 ^ 53 -> positiveToString v = decimal v).
  { intros v Hv. unfold positiveToString. cbv zeta.
    rewrite shortest_exact by exact Hv.
    destruct (Z.ltb_spec v (10 ^ 21)) as [_|Hbig]; [reflexivity|].
    change (2 ^ 53) with 9007199254740992 in *.
    change (10 ^ 21) with 1000000000000000000000 in *. lia. }
  destruct (Z.eqb_spec z 0) as [->|Hne]; [reflexivity|].
  destruct (Z.ltb_spec z 0); rewrite Hpos by lia; reflexivity.
Qed.

(** ** The two kinds of message differ *)

Lemma decimal_digits z : Forall (fun c => isDecimalDigit c = true) (decimal z).
Proof.
  unfold decimal, lit. generalize (N.to_uint (Z.to_N z)). intros u.
  induction u; simpl; constructor; try reflexivity; assumption.
Qed.




(** ** The claims about [validateNumberInput] and [formatNumbers] *)

(** C2. An input that is empty or holds white space only is accepted with
    [numbers: null] and the informational message; the caller then
    substitutes a random list. The empty string is the first such input. *)
Theorem C2_blank_input_yields_null_numbers (input : JSString) :
  blank input = true ->
  validateNumberInput input
  = mkResult true NumbersNull
      (Some (lit "Empty input - will use random numbers")) None.
Proof.
  intros B. rewrite validate_verdicts, B. reflexivity.
Qed.

Lemma C2_witness :
  validateNumberInput (lit "")
  = mkResult true NumbersNull
      (Some (lit "Empty input - will use random numbers")) None
  /\ validateNumberInput [32; 9; 10; 160; 8195]%N
     = mkResult true NumbersNull
         (Some (lit "Empty input - will use random numbers")) None.
Proof.
  split.
  - apply (C2_blank_input_yields_null_numbers (lit "")). reflexivity.
  - apply (C2_blank_input_yields_null_numbers [32; 9; 10; 160; 8195]%N).
    reflexivity.
Defined.

(** C3. On an input that is not blank the chain
    [replace(/,/g, ' ').split(/\s+/).filter(n => n)] computes exactly the
    tokens of the text format: the maximal runs between commas and white
    space, never an empty one, so that delimiters mix freely. The result is
    decided by those tokens alone, and ["5, 10  15"] gives [5, 10, 15]. *)
Theorem C3_tokens_split_on_commas_and_whitespace :
  (forall input : JSString,
      blank input = false ->
      tokenize (trim input) = tokens input
      /\ Tokenized input (tokens input)
      /\ Forall (fun t => t <> []
                          /\ forallb (fun c => negb (isDelimiter c)) t = true)
                (tokens input)
      /\ concat (tokens input)
         = List.filter (fun c => negb (isDelimiter c)) input
      /\ validateNumberInput input
         = match omap tokenError (tokens input) with
           | (_ :: _) as errors => errorResult errors
           | [] =>
               let nums := omap tokenNumber (tokens input) in
               if (25 <? length nums)%nat then truncatedResult nums
               else validResult nums
           end)
  /\ tokens (lit "5, 10  15") = [lit "5"; lit "10"; lit "15"]
  /\ validateNumberInput (lit "5, 10  15")
     = mkResult true (NumbersArray [Finite 5; Finite 10; Finite 15])
         (Some (lit "Valid numbers: 5, 10, 15")) None.
Proof.
  split; [|split; vm_compute; reflexivity].
  intros input B. split; [apply tokenize_trim|].
  split; [exact (fields_Tokenized input [] eq_refl)|].
  destruct (fields_sound input [] eq_refl) as [H1 H2].
  split; [exact H1|]. split; [exact H2|].
  rewrite validate_verdicts, B. reflexivity.
Qed.

Lemma C3_witness :
  tokenize (trim (lit " 7,,8 ," ++ [9%N] ++ lit "9 "))
  = [lit "7"; lit "8"; lit "9"]
  /\ tokens (lit " 7,,8 ," ++ [9%N] ++ lit "9 ") = [lit "7"; lit "8"; lit "9"].
Proof.
  destruct (proj1 C3_tokens_split_on_commas_and_whitespace
              (lit " 7,,8 ," ++ [9%N] ++ lit "9 ") eq_refl) as [H _].
  split; [rewrite H|]; vm_compute; reflexivity.
Defined.

(** C5. A token that parses to an integer [n] below 1 or above 1000 adds
    [<n> is out of range (1-1000)] to the error list, [<n>] being the parsed
    value as a template literal prints it: its decimal notation whenever
    binary64 holds the integer exactly. The result is then invalid and the
    message is part of its error. ["0 1001"] reports both values. *)
Theorem C5_out_of_range_values_are_reported :
  (forall (input token : JSString) (n : Z),
      blank input = false ->
      In token (tokens input) ->
      parseInt token = Finite n ->
      n < 1 \/ 1000 < n ->
      validateNumberInput input = errorResult (omap tokenError (tokens input))
      /\ In (toString (Finite n) ++ lit " is out of range (1-1000)")
            (omap tokenError (tokens input))
      /\ (exists e, error (validateNumberInput input) = Some e
                    /\ includes e (toString (Finite n)
                                   ++ lit " is out of range (1-1000)"))
      /\ (Z.abs n <= 2 ^ 53 ->
          toString (Finite n)
          = if n <? 0 then MINUS :: decimal (- n) else decimal n))
  /\ validateNumberInput (lit "0 1001")
     = mkResult false NumbersUndefined None
         (Some (lit "0 is out of range (1-1000), 1001 is out of range (1-1000)")).
Proof.
  split; [|vm_compute; reflexivity].
  intros input token n B Hin Hp Hn.
  pose proof (tokenError_out_of_range _ _ Hp Hn) as He.
  pose proof (In_omap_error _ _ _ Hin He) as Hm.
  assert (Hv : validateNumberInput input
               = errorResult (omap tokenError (tokens input))).
  { apply validate_errors; [exact B|]. intros E. rewrite E in Hm. destruct Hm. }
  split; [exact Hv|]. split; [exact Hm|]. split; [|apply toString_exact].
  eexists. rewrite Hv. split; [reflexivity|]. apply join_includes, Hm.
Qed.

Lemma C5_witness :
  In (lit "-3 is out of range (1-1000)")
     (omap tokenError (tokens (lit "12,-3"))).
Proof.
  destruct (proj1 C5_out_of_range_values_are_reported
              (lit "12,-3") (lit "-3") (-3) eq_refl) as [_ [H _]].
  - vm_compute. right. left. reflexivity.
  - vm_compute. reflexivity.
  - lia.
  - exact H.
Defined.

(** C6. When at least one token fails to parse or is out of range, the
    result is one object: [valid] is false, [error] joins with [", "] the
    messages of all offending tokens in the order of the tokens, and there
    is neither a [numbers] nor a [message] property. *)
Theorem C6_errors_are_reported_together (input : JSString) :
  blank input = false ->
  (exists token, In token (tokens input) /\ tokenError token <> None) ->
  validateNumberInput input
  = mkResult false NumbersUndefined None
      (Some (join (lit ", ") (omap tokenError (tokens input)))).
Proof.
  intros B [token [Hin He]].
  apply (validate_errors input B). exact (errors_present _ _ Hin He).
Qed.

Lemma C6_witness :
  validateNumberInput (lit "2000 4 abc 0")
  = mkResult false NumbersUndefined None
      (Some (lit "2000 is out of range (1-1000), "
             ++ DQUOTE :: lit "abc" ++ DQUOTE
             :: lit " is not a number, 0 is out of range (1-1000)")).
Proof.
  rewrite (C6_errors_are_reported_together (lit "2000 4 abc 0")).
  - vm_compute. reflexivity.
  - reflexivity.
  - exists (lit "abc"). split; [vm_compute; tauto | vm_compute; discriminate].
Defined.

(** C7. When every token is an integer in [1, 1000] and there are more than
    25 of them, the result is valid, [numbers] holds the first 25 in input
    order, and [message] is the truncation notice listing them; there is no
    [error]. *)
Theorem C7_more_than_25_numbers_are_truncated (input : JSString) :
  blank input = false ->
  Forall (fun token => isIntegerIn 1 1000 (parseInt token)) (tokens input) ->
  (25 < length (tokens input))%nat ->
  validateNumberInput input
  = mkResult true
      (NumbersArray (firstn 25 (List.map parseInt (tokens input))))
      (Some (lit "Too many numbers. Using first 25: "
             ++ join (lit ", ")
                  (List.map toString
                     (firstn 25 (List.map parseInt (tokens input))))))
      None.
Proof.
  intros B Hall Hlen. rewrite validate_verdicts, B.
  pose proof (omap_error_nil _ Hall) as He. rewrite He.
  rewrite (no_errors_all_numbers _ He). cbv zeta.
  rewrite length_map.
  assert (E : (25 <? length (tokens input))%nat = true) by (apply Nat.ltb_lt; exact Hlen).
  rewrite E. reflexivity.
Qed.

Lemma C7_witness :
  validateNumberInput thirtyNumbers
  = mkResult true
      (NumbersArray (List.map Finite
         [1; 2; 3; 4; 5; 6; 7; 8; 9; 10; 11; 12; 13; 14; 15; 16; 17; 18; 19;
          20; 21; 22; 23; 24; 25]))
      (Some (lit "Too many numbers. Using first 25: 1, 2, 3, 4, 5, 6, 7, 8, 9, 10, 11, 12, 13, 14, 15, 16, 17, 18, 19, 20, 21, 22, 23, 24, 25"))
      None.
Proof.
  rewrite (C7_more_than_25_numbers_are_truncated thirtyNumbers).
  - vm_compute. reflexivity.
  - reflexivity.
  - let toks := eval vm_compute in (tokens thirtyNumbers) in
    change (tokens thirtyNumbers) with toks.
    repeat (apply List.Forall_cons; [eexists; split; [lazy; reflexivity | lia] |]).
    apply List.Forall_nil.
  - vm_compute. lia.
Defined.

(** C10. [formatNumbers] joins a list of at most ten elements with [", "];
    a longer list is shown as its first five elements, [" ... "], and its
    last five elements, each group joined with [", "]. *)
Theorem C10_formatNumbers_elides_the_middle
    (A : Type) (ToString : A -> JSString) (numbers : list A) :
  ((length numbers <= 10)%nat ->
   formatNumbers ToString numbers
   = join (lit ", ") (List.map ToString numbers))
  /\ ((10 < length numbers)%nat ->
      formatNumbers ToString numbers
      = join (lit ", ") (List.map ToString (firstn 5 numbers))
        ++ lit " ... "
        ++ join (lit ", ")
             (List.map ToString (skipn (length numbers - 5) numbers))).
Proof.
  unfold formatNumbers, joinWith. split; intros H.
  - assert (E : (Z.of_nat (length numbers) <=? 10) = true) by (apply Z.leb_le; lia).
    rewrite E. reflexivity.
  - assert (E : (Z.of_nat (length numbers) <=? 10) = false) by (apply Z.leb_gt; lia).
    rewrite E, (slice_prefix numbers 5) by lia.
    change (-5) with (Z.opp 5).
    rewrite (slice_suffix numbers 5) by lia. reflexivity.
Qed.

Lemma C10_witness :
  formatNumbers toString (List.map Finite [3; 1; 2])
  = lit "3, 1, 2"
  /\ formatNumbers toString (List.map Finite [1; 2; 3; 4; 5; 6; 7; 8; 9; 10; 11; 12])
     = lit "1, 2, 3, 4, 5 ... 8, 9, 10, 11, 12".
Proof.
  split.
  - rewrite (proj1 (C10_formatNumbers_elides_the_middle _ toString
                      (List.map Finite [3; 1; 2]))).
    + vm_compute. reflexivity.
    + simpl. lia.
  - rewrite (proj2 (C10_formatNumbers_elides_the_middle _ toString
                      (List.map Finite [1; 2; 3; 4; 5; 6; 7; 8; 9; 10; 11; 12]))).
    + vm_compute. reflexivity.
    + simpl. lia.
Defined.
(** * Further properties of [validateNumberInput] and [formatNumbers] *)

Lemma fields_app_delimiter a : forall cur d b,
  isDelimiter d = true ->
  fields cur (a ++ d :: b) = fields cur a ++ fields [] b.
Proof.
  induction a as [|c a IH]; intros cur d b Hd; cbn [app fields].
  - rewrite Hd. destruct cur; reflexivity.
  - destruct (isDelimiter c).
    + destruct cur; rewrite IH by exact Hd; reflexivity.
    + apply IH, Hd.
Qed.

Lemma fields_token t : forall cur,
  forallb (fun c => negb (isDelimiter c)) t = true ->
  fields cur t = match rev cur ++ t with [] => [] | x => [x] end.
Proof.
  induction t as [|c t IH]; intros cur H; cbn [fields].
  - rewrite app_nil_r. destruct cur as [|x cur]; [reflexivity|].
    cbn [rev]. destruct (rev cur); reflexivity.
  - cbn [forallb] in H. apply andb_prop in H as [Hc Ht].
    apply negb_true_iff in Hc. rewrite Hc, IH by exact Ht.
    cbn [rev]. rewrite <- app_assoc. reflexivity.
Qed.

Lemma tokens_token t : isToken t = true -> tokens t = [t].
Proof.
  unfold isToken, tokens. intros H. apply andb_prop in H as [Hn Hf].
  rewrite fields_token by exact Hf. cbn [rev app].
  destruct t; [discriminate | reflexivity].
Qed.

Lemma tokens_app_delimiter a d b :
  isDelimiter d = true -> tokens (a ++ d :: b) = tokens a ++ tokens b.
Proof. apply fields_app_delimiter. Qed.

Lemma tokens_join d sep toks :
  isDelimiter d = true -> forallb isDelimiter sep = true ->
  Forall (fun t => isToken t = true) toks ->
  tokens (join (d :: sep) toks) = toks.
Proof.
  intros Hd Hsep. induction 1 as [|t toks Ht Hall IH]; [reflexivity|].
  destruct toks as [|u toks].
  - apply tokens_token, Ht.
  - change (join (d :: sep) (t :: u :: toks))
      with (t ++ d :: (sep ++ join (d :: sep) (u :: toks))).
    rewrite tokens_app_delimiter by exact Hd.
    rewrite tokens_token by exact Ht.
    unfold tokens at 1. rewrite fields_skip_front by exact Hsep.
    fold (tokens (join (d :: sep) (u :: toks))). rewrite IH. reflexivity.
Qed.

Lemma blank_tokens input : blank input = true -> tokens input = [].
Proof. intros B. apply fields_delimiters_nil, blank_delimiters, B. Qed.

Lemma tokens_not_blank input : tokens input <> [] -> blank input = false.
Proof.
  intros H. destruct (blank input) eqn:B; [|reflexivity].
  destruct H. apply blank_tokens, B.
Qed.

(** ** Printing a number and reading it back *)

Lemma lit_String c s : lit (String c s) = N_of_ascii c :: lit s.
Proof. reflexivity. Qed.

Lemma takeDigits_uint d :
  takeDigits 10 (lit (NilEmpty.string_of_uint d)) = digitsOf d.
Proof.
  induction d; cbn [NilEmpty.string_of_uint digitsOf];
    [reflexivity | rewrite lit_String; cbn [takeDigits] ..];
    match goal with
    | |- context [digitValue 10 ?c] =>
        let v := eval vm_compute in (digitValue 10 c) in
        change (digitValue 10 c) with v
    end; rewrite IHd; reflexivity.
Qed.

Lemma of_uint_acc_digits d : forall acc,
  Z.pos (Pos.of_uint_acc d acc)
  = fold_left (fun a x => a * 10 + x) (digitsOf d) (Z.pos acc).
Proof.
  induction d; intros acc; cbn [Pos.of_uint_acc digitsOf fold_left];
    [reflexivity | rewrite IHd; f_equal; lia ..].
Qed.

Lemma of_uint_digits d : Z.of_N (N.of_uint d) = mathInt 10 (digitsOf d).
Proof.
  unfold N.of_uint, mathInt.
  induction d; cbn [Pos.of_uint digitsOf fold_left];
    [reflexivity | exact IHd | cbn [Z.of_N]; rewrite of_uint_acc_digits; reflexivity ..].
Qed.

Lemma mathInt_decimal n :
  0 <= n -> mathInt 10 (takeDigits 10 (decimal n)) = n.
Proof.
  intros H. unfold decimal. rewrite takeDigits_uint, <- of_uint_digits.
  rewrite DecimalN.Unsigned.of_to. apply Z2N.id, H.
Qed.

Lemma decimal_cons n : exists c s, decimal n = c :: s /\ isDecimalDigit c = true.
Proof.
  pose proof (decimal_digits n) as H.
  destruct (decimal n) as [|c s] eqn:E.
  - exfalso. unfold decimal in E.
    assert (L : lit (NilEmpty.string_of_uint (N.to_uint (Z.to_N n))) <> []).
    { destruct (Z.to_N n) as [|p]; [discriminate|].
      cbn [N.to_uint]. pose proof (DecimalPos.Unsigned.to_uint_nonnil p) as Hn.
      destruct (Pos.to_uint p); [destruct Hn; reflexivity | discriminate ..]. }
    exact (L E).
  - exists c, s. split; [reflexivity|]. inversion H; assumption.
Qed.

Lemma digit_cases c :
  isDecimalDigit c = true ->
  isWhiteSpace c = false /\ isDelimiter c = false
  /\ (c =? PLUS)%N = false /\ (c =? MINUS)%N = false
  /\ (c =? 120)%N = false /\ (c =? 88)%N = false.
Proof.
  unfold isDecimalDigit. intros H. apply andb_prop in H as [H1 H2].
  apply N.leb_le in H1, H2.
  assert (E : (c = 48 \/ c = 49 \/ c = 50 \/ c = 51 \/ c = 52 \/ c = 53
               \/ c = 54 \/ c = 55 \/ c = 56 \/ c = 57)%N) by lia.
  repeat (destruct E as [-> | E]; [repeat split; reflexivity|]).
  subst c. repeat split; reflexivity.
Qed.

Lemma parseInt_numeral s :
  s <> [] -> Forall (fun c => isDecimalDigit c = true) s ->
  parseInt s = roundToDouble (mathInt 10 (takeDigits 10 s)).
Proof.
  intros Hs Hd. destruct s as [|c0 s]; [congruence|].
  inversion Hd as [|? ? H0 Hs']; subst.
  destruct (digit_cases _ H0) as (W0 & _ & P0 & M0 & _ & _).
  unfold parseInt. cbn [trimStart]. rewrite W0, M0, P0. cbn [orb].
  assert (T : takeDigits 10 (c0 :: s) <> []).
  { intros E. apply takeDigits_nil, digitValue_decimal in E. congruence. }
  assert (R : (let '(R, s0) :=
                 match c0 :: s with
                 | c0 :: c1 :: rest =>
                     if ((c0 =? 48) && ((c1 =? 120) || (c1 =? 88)))%N
                     then (16, rest) else (10, c0 :: s)
                 | _ => (10, c0 :: s)
                 end in
               match takeDigits R s0 with
               | [] => NaN
               | ds => roundToDouble (1 * mathInt R ds)
               end)
              = match takeDigits 10 (c0 :: s) with
                | [] => NaN
                | ds => roundToDouble (1 * mathInt 10 ds)
                end).
  { destruct s as [|c1 s]; [reflexivity|].
    inversion Hs' as [|? ? H1 _]; subst.
    destruct (digit_cases _ H1) as (_ & _ & _ & _ & X1 & X2).
    rewrite X1, X2, andb_false_r. reflexivity. }
  etransitivity; [exact R|].
  destruct (takeDigits 10 (c0 :: s)) as [|d ds]; [congruence|].
  rewrite Z.mul_1_l. reflexivity.
Qed.

Lemma parseInt_decimal n : 0 <= n -> parseInt (decimal n) = roundToDouble n.
Proof.
  intros H. rewrite parseInt_numeral.
  - rewrite mathInt_decimal by exact H. reflexivity.
  - destruct (decimal_cons n) as (c & s & -> & _). discriminate.
  - apply decimal_digits.
Qed.

Lemma isToken_decimal n : isToken (decimal n) = true.
Proof.
  unfold isToken. destruct (decimal_cons n) as (c & s & E & _).
  pose proof (decimal_digits n) as H. rewrite E in *.
  cbn [truthy andb]. apply forallb_forall. intros x Hx.
  rewrite List.Forall_forall in H. apply H in Hx.
  destruct (digit_cases _ Hx) as (_ & D & _). rewrite D. reflexivity.
Qed.

Lemma tokens_are_tokens input : Forall (fun t => isToken t = true) (tokens input).
Proof.
  destruct (fields_sound input [] eq_refl) as [H _].
  eapply List.Forall_impl; [|exact H].
  intros t [Ht Hf]. unfold isToken. rewrite Hf.
  destruct t; [congruence | reflexivity].
Qed.

Lemma validate_tokens input1 input2 :
  blank input1 = blank input2 -> tokens input1 = tokens input2 ->
  validateNumberInput input1 = validateNumberInput input2.
Proof. intros B T. rewrite !validate_verdicts, B, T. reflexivity. Qed.

Lemma errors_nil_iff toks :
  omap tokenError toks = []
  <-> Forall (fun tok => isIntegerIn 1 1000 (parseInt tok)) toks.
Proof.
  split; [|apply omap_error_nil].
  intros E. pose proof (omap_number_range toks) as R.
  rewrite (no_errors_all_numbers _ E) in R.
  apply (proj1 (List.Forall_map _ _ _)) in R. exact R.
Qed.

Lemma toString_in_range num :
  isIntegerIn 1 1000 num ->
  exists n, num = Finite n /\ 1 <= n <= 1000 /\ toString num = decimal n.
Proof.
  intros (n & -> & Hn). exists n. split; [reflexivity|]. split; [exact Hn|].
  rewrite toString_exact by (change (2 ^ 53) with 9007199254740992; lia).
  destruct (Z.ltb_spec n 0); [lia | reflexivity].
Qed.

Lemma printed_tokens nums :
  Forall (isIntegerIn 1 1000) nums ->
  Forall (fun t => isToken t = true) (List.map toString nums)
  /\ List.map parseInt (List.map toString nums) = nums.
Proof.
  induction 1 as [|num nums H _ [IH1 IH2]]; [split; constructor|].
  destruct (toString_in_range _ H) as (n & -> & Hn & E).
  cbn [List.map]. rewrite E. split.
  - constructor; [apply isToken_decimal | exact IH1].
  - rewrite IH2, parseInt_decimal by lia.
    rewrite roundToDouble_small
      by (change (2 ^ 53) with 9007199254740992; lia).
    reflexivity.
Qed.

Lemma verdicts_in_range toks :
  Forall (fun tok => isIntegerIn 1 1000 (parseInt tok)) toks ->
  omap tokenError toks = [] /\ omap tokenNumber toks = List.map parseInt toks.
Proof.
  intros H. pose proof (omap_error_nil _ H) as E.
  split; [exact E | apply no_errors_all_numbers, E].
Qed.

Lemma validate_numerals input nums :
  blank input = false ->
  List.map parseInt (tokens input) = nums ->
  Forall (isIntegerIn 1 1000) nums ->
  validateNumberInput input
  = if (25 <? length nums)%nat then truncatedResult nums else validResult nums.
Proof.
  intros B E H. rewrite validate_verdicts, B.
  assert (F : Forall (fun tok => isIntegerIn 1 1000 (parseInt tok)) (tokens input)).
  { apply (proj1 (List.Forall_map parseInt (isIntegerIn 1 1000) _)). rewrite E. exact H. }
  destruct (verdicts_in_range _ F) as [-> ->]. rewrite E. reflexivity.
Qed.

Lemma printed_reads_back nums :
  nums <> [] -> Forall (isIntegerIn 1 1000) nums ->
  blank (printed nums) = false
  /\ tokens (printed nums) = List.map toString nums.
Proof.
  intros Hn H. destruct (printed_tokens _ H) as [T _].
  assert (E : tokens (printed nums) = List.map toString nums).
  { unfold printed, joinWith. change (lit ", ") with (COMMA :: [SPACE]).
    apply tokens_join; [reflexivity | reflexivity | exact T]. }
  split; [|exact E]. apply tokens_not_blank. rewrite E.
  destruct nums; [congruence | discriminate].
Qed.

Lemma message_not_empty tok m : tokenError tok = Some m -> m <> [].
Proof.
  unfold tokenError, notANumber, outOfRange.
  destruct (isNaN (parseInt tok)); [intros [= <-]; discriminate|].
  destruct (inRange (parseInt tok)); [discriminate|].
  intros [= <-]. destruct (toString (parseInt tok)); discriminate.
Qed.

Lemma join_not_empty sep m ms : m <> [] -> join sep (m :: ms) <> [].
Proof.
  intros H. destruct m as [|c m]; [congruence|].
  destruct ms; discriminate.
Qed.

Lemma omap_error_head toks m ms :
  omap tokenError toks = m :: ms -> m <> [].
Proof.
  induction toks as [|tok toks IH]; [discriminate|].
  cbn [omap list_omap]. destruct (tokenError tok) as [m'|] eqn:E.
  - intros [= <- _]. exact (message_not_empty _ _ E).
  - exact IH.
Qed.

(** X1. The object that [validateNumberInput] returns has an [error]
    exactly when it is not valid and a [message] exactly when it is valid; an
    invalid result has no [numbers] property, a valid one has [null] or an
    array, and an [error] is never the empty string. *)
Theorem result_carries_error_or_message (input : JSString) :
  (valid (validateNumberInput input) = false
   <-> exists e, error (validateNumberInput input) = Some e)
  /\ (valid (validateNumberInput input) = true
      <-> exists m, message (validateNumberInput input) = Some m)
  /\ (valid (validateNumberInput input) = false
      <-> numbers (validateNumberInput input) = NumbersUndefined)
  /\ error (validateNumberInput input) <> Some [].
Proof.
  rewrite validate_verdicts.
  destruct (blank input).
  { cbn. repeat split; try discriminate; try (intros [? ?]; discriminate); eauto. }
  destruct (omap tokenError (tokens input)) as [|m ms] eqn:E.
  - cbv zeta.
    destruct (25 <? length (omap tokenNumber (tokens input)))%nat; cbn;
      (split; [split; [discriminate | intros [? ?]; discriminate]|]);
      (split; [split; eauto|]); (split; [split; discriminate | discriminate]).
  - cbn [errorResult valid error message numbers].
    split; [split; eauto|].
    split; [split; [discriminate | intros [? ?]; discriminate]|].
    split; [split; reflexivity|].
    intros [= H]. apply (join_not_empty (lit ", ") m ms); [|exact H].
    exact (omap_error_head _ _ _ E).
Qed.

Lemma delimiters_only input :
  tokens input = [] <-> forallb isDelimiter input = true.
Proof.
  split; [|apply fields_delimiters_nil].
  intros E. destruct (fields_sound input [] eq_refl) as [_ H].
  unfold tokens in E. rewrite E in H. cbn in H.
  apply forallb_forall. intros c Hc.
  destruct (isDelimiter c) eqn:D; [reflexivity|].
  assert (In c (List.filter (fun c => negb (isDelimiter c)) input)).
  { apply filter_In. rewrite D. split; [exact Hc | reflexivity]. }
  rewrite <- H in *. contradiction.
Qed.

(** X2. An input made of commas and white space with at least one comma is
    not the blank case: it is accepted with an empty array, not with
    [null], and its message lists nothing. No other input gives an empty
    array. *)
Theorem only_delimiters_give_an_empty_array (input : JSString) :
  (blank input = false /\ forallb isDelimiter input = true ->
   validateNumberInput input
   = mkResult true (NumbersArray []) (Some (lit "Valid numbers: ")) None)
  /\ (numbers (validateNumberInput input) = NumbersArray [] ->
      blank input = false /\ forallb isDelimiter input = true).
Proof.
  rewrite validate_verdicts. split.
  - intros [B D]. rewrite B. apply delimiters_only in D. rewrite D. reflexivity.
  - destruct (blank input); [discriminate|]. intros H.
    split; [reflexivity|]. apply delimiters_only.
    destruct (omap tokenError (tokens input)) as [|m ms] eqn:E; [|discriminate].
    rewrite (no_errors_all_numbers _ E) in H. cbv zeta in H.
    rewrite length_map in H.
    destruct (25 <? length (tokens input))%nat eqn:L;
      cbn [numbers truncatedResult validResult] in H.
    + apply Nat.ltb_lt in L. injection H as H.
      apply (f_equal (@length _)) in H.
      rewrite length_firstn, length_map in H. cbn [length] in H. lia.
    + injection H as H. destruct (tokens input); [reflexivity | discriminate].
Qed.

Lemma only_delimiters_witness :
  validateNumberInput (lit " , ,")
  = mkResult true (NumbersArray []) (Some (lit "Valid numbers: ")) None.
Proof.
  apply (proj1 (only_delimiters_give_an_empty_array (lit " , ,"))).
  split; reflexivity.
Defined.

(** X3. Only the tokens matter. For an input that has a token, or that is
    blank, writing its tokens again with any separator made of commas and
    white space, [", "] or one space for instance, gives an input with the
    same tokens and the same result. The one exception is an input of commas
    and white space that holds a comma: it has no token, so that it is
    written again as the empty string, which gives [null] where the input
    itself gives an empty array. *)
Theorem result_depends_on_tokens_only (input : JSString) (d : code_unit) (sep : JSString) :
  isDelimiter d = true -> forallb isDelimiter sep = true ->
  tokens (join (d :: sep) (tokens input)) = tokens input
  /\ (tokens input <> [] \/ blank input = true ->
      validateNumberInput (join (d :: sep) (tokens input))
      = validateNumberInput input)
  /\ (tokens input = [] -> blank input = false ->
      validateNumberInput (join (d :: sep) (tokens input))
      = mkResult true NumbersNull
          (Some (lit "Empty input - will use random numbers")) None
      /\ validateNumberInput input
         = mkResult true (NumbersArray []) (Some (lit "Valid numbers: ")) None).
Proof.
  intros Hd Hsep.
  assert (E : tokens (join (d :: sep) (tokens input)) = tokens input).
  { apply tokens_join; [exact Hd | exact Hsep | apply tokens_are_tokens]. }
  split; [exact E|]. split.
  - intros [Hn|B].
    + apply validate_tokens; [|exact E].
      rewrite !tokens_not_blank; [reflexivity | exact Hn | rewrite E; exact Hn].
    + rewrite (blank_tokens _ B). cbn [join].
      rewrite !validate_verdicts, B. reflexivity.
  - intros Hn B. rewrite Hn. cbn [join]. split; [reflexivity|].
    rewrite validate_verdicts, B, Hn. reflexivity.
Qed.

Lemma result_depends_on_tokens_only_witness :
  validateNumberInput (lit "4, 8, 15")
  = validateNumberInput ([9%N] ++ lit ",4 ,,8" ++ [10%N] ++ lit "15, ").
Proof.
  destruct (result_depends_on_tokens_only
              ([9%N] ++ lit ",4 ,,8" ++ [10%N] ++ lit "15, ")
              COMMA [SPACE] eq_refl eq_refl) as (_ & H & _).
  rewrite <- H; [reflexivity|]. left. discriminate.
Defined.

Lemma valid_no_errors input :
  valid (validateNumberInput input)
  = match omap tokenError (tokens input) with [] => true | _ => false end.
Proof.
  rewrite validate_verdicts. destruct (blank input) eqn:B.
  - rewrite (blank_tokens _ B). reflexivity.
  - destruct (omap tokenError (tokens input)); [|reflexivity].
    cbv zeta. destruct (25 <? _)%nat; reflexivity.
Qed.

(** X4. Two inputs written one after the other with a comma or a white
    space between them are read as the tokens of the first followed by the
    tokens of the second. The whole is valid exactly when both parts are, and
    its error messages are those of the first part followed by those of the
    second. *)
Theorem inputs_compose (a b : JSString) (d : code_unit) :
  isDelimiter d = true ->
  tokens (a ++ d :: b) = tokens a ++ tokens b
  /\ omap tokenError (tokens (a ++ d :: b))
     = omap tokenError (tokens a) ++ omap tokenError (tokens b)
  /\ valid (validateNumberInput (a ++ d :: b))
     = valid (validateNumberInput a) && valid (validateNumberInput b).
Proof.
  intros Hd. pose proof (tokens_app_delimiter a d b Hd) as E.
  split; [exact E|]. rewrite !valid_no_errors, E, omap_app.
  split; [reflexivity|].
  destruct (omap tokenError (tokens a)); [|reflexivity].
  destruct (omap tokenError (tokens b)); reflexivity.
Qed.

Lemma inputs_compose_witness :
  validateNumberInput (lit "3 x" ++ COMMA :: lit "7 0")
  = mkResult false NumbersUndefined None
      (Some (DQUOTE :: lit "x" ++ DQUOTE
             :: lit " is not a number, 0 is out of range (1-1000)")).
Proof.
  destruct (inputs_compose (lit "3 x") (lit "7 0") COMMA eq_refl) as (_ & E & _).
  rewrite validate_errors; [rewrite E; reflexivity | reflexivity |].
  rewrite E. discriminate.
Defined.

(** X5. A list of integers between 1 and 1000 that is printed with
    [join(', ')], the way the messages and [formatNumbers] print a list,
    is read back as the same list: whole when it has at most 25 elements,
    cut to its first 25 otherwise. *)
Theorem printed_list_reads_back (nums : list Number) :
  nums <> [] -> Forall (isIntegerIn 1 1000) nums ->
  validateNumberInput (printed nums)
  = if (25 <? length nums)%nat then truncatedResult nums else validResult nums.
Proof.
  intros Hn H. destruct (printed_reads_back _ Hn H) as [B T].
  apply validate_numerals; [exact B | | exact H].
  rewrite T. apply printed_tokens, H.
Qed.

Lemma printed_list_reads_back_witness :
  validateNumberInput (printed [Finite 1000; Finite 1; Finite 37])
  = validResult [Finite 1000; Finite 1; Finite 37].
Proof.
  apply (printed_list_reads_back [Finite 1000; Finite 1; Finite 37]).
  - discriminate.
  - repeat (apply List.Forall_cons; [eexists; split; [reflexivity | lia] |]).
    apply List.Forall_nil.
Defined.

(** X6. Validation is idempotent on what it accepts. The array of a valid
    result, printed as its message prints it, is accepted again with the
    same array, whole. The empty array is the exception: it prints as the
    empty string, which is the blank case. *)
Theorem accepted_numbers_are_accepted_again (input : JSString) (a : list Number) :
  valid (validateNumberInput input) = true ->
  numbers (validateNumberInput input) = NumbersArray a ->
  validateNumberInput (printed a)
  = match a with [] => emptyResult | _ => validResult a end.
Proof.
  rewrite validate_verdicts.
  destruct (blank input); [discriminate|].
  destruct (omap tokenError (tokens input)); [|discriminate].
  cbv zeta. pose proof (omap_number_range (tokens input)) as Hr.
  set (nums := omap tokenNumber (tokens input)) in *. clearbody nums.
  assert (K : forall l : list Number,
             (length l <= 25)%nat -> Forall (isIntegerIn 1 1000) l ->
             validateNumberInput (printed l)
             = match l with [] => emptyResult | _ => validResult l end).
  { intros l Hl Hf. destruct l as [|x l]; [reflexivity|].
    rewrite validate_numerals with (nums := x :: l).
    - destruct (Nat.ltb_spec 25 (length (x :: l))); [lia | reflexivity].
    - apply printed_reads_back; [discriminate | exact Hf].
    - destruct (printed_reads_back (x :: l)) as [_ ->]; [discriminate | exact Hf |].
      apply printed_tokens, Hf.
    - exact Hf. }
  destruct (25 <? length nums)%nat eqn:E;
    cbn [valid numbers truncatedResult validResult]; intros _ [= <-]; apply K.
  - rewrite length_firstn. lia.
  - apply Forall_take, Hr.
  - apply Nat.ltb_ge in E. exact E.
  - exact Hr.
Qed.

Lemma accepted_numbers_are_accepted_again_witness :
  validateNumberInput (printed [Finite 12; Finite 31; Finite 3])
  = validResult [Finite 12; Finite 31; Finite 3].
Proof.
  apply (accepted_numbers_are_accepted_again (lit "12abc,0x1F 3.7"));
    vm_compute; reflexivity.
Defined.

(** X7. An input is valid exactly when each of its tokens reads, through
    [parseInt], as an integer between 1 and 1000. A blank input has no
    tokens and is valid. *)
Theorem valid_iff_every_token_in_range (input : JSString) :
  valid (validateNumberInput input) = true
  <-> Forall (fun token => isIntegerIn 1 1000 (parseInt token)) (tokens input).
Proof.
  rewrite valid_no_errors, <- errors_nil_iff.
  destruct (omap tokenError (tokens input)); split; congruence.
Qed.

(** X8. A valid result lists what its tokens read as, in input order and
    at most 25 of them: when an input that is not blank is valid, its
    [numbers] are the values [parseInt] gives for the first 25 tokens. *)
Theorem valid_numbers_are_the_token_values (input : JSString) :
  blank input = false ->
  valid (validateNumberInput input) = true ->
  numbers (validateNumberInput input)
  = NumbersArray (firstn 25 (List.map parseInt (tokens input))).
Proof.
  intros B. rewrite validate_verdicts, B.
  destruct (omap tokenError (tokens input)) as [|m ms] eqn:E; [|discriminate].
  intros _. rewrite (no_errors_all_numbers _ E). cbv zeta.
  destruct (Nat.ltb_spec 25 (length (List.map parseInt (tokens input)))) as [L|L];
    cbn [numbers truncatedResult validResult]; [reflexivity|].
  rewrite firstn_all2 by exact L. reflexivity.
Qed.

Lemma valid_numbers_witness :
  numbers (validateNumberInput (lit "7,0x10 ,9.5"))
  = NumbersArray [Finite 7; Finite 16; Finite 9].
Proof.
  rewrite (valid_numbers_are_the_token_values (lit "7,0x10 ,9.5"));
    vm_compute; reflexivity.
Defined.

Lemma formatNumbers_long {A} (ToString : A -> JSString) (a : list A) :
  (10 < length a)%nat ->
  formatNumbers ToString a
  = join (lit ", ") (List.map ToString (firstn 5 a))
    ++ lit " ... "
    ++ join (lit ", ") (List.map ToString (skipn (length a - 5) a)).
Proof.
  intros H. unfold formatNumbers, joinWith.
  assert (E : (Z.of_nat (length a) <=? 10) = false) by (apply Z.leb_gt; lia).
  rewrite E, (slice_prefix a 5) by lia.
  change (-5) with (Z.opp 5).
  rewrite (slice_suffix a 5) by lia. reflexivity.
Qed.

Lemma formatNumbers_short {A} (ToString : A -> JSString) (a : list A) :
  (length a <= 10)%nat ->
  formatNumbers ToString a = join (lit ", ") (List.map ToString a).
Proof.
  intros H. unfold formatNumbers, joinWith.
  assert (E : (Z.of_nat (length a) <=? 10) = true) by (apply Z.leb_le; lia).
  rewrite E. reflexivity.
Qed.

(** X9. What [formatNumbers] prints is a valid input only for short lists.
    For one to ten integers between 1 and 1000 the text is read back as the
    same list. For more than ten the text holds the token [...], and
    [validateNumberInput] rejects it with exactly one message, ["..." is not
    a number]. *)
Theorem formatNumbers_reads_back_up_to_ten (nums : list Number) :
  nums <> [] -> Forall (isIntegerIn 1 1000) nums ->
  validateNumberInput (formatNumbers toString nums)
  = if (10 <? length nums)%nat
    then mkResult false NumbersUndefined None
           (Some (DQUOTE :: lit "..." ++ DQUOTE :: lit " is not a number"))
    else mkResult true (NumbersArray nums)
           (Some (lit "Valid numbers: "
                  ++ join (lit ", ") (List.map toString nums))) None.
Proof.
  intros Hn H. destruct (Nat.ltb_spec 10 (length nums)) as [L|L].
  - rewrite (formatNumbers_long toString nums L).
    set (front := firstn 5 nums). set (back := skipn (length nums - 5) nums).
    assert (Hf : Forall (isIntegerIn 1 1000) front) by (apply Forall_take, H).
    assert (Hb : Forall (isIntegerIn 1 1000) back) by (apply Forall_drop, H).
    assert (Nf : front <> []).
    { intros E. apply (f_equal (@length _)) in E. unfold front in E.
      rewrite length_firstn in E. cbn [length] in E. lia. }
    assert (Nb : back <> []).
    { intros E. apply (f_equal (@length _)) in E. unfold back in E.
      rewrite length_skipn in E. cbn [length] in E. lia. }
    destruct (printed_reads_back _ Nf Hf) as [_ Tf].
    destruct (printed_reads_back _ Nb Hb) as [_ Tb].
    unfold printed, joinWith in Tf, Tb.
    assert (T : tokens (join (lit ", ") (List.map toString front)
                        ++ lit " ... "
                        ++ join (lit ", ") (List.map toString back))
                = List.map toString front ++ [lit "..."] ++ List.map toString back).
    { change (lit " ... " ++ join (lit ", ") (List.map toString back))
        with (SPACE :: (lit "..." ++ SPACE :: join (lit ", ") (List.map toString back))).
      rewrite tokens_app_delimiter by reflexivity.
      rewrite (tokens_app_delimiter (lit "...")) by reflexivity.
      rewrite Tf, Tb. reflexivity. }
    destruct (printed_tokens _ Hf) as [_ Pf].
    destruct (printed_tokens _ Hb) as [_ Pb].
    assert (Ff : Forall (fun tok => isIntegerIn 1 1000 (parseInt tok))
                   (List.map toString front)).
    { apply (proj1 (List.Forall_map parseInt (isIntegerIn 1 1000) _)).
      rewrite Pf. exact Hf. }
    assert (Fb : Forall (fun tok => isIntegerIn 1 1000 (parseInt tok))
                   (List.map toString back)).
    { apply (proj1 (List.Forall_map parseInt (isIntegerIn 1 1000) _)).
      rewrite Pb. exact Hb. }
    assert (E : omap tokenError
                  (List.map toString front ++ [lit "..."] ++ List.map toString back)
                = [notANumber (lit "...")]).
    { rewrite !omap_app, (omap_error_nil _ Ff), (omap_error_nil _ Fb).
      reflexivity. }
    rewrite validate_errors.
    + rewrite T, E. reflexivity.
    + apply tokens_not_blank. rewrite T.
      destruct (List.map toString front); discriminate.
    + rewrite T, E. discriminate.
  - rewrite (formatNumbers_short toString nums L).
    change (join (lit ", ") (List.map toString nums)) with (printed nums).
    destruct (printed_reads_back _ Hn H) as [B T].
    rewrite (validate_numerals (printed nums) nums B); [| |exact H].
    + destruct (Nat.ltb_spec 25 (length nums)); [lia | reflexivity].
    + rewrite T. apply printed_tokens, H.
Qed.

Lemma formatNumbers_reads_back_witness :
  validateNumberInput
    (formatNumbers toString
       (List.map Finite [1; 2; 3; 4; 5; 6; 7; 8; 9; 10; 11; 12]))
  = mkResult false NumbersUndefined None
      (Some (DQUOTE :: lit "..." ++ DQUOTE :: lit " is not a number")).
Proof.
  apply (formatNumbers_reads_back_up_to_ten
           (List.map Finite [1; 2; 3; 4; 5; 6; 7; 8; 9; 10; 11; 12])).
  - discriminate.
  - repeat (apply List.Forall_cons; [eexists; split; [reflexivity | lia] |]).
    apply List.Forall_nil.
Defined.

(** ** Signs and very large numerals *)

Lemma digitValue_nonneg R c v : digitValue R c = Some v -> 0 <= v < R.
Proof.
  unfold digitValue.
  set (x := Z.of_N c).
  set (v' := if (48 <=? x) && (x <=? 57) then x - 48
             else if (97 <=? x) && (x <=? 122) then x - 97 + 10
             else if (65 <=? x) && (x <=? 90) then x - 65 + 10
             else R).
  assert (H : 0 <= v' \/ v' = R).
  { unfold v'.
    destruct ((48 <=? x) && (x <=? 57)) eqn:E1;
      [apply andb_prop in E1 as [E1 _]; apply Z.leb_le in E1; lia|].
    destruct ((97 <=? x) && (x <=? 122)) eqn:E2;
      [apply andb_prop in E2 as [E2 _]; apply Z.leb_le in E2; lia|].
    destruct ((65 <=? x) && (x <=? 90)) eqn:E3;
      [apply andb_prop in E3 as [E3 _]; apply Z.leb_le in E3; lia|].
    right. reflexivity. }
  clearbody v'. destruct (Z.ltb_spec v' R); [|discriminate].
  intros [= <-]. lia.
Qed.

Lemma mathInt_nonneg R s : 0 <= R -> 0 <= mathInt R (takeDigits R s).
Proof.
  intros HR. unfold mathInt.
  assert (G : forall ds acc, Forall (fun d => 0 <= d) ds -> 0 <= acc ->
                0 <= fold_left (fun acc d => acc * R + d) ds acc).
  { induction ds as [|d ds IH]; intros acc Hd Hacc; [exact Hacc|].
    inversion Hd; subst. cbn [fold_left]. apply IH; [assumption | nia]. }
  apply G; [|lia].
  induction s as [|c s IH]; cbn [takeDigits]; [constructor|].
  destruct (digitValue R c) as [v|] eqn:E; [|constructor].
  constructor; [apply digitValue_nonneg in E; lia | exact IH].
Qed.

Lemma roundToDouble_nonpos z : z <= 0 -> lessThan (roundToDouble z) 1 = true.
Proof.
  intros Hz. unfold roundToDouble. cbv zeta.
  destruct (Z.leb_spec (Z.abs z) (2 ^ 53)) as [_|Hbig];
    [cbn [lessThan]; apply Z.ltb_lt; lia|].
  assert (Hneg : z < 0) by (pose proof (Z.pow_pos_nonneg 2 53); lia).
  set (e := Z.log2 (Z.abs z) - 52).
  set (q := Z.shiftr (Z.abs z) e).
  set (q' := if Z.land (Z.abs z) (Z.ones e) <? 2 ^ (e - 1) then q
             else if 2 ^ (e - 1) <? Z.land (Z.abs z) (Z.ones e) then q + 1
             else if Z.even q then q else q + 1).
  assert (Hq : 0 <= q) by (apply Z.shiftr_nonneg; lia).
  assert (Hq' : 0 <= q').
  { unfold q'. repeat match goal with |- context [if ?b then _ else _] => destruct b end; lia. }
  assert (He : 0 <= 2 ^ e) by (apply Z.pow_nonneg; lia).
  destruct (2 ^ 1024 <=? q' * 2 ^ e).
  - cbn [lessThan]. apply Z.ltb_lt. exact Hneg.
  - cbn [lessThan]. apply Z.ltb_lt.
    rewrite (Z.sgn_neg z) by exact Hneg. nia.
Qed.

Lemma parseInt_minus rest :
  parseInt (MINUS :: rest) = NaN
  \/ lessThan (parseInt (MINUS :: rest)) 1 = true.
Proof.
  unfold parseInt.
  change (trimStart (MINUS :: rest)) with (MINUS :: rest).
  cbv beta iota zeta.
  change ((MINUS =? MINUS)%N) with true.
  change ((MINUS =? PLUS)%N) with false. cbn [orb].
  assert (G : forall R s, 0 <= R ->
             match takeDigits R s with
             | [] => NaN
             | ds => roundToDouble (-1 * mathInt R ds)
             end = NaN
             \/ lessThan match takeDigits R s with
                         | [] => NaN
                         | ds => roundToDouble (-1 * mathInt R ds)
                         end 1 = true).
  { intros R s HR. pose proof (mathInt_nonneg R s HR) as Hm.
    destruct (takeDigits R s) as [|d ds]; [left; reflexivity|].
    right. apply roundToDouble_nonpos. lia. }
  destruct rest as [|c0 [|c1 r]]; [apply G; lia | apply G; lia |].
  destruct ((c0 =? 48) && ((c1 =? 120) || (c1 =? 88)))%N; apply G; lia.
Qed.

Lemma tokenError_minus rest : tokenError (MINUS :: rest) <> None.
Proof.
  unfold tokenError, inRange.
  destruct (parseInt_minus rest) as [-> | H]; [discriminate|].
  destruct (isNaN (parseInt (MINUS :: rest))); [discriminate|].
  rewrite H. discriminate.
Qed.

(** X10. A token that begins with a minus sign is never accepted: either
    [parseInt] gives [NaN] for it, or it gives a value below 1, zero
    included. An input that holds such a token is not valid. *)
Theorem minus_sign_is_never_accepted (input rest : JSString) :
  In (MINUS :: rest) (tokens input) ->
  (parseInt (MINUS :: rest) = NaN
   \/ lessThan (parseInt (MINUS :: rest)) 1 = true)
  /\ tokenNumber (MINUS :: rest) = None
  /\ valid (validateNumberInput input) = false.
Proof.
  intros Hin. split; [apply parseInt_minus|]. split.
  - destruct (verdict_exclusive (MINUS :: rest)) as [(n & _ & E) | [E _]];
      [destruct (tokenError_minus rest E) | exact E].
  - rewrite valid_no_errors.
    pose proof (errors_present _ _ Hin (tokenError_minus rest)) as H.
    destruct (omap tokenError (tokens input)); [congruence | reflexivity].
Qed.

Lemma minus_sign_witness :
  valid (validateNumberInput (lit "5 -0 7")) = false.
Proof.
  apply (minus_sign_is_never_accepted (lit "5 -0 7") (lit "0")).
  vm_compute. right. left. reflexivity.
Defined.

Lemma roundToDouble_overflow n : 2 ^ 1024 <= n -> roundToDouble n = Infinity false.
Proof.
  intros Hn. unfold roundToDouble. cbv zeta.
  assert (P1024 : 2 ^ 53 < 2 ^ 1024) by (apply Z.pow_lt_mono_r; lia).
  assert (Hpos : 0 < n) by (pose proof (Z.pow_pos_nonneg 2 53); lia).
  rewrite (Z.abs_eq n) by lia.
  destruct (Z.leb_spec n (2 ^ 53)) as [?|_]; [lia|].
  assert (L : 1024 <= Z.log2 n).
  { rewrite <- (Z.log2_pow2 1024) by lia. apply Z.log2_le_mono, Hn. }
  set (e := Z.log2 n - 52).
  set (q := Z.shiftr n e).
  set (q' := if Z.land n (Z.ones e) <? 2 ^ (e - 1) then q
             else if 2 ^ (e - 1) <? Z.land n (Z.ones e) then q + 1
             else if Z.even q then q else q + 1).
  assert (He : 0 < 2 ^ e) by (apply Z.pow_pos_nonneg; lia).
  assert (Hq : 2 ^ 52 <= q).
  { unfold q. rewrite Z.shiftr_div_pow2 by lia.
    apply Z.div_le_lower_bound; [exact He|].
    rewrite Z.mul_comm, <- Z.pow_add_r by lia.
    replace (52 + e) with (Z.log2 n) by lia.
    apply Z.log2_spec, Hpos. }
  assert (Hq' : q <= q').
  { unfold q'. repeat match goal with |- context [if ?b then _ else _] => destruct b end; lia. }
  assert (Hv : 2 ^ 1024 <= q' * 2 ^ e).
  { apply Z.le_trans with (2 ^ 52 * 2 ^ e); [|apply Z.mul_le_mono_nonneg_r; lia].
    rewrite <- Z.pow_add_r by lia. apply Z.pow_le_mono_r; lia. }
  destruct (Z.leb_spec (2 ^ 1024) (q' * 2 ^ e)); [|lia].
  destruct (Z.ltb_spec n 0); [lia | reflexivity].
Qed.

(** X11. A decimal numeral of [2^1024] or more is beyond binary64:
    [parseInt] gives [Infinity] for it, and the token is reported as
    [Infinity is out of range (1-1000)], not with its own digits. *)
Theorem huge_numeral_is_reported_as_Infinity (n : Z) :
  2 ^ 1024 <= n ->
  parseInt (decimal n) = Infinity false
  /\ tokenError (decimal n) = Some (lit "Infinity is out of range (1-1000)").
Proof.
  intros Hn.
  assert (E : parseInt (decimal n) = Infinity false).
  { rewrite parseInt_decimal by (pose proof (Z.pow_pos_nonneg 2 1024); lia).
    apply roundToDouble_overflow, Hn. }
  split; [exact E|]. unfold tokenError. rewrite E. reflexivity.
Qed.

Lemma huge_numeral_witness :
  tokenError (decimal (2 * 10 ^ 308))
  = Some (lit "Infinity is out of range (1-1000)").
Proof.
  apply (huge_numeral_is_reported_as_Infinity (2 * 10 ^ 308)).
  vm_compute. discriminate.
Defined.

(** ** A numeral followed by other text *)







(** * The claims about tokens that are not plain integers, and about the
      bounds of the result *)

(** ** Numerals *)



















(** C8, as the code has it. A valid result that carries an array carries at
    most 25 numbers, each an integer between 1 and 1000. The array can be
    empty, which a NumberList cannot: it is empty exactly when the input
    holds nothing but commas and white space, and every other array is a
    NumberList. *)
Theorem C8_valid_numbers_are_within_bounds (input : JSString) (a : list Number) :
  valid (validateNumberInput input) = true ->
  numbers (validateNumberInput input) = NumbersArray a ->
  (length a <= 25)%nat /\ Forall (isIntegerIn 1 1000) a
  /\ (a = [] <-> forallb isDelimiter input = true)
  /\ (a <> [] -> isNumberList a).
Proof.
  intros Hv Hn.
  assert (B : blank input = false).
  { rewrite validate_verdicts in Hn. destruct (blank input); [discriminate | reflexivity]. }
  assert (Ha : a = firstn 25 (List.map parseInt (tokens input))).
  { rewrite validate_verdicts, B in Hv, Hn.
    destruct (omap tokenError (tokens input)) as [|m ms] eqn:E; [|discriminate].
    rewrite (no_errors_all_numbers _ E) in Hn. cbv zeta in Hn.
    destruct (Nat.ltb_spec 25 (length (List.map parseInt (tokens input)))) as [L|L];
      cbn [numbers truncatedResult validResult] in Hn; injection Hn as <-;
      [reflexivity | rewrite firstn_all2 by exact L; reflexivity]. }
  assert (Hr : Forall (isIntegerIn 1 1000) a).
  { rewrite Ha. apply Forall_take.
    apply (proj2 (List.Forall_map parseInt (isIntegerIn 1 1000) _)).
    apply errors_nil_iff. rewrite valid_no_errors in Hv.
    destruct (omap tokenError (tokens input)); [reflexivity | discriminate]. }
  assert (Hl : (length a <= 25)%nat) by (rewrite Ha, length_firstn; lia).
  assert (He : a = [] <-> forallb isDelimiter input = true).
  { rewrite <- delimiters_only. rewrite Ha. split.
    - intros E. apply (f_equal (@length _)) in E.
      rewrite length_firstn, length_map in E. cbn [length] in E.
      destruct (tokens input); [reflexivity | cbn [length] in E; lia].
    - intros ->. reflexivity. }
  split; [exact Hl|]. split; [exact Hr|]. split; [exact He|].
  intros Hne. split; [|exact Hr]. split; [|exact Hl].
  destruct a; [congruence | cbn [length]; lia].
Qed.

Lemma C8_witness :
  (length [Finite 5; Finite 10; Finite 15] <= 25)%nat
  /\ Forall (isIntegerIn 1 1000) [Finite 5; Finite 10; Finite 15]
  /\ isNumberList [Finite 5; Finite 10; Finite 15].
Proof.
  destruct (C8_valid_numbers_are_within_bounds (lit "5, 10  15")
              [Finite 5; Finite 10; Finite 15]) as (H1 & H2 & _ & H4);
    [vm_compute; reflexivity | vm_compute; reflexivity|].
  split; [exact H1|]. split; [exact H2|]. apply H4. discriminate.
Defined.

(** C8 as stated fails: [","] is accepted with an array that has no
    element, and a NumberList has at least one. *)
Lemma C8_counterexample :
  valid (validateNumberInput (lit ",")) = true
  /\ numbers (validateNumberInput (lit ",")) = NumbersArray []
  /\ ~ isNumberList [].
Proof.
  split; [reflexivity|]. split; [reflexivity|].
  intros [[H _] _]. cbn [length] in H. lia.
Qed.

(** * The RegExp objects: no state survives a call *)

Section RegExpStore.
Import RegExp.

Lemma get_at (pre post : Store) (o : Object) :
  get (length pre) (pre ++ o :: post) = (o, pre ++ o :: post).
Proof.
  unfold get. rewrite list_lookup_middle by reflexivity. reflexivity.
Qed.

Lemma setLastIndex_at (pre post : Store) (o : Object) (i : nat) :
  setLastIndex (length pre) i (pre ++ o :: post)
  = (tt, pre ++ withLastIndex o i :: post).
Proof.
  unfold setLastIndex. f_equal.
  replace (length pre) with (length pre + 0)%nat by lia.
  rewrite alter_app_r. reflexivity.
Qed.

Lemma exec_at (pre post : Store) (o : Object) (s : JSString) :
  RegExpBuiltinExec (length pre) s (pre ++ o :: post)
  = let tracked := global o || sticky o in
    let start := if tracked then lastIndex o else 0%nat in
    match scan (pattern o) (sticky o) s (S (length s) - start) start with
    | None => (None, pre ++ (if tracked then withLastIndex o 0 else o) :: post)
    | Some (i, e) =>
        (Some (i, e), pre ++ (if tracked then withLastIndex o e else o) :: post)
    end.
Proof.
  unfold RegExpBuiltinExec, bind. rewrite get_at. cbv zeta.
  destruct (scan _ _ _ _ _) as [[i e]|];
    destruct (global o || sticky o); try rewrite setLastIndex_at; reflexivity.
Qed.

(** ** [replace(/,/g, ' ')] *)

Lemma scan_comma (b : JSString) : forall a : JSString,
  scan Comma false (a ++ b) (S (length b)) (length a) = findComma (length a) b.
Proof.
  induction b as [|c b IH]; intros a; cbn [scan matcher findComma].
  - rewrite app_nil_r, drop_all. reflexivity.
  - rewrite drop_app_length. destruct (c =? COMMA)%N; [reflexivity|].
    specialize (IH (a ++ [c])). rewrite <- app_assoc, length_app in IH.
    exact IH.
Qed.

Lemma findComma_None (b : JSString) : forall k,
  findComma k b = None -> commaPositions k b = [].
Proof.
  induction b as [|c b IH]; intros k; simpl; [reflexivity|].
  destruct (c =? COMMA)%N; [discriminate | apply IH].
Qed.

Lemma findComma_Some (b : JSString) : forall k i e,
  findComma k b = Some (i, e) ->
  exists b1 b2, b = b1 ++ COMMA :: b2
                /\ i = (k + length b1)%nat /\ e = (i + 1)%nat
                /\ commaPositions k b = (i, e) :: commaPositions e b2.
Proof.
  induction b as [|c b IH]; intros k i e; simpl; [discriminate|].
  destruct (c =? COMMA)%N eqn:Ec.
  - intros [= <- <-]. apply N.eqb_eq in Ec. subst c.
    exists [], b. simpl. rewrite Nat.add_0_r. auto.
  - intros H. destruct (IH _ _ _ H) as [b1 [b2 [-> [-> [-> Hp]]]]].
    exists (c :: b1), b2. cbn [app length].
    split; [reflexivity|]. split; [lia|]. split; [reflexivity | exact Hp].
Qed.

Lemma collect_commas (fuel : nat) : forall (pre post : Store) (a b : JSString),
  (length b + 2 <= fuel)%nat ->
  collect (length pre) (a ++ b) fuel
    (pre ++ mkObject Comma true false (length a) :: post)
  = (commaPositions (length a) b, pre ++ mkObject Comma true false 0 :: post).
Proof.
  induction fuel as [|fuel IH]; intros pre post a b Hf; [lia|].
  cbn [collect]. unfold bind at 1. rewrite exec_at. cbn [global sticky pattern lastIndex orb].
  replace (S (length (a ++ b)) - length a)%nat with (S (length b))
    by (rewrite length_app; lia).
  rewrite scan_comma.
  destruct (findComma (length a) b) as [[i e]|] eqn:Ef.
  - destruct (findComma_Some _ _ _ _ Ef) as [b1 [b2 [-> [-> [-> Hp]]]]].
    unfold bind. rewrite get_at. cbn [global negb withLastIndex lastIndex].
    assert (Hne : (length a + length b1 + 1 =? length a + length b1)%nat = false)
      by (apply Nat.eqb_neq; lia).
    rewrite Hne. unfold ret at 1.
    specialize (IH pre post (a ++ b1 ++ [COMMA]) b2).
    rewrite !length_app in IH. simpl length in IH.
    rewrite <- !app_assoc in IH. simpl app in IH.
    replace (length a + (length b1 + 1))%nat with (length a + length b1 + 1)%nat
      in IH by lia.
    unfold withLastIndex. cbn [pattern global sticky].
    rewrite IH by (rewrite length_app in Hf; simpl in Hf; lia).
    rewrite Hp. reflexivity.
  - rewrite (findComma_None _ _ Ef). reflexivity.
Qed.


Lemma accumulate_commas (b : JSString) : forall (a m acc : JSString),
  accumulate (a ++ m ++ b) [SPACE]
    (commaPositions (length a + length m) b) acc (length a)
  = acc ++ m ++ replace_commas b.
Proof.
  induction b as [|c b IH]; intros a m acc; cbn [commaPositions accumulate].
  - rewrite !app_nil_r, drop_app_length. reflexivity.
  - unfold replace_commas. cbn [List.map]. fold (replace_commas b).
    destruct (c =? COMMA)%N eqn:Ec.
    + cbn [accumulate].
      assert (Hle : (length a <=? length a + length m)%nat = true)
        by (apply Nat.leb_le; lia).
      rewrite Hle. unfold substring.
      rewrite drop_app_length.
      replace (length a + length m - length a)%nat with (length m) by lia.
      rewrite take_app_length.
      specialize (IH (a ++ m ++ [c]) [] (acc ++ m ++ [SPACE])).
      rewrite !length_app in IH. simpl length in IH.
      rewrite <- !app_assoc in IH. simpl app in IH.
      replace (length a + (length m + 1) + 0)%nat with (length a + length m + 1)%nat
        in IH by lia.
      replace (length a + (length m + 1))%nat with (length a + length m + 1)%nat
        in IH by lia.
      rewrite IH. reflexivity.
    + specialize (IH a (m ++ [c]) acc).
      rewrite !length_app in IH. simpl length in IH.
      rewrite <- !app_assoc in IH. simpl app in IH.
      replace (length a + (length m + 1))%nat with (length a + length m + 1)%nat
        in IH by lia.
      rewrite IH. reflexivity.
Qed.

Lemma replace_commas_at (pre post : Store) (k : nat) (s : JSString) :
  replace (length pre) s [SPACE] (pre ++ mkObject Comma true false k :: post)
  = (replace_commas s, pre ++ mkObject Comma true false 0 :: post).
Proof.
  unfold replace, bind. rewrite get_at. cbn [global].
  rewrite setLastIndex_at. unfold withLastIndex. cbn [pattern global sticky].
  pose proof (collect_commas (length s + 2) pre post [] s) as H.
  simpl length in H. simpl app in H. rewrite H by lia.
  unfold ret. f_equal.
  pose proof (accumulate_commas s [] [] []) as Ha. simpl in Ha. exact Ha.
Qed.


(** ** [split(/\s+/)] *)

Lemma whiteSpaceRun_split (b : JSString) :
  exists w b', b = w ++ b' /\ length w = whiteSpaceRun b
               /\ forallb isWhiteSpace w = true
               /\ match b' with c :: _ => isWhiteSpace c = false | [] => True end.
Proof.
  induction b as [|c b [w [b' [E [Hl [Hw Hb]]]]]]; simpl.
  - exists [], []. auto.
  - destruct (isWhiteSpace c) eqn:Hc.
    + exists (c :: w), b'. simpl. rewrite Hc, Hw, <- Hl, <- E. auto.
    + exists [], (c :: b). auto.
Qed.

Lemma split_go_skip (w b : JSString) :
  forallb isWhiteSpace w = true ->
  match b with c :: _ => isWhiteSpace c = false | [] => True end ->
  split_go [] true (w ++ b) = split_go [] false b.
Proof.
  intros Hw Hb. induction w as [|c w IH]; simpl.
  - destruct b as [|d b]; [reflexivity|]. simpl. rewrite Hb. reflexivity.
  - simpl in Hw. apply andb_prop in Hw as [Hc Hw]. rewrite Hc. auto.
Qed.

Lemma splitLoop_pieces (fuel : nat) :
  forall (pre post : Store) (k : nat) (a cur b : JSString),
  (length b <= fuel)%nat ->
  exists k',
    splitLoop (length pre) (a ++ cur ++ b) fuel (length a) (length a + length cur)
      (pre ++ mkObject WhiteSpaces false true k :: post)
    = (split_go (rev cur) false b,
       pre ++ mkObject WhiteSpaces false true k' :: post).
Proof.
  induction fuel as [|fuel IH]; intros pre post k a cur b Hf.
  - destruct b; [|simpl in Hf; lia]. exists k. cbn [splitLoop split_go].
    rewrite app_nil_r, drop_app_length, rev_involutive. reflexivity.
  - cbn [splitLoop]. destruct b as [|c b].
    + exists k. rewrite app_nil_r.
      assert (E : (length a + length cur <? length (a ++ cur))%nat = false)
        by (apply Nat.ltb_ge; rewrite length_app; lia).
      rewrite E. cbn [split_go]. rewrite drop_app_length, rev_involutive.
      reflexivity.
    + assert (E : (length a + length cur <? length (a ++ cur ++ c :: b))%nat = true)
        by (apply Nat.ltb_lt; rewrite !length_app; simpl; lia).
      rewrite E. unfold bind at 1. rewrite setLastIndex_at.
      unfold bind at 1. rewrite exec_at.
      unfold withLastIndex. cbn [pattern global sticky lastIndex orb].
      replace (S (length (a ++ cur ++ c :: b)) - (length a + length cur))%nat
        with (S (S (length b))) by (rewrite !length_app; simpl; lia).
      cbn [scan matcher].
      replace (drop (length a + length cur) (a ++ cur ++ c :: b)) with (c :: b).
      2:{ rewrite app_assoc, <- length_app, drop_app_length. reflexivity. }
      cbn [whiteSpaceRun split_go].
      destruct (isWhiteSpace c) eqn:Hc.
      * destruct (whiteSpaceRun_split b) as [w [b' [-> [Hl [Hw Hb]]]]].
        rewrite <- Hl. unfold bind at 1. rewrite get_at. cbn [lastIndex].
        assert (Hmin : Nat.min (length a + length cur + S (length w))
                         (length (a ++ cur ++ c :: w ++ b'))
                       = (length a + length cur + S (length w))%nat)
          by (rewrite !length_app; simpl; rewrite length_app; lia).
        rewrite Hmin.
        assert (Hne : (length a + length cur + S (length w) =? length a)%nat = false)
          by (apply Nat.eqb_neq; lia).
        rewrite Hne.
        destruct (IH pre post (length a + length cur + S (length w))%nat
                    (a ++ cur ++ c :: w) [] b') as [k' Hk'].
        { simpl in Hf. rewrite length_app in Hf. lia. }
        exists k'. unfold bind.
        replace (length (a ++ cur ++ c :: w))
          with (length a + length cur + S (length w))%nat in Hk'
          by (rewrite !length_app; simpl; lia).
        rewrite Nat.add_0_r in Hk'. simpl app in Hk'.
        replace ((a ++ cur ++ c :: w) ++ b') with (a ++ cur ++ c :: w ++ b') in Hk'
          by (rewrite <- !app_assoc; reflexivity).
        rewrite Hk'. unfold ret, substring.
        rewrite drop_app_length.
        replace (length a + length cur - length a)%nat with (length cur) by lia.
        rewrite take_app_length, rev_involutive.
        rewrite (split_go_skip _ _ Hw Hb). reflexivity.
      * destruct (IH pre post 0%nat a (cur ++ [c]) b) as [k' Hk'].
        { simpl in Hf. lia. }
        exists k'.
        rewrite length_app in Hk'. simpl length in Hk'.
        rewrite <- !app_assoc in Hk'. simpl app in Hk'.
        replace (length a + (length cur + 1))%nat
          with (length a + length cur + 1)%nat in Hk' by lia.
        rewrite Hk', rev_app_distr. reflexivity.
Qed.

Lemma split_ws_at (st : Store) (o : Object) (r : nat) (s : JSString) :
  st !! r = Some o -> pattern o = WhiteSpaces -> global o = false ->
  exists k,
    split r s st = (split_ws s, st ++ [mkObject WhiteSpaces false true k]).
Proof.
  intros Hr Hp Hg. unfold split, bind at 1, get. rewrite Hr. cbn [default].
  unfold bind at 1, New. cbv beta iota. unfold id. rewrite Hp, Hg.
  destruct s as [|c s].
  - exists 0%nat. unfold bind.
    pose proof (exec_at st [] (mkObject WhiteSpaces false true 0) []) as E.
    rewrite E. reflexivity.
  - destruct (splitLoop_pieces (length (c :: s)) st [] 0%nat [] [] (c :: s))
      as [k Hk]; [lia|].
    exists k. exact Hk.
Qed.

(** ** The function over the store *)

Lemma validate_over_store (input : JSString) (st : Store) :
  exists st',
    OverStore.validateNumberInput input st = (validateNumberInput input, st ++ st').
Proof.
  unfold OverStore.validateNumberInput, validateNumberInput.
  destruct (negb (truthy (trim input))).
  - exists []. rewrite app_nil_r. reflexivity.
  - unfold bind at 1, New.
    unfold bind at 1. rewrite (replace_commas_at st [] 0).
    unfold bind at 1.
    set (st1 := st ++ [mkObject Comma true false 0]).
    destruct (split_ws_at (st1 ++ [mkObject WhiteSpaces false false 0])
                (mkObject WhiteSpaces false false 0) (length st1)
                (replace_commas (trim input))) as [k Hk]; try reflexivity.
    { apply list_lookup_middle. reflexivity. }
    unfold bind. rewrite Hk. unfold tokenize.
    destruct (fold_left loopBody _ _) as [validNumbers errors].
    eexists. unfold ret, st1. rewrite <- !app_assoc. reflexivity.
Qed.

End RegExpStore.

(** C9. [validateNumberInput] is deterministic. Its only mutable objects are
    the two RegExp objects it creates and the splitter [split] derives from
    one of them: whatever the store holds when the call starts, the result
    is the same, it is the result of the pure reading of the function, a
    second call in the store the first one left returns it again, and the
    objects that existed before the call are left as they were. *)
Theorem C9_validateNumberInput_is_deterministic
    (input : JSString) (st1 st2 : list RegExp.Object) :
  fst (OverStore.validateNumberInput input st1)
  = fst (OverStore.validateNumberInput input st2)
  /\ fst (OverStore.validateNumberInput input
            (snd (OverStore.validateNumberInput input st1)))
     = fst (OverStore.validateNumberInput input st1)
  /\ fst (OverStore.validateNumberInput input st1) = validateNumberInput input
  /\ exists created, snd (OverStore.validateNumberInput input st1) = st1 ++ created.
Proof.
  destruct (validate_over_store input st1) as [c1 E1].
  destruct (validate_over_store input st2) as [c2 E2].
  destruct (validate_over_store input (st1 ++ c1)) as [c3 E3].
  rewrite E1, E2. cbn [fst snd]. rewrite E3. cbn [fst].
  repeat split; try reflexivity. exists c1. reflexivity.
Qed.

(** * The step generators sort *)

Section EngineFacts.
Import Engine.
Local Open Scope nat_scope.

(** ** The order *)

Lemma shouldSwap_false d x y : shouldSwap d x y = false -> inOrder d x y.
Proof. destruct d; simpl; intros H%Z.ltb_ge; lia. Qed.

Lemma shouldSwap_true d x y : shouldSwap d x y = true -> inOrder d y x.
Proof. destruct d; simpl; intros H%Z.ltb_lt; lia. Qed.

Lemma inOrder_refl d x : inOrder d x x.
Proof. destruct d; simpl; lia. Qed.

Lemma inOrder_trans d x y z : inOrder d x y -> inOrder d y z -> inOrder d x z.
Proof. destruct d; simpl; lia. Qed.

(** ** Arrays *)

Lemma length_swapAt i j (a : list Z) : length (swapAt i j a) = length a.
Proof. unfold swapAt. rewrite !length_insert. reflexivity. Qed.

Lemma swapAt_lookup i j k (a : list Z) :
  i < length a -> j < length a ->
  swapAt i j a !!! k
  = if decide (k = i) then a !!! j
    else if decide (k = j) then a !!! i else a !!! k.
Proof.
  intros Hi Hj. unfold swapAt.
  destruct (decide (k = i)) as [->|Hki].
  - rewrite list_lookup_total_insert_eq by (rewrite length_insert; lia).
    reflexivity.
  - rewrite list_lookup_total_insert_ne by congruence.
    destruct (decide (k = j)) as [->|Hkj].
    + rewrite list_lookup_total_insert_eq by lia. reflexivity.
    + rewrite list_lookup_total_insert_ne by congruence. reflexivity.
Qed.

Lemma swapAt_perm i j (a : list Z) :
  i < length a -> j < length a -> swapAt i j a ≡ₚ a.
Proof.
  intros Hi Hj. apply Permutation_inj. split; [apply length_swapAt|].
  exists (fun k => if decide (k = i) then j else if decide (k = j) then i else k).
  split.
  - intros x y. repeat case_decide; intros; subst; congruence.
  - intros k. destruct (decide (k < length a)) as [Hk|Hk].
    + rewrite (list_lookup_lookup_total_lt (swapAt i j a) k)
        by (rewrite length_swapAt; exact Hk).
      rewrite swapAt_lookup by assumption.
      repeat case_decide; subst;
        symmetry; apply list_lookup_lookup_total_lt; assumption.
    + rewrite (lookup_ge_None_2 (swapAt i j a) k) by (rewrite length_swapAt; lia).
      repeat case_decide; subst; try lia.
      symmetry. apply lookup_ge_None_2. lia.
Qed.

Lemma swapAt_same i (a : list Z) : swapAt i i a = a.
Proof.
  unfold swapAt. rewrite list_insert_insert_eq.
  destruct (decide (i < length a)) as [H|H].
  - apply list_insert_id, list_lookup_lookup_total_lt, H.
  - apply list_insert_ge. lia.
Qed.

(** Sorted by indices is sorted as a list. *)
Lemma sorted_by_index (R : Z -> Z -> Prop) (a : list Z) :
  (forall i j, i < j -> j < length a -> R (a !!! i) (a !!! j)) ->
  StronglySorted R a.
Proof.
  induction a as [|x a IH]; intros H; constructor.
  - apply IH. intros i j Hij Hj. apply (H (S i) (S j)); simpl; lia.
  - apply (Forall_lookup_total_2 (R x)). intros j Hj. apply (H 0 (S j)); simpl; lia.
Qed.

(** ** Steps follow the array *)

Lemma follows_start initial : follows initial (mkRun initial []).
Proof.
  split; [reflexivity|]. intros n s H. cbn [steps] in H.
  rewrite lookup_nil in H. discriminate.
Qed.

Lemma follows_emit initial k idx v a r :
  follows initial r ->
  applyStep (array r) (mkStep k idx v a (length (steps r))) = a ->
  follows initial (emit k idx v a r).
Proof.
  unfold follows, applySteps, emit. intros [H Hall] E. cbn [array steps].
  split.
  - rewrite fold_left_app. simpl. rewrite H. exact E.
  - intros n s Hs.
    destruct (decide (n < length (steps r))) as [Hn|Hn].
    + rewrite lookup_app_l in Hs by exact Hn.
      rewrite take_app_le by lia. apply Hall, Hs.
    + rewrite lookup_app_r in Hs by lia.
      destruct (n - length (steps r)) as [|m] eqn:En; [|destruct m; discriminate].
      injection Hs as <-. cbn [stepIndex arraySnapshot].
      split; [lia|].
      rewrite take_ge by (rewrite length_app; simpl; lia).
      rewrite fold_left_app. simpl. rewrite H. exact E.
Qed.

Lemma follows_compare initial i j r :
  follows initial r -> follows initial (compareStep i j r).
Proof. intros H. apply follows_emit; [exact H | reflexivity]. Qed.

Lemma follows_swap initial i j r :
  follows initial r -> follows initial (swapStep i j r).
Proof. intros H. apply follows_emit; [exact H | reflexivity]. Qed.

Lemma follows_set initial i v r :
  follows initial r -> follows initial (setStep i v r).
Proof. intros H. apply follows_emit; [exact H | reflexivity]. Qed.

Lemma follows_write initial i v r :
  follows initial r -> follows initial (writeStep i v r).
Proof. intros H. apply follows_emit; [exact H | reflexivity]. Qed.

Lemma follows_pivot initial i r :
  follows initial r -> follows initial (pivotStep i r).
Proof. intros H. apply follows_emit; [exact H | reflexivity]. Qed.

Lemma follows_sift initial i r :
  follows initial r -> follows initial (siftStep i r).
Proof. intros H. apply follows_emit; [exact H | reflexivity]. Qed.

Lemma follows_done initial r :
  follows initial r -> follows initial (doneStep r).
Proof. intros H. apply follows_emit; [exact H | reflexivity]. Qed.

End EngineFacts.

(** ** Selection *)

Section SelectionSort.
Import Engine.
Local Open Scope nat_scope.
Context (d : Direction) (initial : list Z).

Lemma selectScan_spec count : forall j m r i,
  follows initial r ->
  i <= m -> m < j -> j + count = length (array r) ->
  (forall k, i <= k -> k < j -> inOrder d (array r !!! m) (array r !!! k)) ->
  follows initial (selectScan d count j m r).2
  /\ array (selectScan d count j m r).2 = array r
  /\ i <= (selectScan d count j m r).1
  /\ (selectScan d count j m r).1 < length (array r)
  /\ (forall k, i <= k -> k < length (array r) ->
        inOrder d (array r !!! (selectScan d count j m r).1) (array r !!! k)).
Proof.
  induction count as [|count IH]; intros j m r i Hf Him Hmj Hn Hmin.
  - simpl. split; [exact Hf|]. split; [reflexivity|]. split; [lia|].
    split; [lia|]. intros k Hik Hk. apply Hmin; lia.
  - cbn [selectScan].
    change (array (compareStep m j r)) with (array r).
    destruct (shouldSwap d (array r !!! m) (array r !!! j)) eqn:Hs.
    + apply shouldSwap_true in Hs.
      destruct (IH (j + 1) j (compareStep m j r) i) as (H1 & H2 & H3 & H4 & H5);
        try (apply follows_compare; assumption); try (simpl; lia).
      { intros k Hik Hk. change (array (compareStep m j r)) with (array r).
        destruct (decide (k = j)) as [->|Hkj]; [apply inOrder_refl|].
        eapply inOrder_trans; [exact Hs | apply Hmin; lia]. }
      split; [exact H1|]. split; [exact H2|]. split; [exact H3|].
      split; [exact H4 | exact H5].
    + apply shouldSwap_false in Hs.
      destruct (IH (j + 1) m (compareStep m j r) i) as (H1 & H2 & H3 & H4 & H5);
        try (apply follows_compare; assumption); try (simpl; lia).
      { intros k Hik Hk. change (array (compareStep m j r)) with (array r).
        destruct (decide (k = j)) as [->|Hkj]; [exact Hs|].
        apply Hmin; lia. }
      split; [exact H1|]. split; [exact H2|]. split; [exact H3|].
      split; [exact H4 | exact H5].
Qed.

Lemma selectFrom_spec count : forall i r,
  follows initial r -> array r ≡ₚ initial ->
  i + count = length (array r) ->
  sortedRange d (array r) 0 i -> splitAt d (array r) i ->
  sorts d initial (selectFrom d count i r).
Proof.
  induction count as [|count IH]; intros i r Hf Hp Hn Hs Hsp.
  - simpl. split; [exact Hf|]. split; [exact Hp|].
    apply sorted_by_index. intros p q Hpq Hq. apply Hs; lia.
  - cbn [selectFrom].
    destruct (selectScan_spec (length (array r) - (i + 1)) (i + 1) i r i)
      as (H1 & H2 & H3 & H4 & H5); try assumption; try lia.
    { intros k Hik Hk. replace k with i by lia. apply inOrder_refl. }
    destruct (selectScan d (length (array r) - (i + 1)) (i + 1) i r) as [m r1].
    cbn [fst snd] in *.
    assert (Hi : i < length (array r)) by lia.
    destruct (m =? i) eqn:Hm.
    + apply Nat.eqb_eq in Hm. subst m. apply IH.
      * exact H1.
      * rewrite H2. exact Hp.
      * rewrite H2. lia.
      * rewrite H2. intros p q H0p Hpq Hq.
        destruct (decide (q = i)) as [->|Hqi].
        -- apply Hsp; lia.
        -- apply Hs; lia.
      * rewrite H2. intros p q Hpi Hiq Hq.
        destruct (decide (p = i)) as [->|Hpi'].
        -- apply H5; lia.
        -- apply Hsp; lia.
    + apply Nat.eqb_neq in Hm. apply IH.
      * apply follows_swap, H1.
      * cbn [swapStep emit array]. rewrite H2, swapAt_perm by lia. exact Hp.
      * cbn [swapStep emit array]. rewrite H2, length_swapAt. lia.
      * cbn [swapStep emit array]. rewrite H2. intros p q H0p Hpq Hq.
        rewrite !swapAt_lookup by lia.
        repeat case_decide; subst; try lia.
        -- apply Hsp; lia.
        -- apply Hs; lia.
      * unfold splitAt. cbn [swapStep emit array]. rewrite H2, length_swapAt.
        intros p q Hpi Hiq Hq.
        rewrite !swapAt_lookup by lia.
        repeat case_decide; subst; try lia.
        -- apply H5; lia.
        -- apply H5; lia.
        -- apply Hsp; lia.
        -- apply Hsp; lia.
Qed.

Lemma selection_sorts : sorts d initial (selection d (mkRun initial [])).
Proof.
  apply selectFrom_spec; simpl; try reflexivity.
  - apply follows_start.
  - intros p q H0p Hpq Hq. lia.
  - intros p q Hp. lia.
Qed.

End SelectionSort.

(** ** Bubble *)

Section BubbleSort.
Import Engine.
Local Open Scope nat_scope.
Context (d : Direction) (initial : list Z).

Lemma shouldSwap_strict x y : shouldSwap d x y = true -> inOrder d x y -> False.
Proof. destruct d; simpl; intros H%Z.ltb_lt; lia. Qed.

Lemma settled_extend (a : list Z) (m : nat) :
  1 <= m -> m <= length a -> settled d a m ->
  (forall k, k < m - 1 -> inOrder d (a !!! k) (a !!! (m - 1))) ->
  settled d a (m - 1).
Proof.
  intros H1 Hm [Hs Hsp] Hmax. split.
  - intros i j Hi Hij Hj. destruct (decide (i = m - 1)) as [->|Hne].
    + apply Hsp; lia.
    + apply Hs; lia.
  - intros i j Hi Hj Hjn. destruct (decide (j = m - 1)) as [->|Hne].
    + apply Hmax; lia.
    + apply Hsp; lia.
Qed.

Lemma bubblePass_basic count : forall j sw r,
  follows initial r ->
  (count = 0 \/ j + count + 1 <= length (array r)) ->
  follows initial (bubblePass d count j sw r).2
  /\ length (array (bubblePass d count j sw r).2) = length (array r)
  /\ array (bubblePass d count j sw r).2 ≡ₚ array r
  /\ ((bubblePass d count j sw r).1 = false ->
      sw = false
      /\ array (bubblePass d count j sw r).2 = array r
      /\ forall k, j <= k -> k < j + count ->
           inOrder d (array r !!! k) (array r !!! (k + 1))).
Proof.
  induction count as [|count IH]; intros j sw r Hf Hn.
  - simpl. split; [exact Hf|]. split; [reflexivity|]. split; [reflexivity|].
    intros ->. split; [reflexivity|]. split; [reflexivity|].
    intros k Hjk Hk. lia.
  - cbn [bubblePass]. change (array (compareStep j (j + 1) r)) with (array r).
    destruct Hn as [Hn|Hn]; [discriminate|].
    destruct (shouldSwap d (array r !!! j) (array r !!! (j + 1))) eqn:Hs.
    + destruct (IH (j + 1) true (swapStep j (j + 1) (compareStep j (j + 1) r)))
        as (H1 & H2 & H3 & H4).
      { apply follows_swap, follows_compare, Hf. }
      { right. cbn [swapStep emit array compareStep]. rewrite length_swapAt. lia. }
      cbn [swapStep emit array compareStep] in H2, H3.
      rewrite length_swapAt in H2. rewrite swapAt_perm in H3 by lia.
      split; [exact H1|]. split; [exact H2|]. split; [exact H3|].
      intros E. destruct (H4 E) as [? _]. discriminate.
    + destruct (IH (j + 1) sw (compareStep j (j + 1) r)) as (H1 & H2 & H3 & H4).
      { apply follows_compare, Hf. }
      { right. cbn [emit array compareStep]. lia. }
      change (array (compareStep j (j + 1) r)) with (array r) in *.
      split; [exact H1|]. split; [exact H2|]. split; [exact H3|].
      intros E. destruct (H4 E) as (E1 & E2 & E3).
      split; [exact E1|]. split; [exact E2|].
      intros k Hjk Hk. destruct (decide (k = j)) as [->|Hne].
      * apply shouldSwap_false, Hs.
      * apply E3; lia.
Qed.

Lemma bubblePass_settles (m : nat) count : forall j sw r,
  j + count + 1 = length (array r) -> m <= length (array r) ->
  (if decide (j + 1 < m)
   then settled d (array r) m
        /\ forall k, k < j -> inOrder d (array r !!! k) (array r !!! j)
   else settled d (array r) (m - 1)) ->
  settled d (array (bubblePass d count j sw r).2) (m - 1).
Proof.
  induction count as [|count IH]; intros j sw r Hn Hm HQ.
  - simpl. destruct (decide (j + 1 < m)); [lia | exact HQ].
  - cbn [bubblePass]. change (array (compareStep j (j + 1) r)) with (array r).
    destruct (decide (j + 1 < m)) as [Hlt|Hge].
    + destruct HQ as [[Hs Hsp] Hmax].
      destruct (shouldSwap d (array r !!! j) (array r !!! (j + 1))) eqn:Hsw.
      * apply shouldSwap_true in Hsw.
        set (a' := swapAt j (j + 1) (array r)).
        assert (Hset : settled d a' m).
        { split.
          - intros p q Hp Hpq Hq. unfold a' in *. rewrite length_swapAt in Hq.
            rewrite !swapAt_lookup by lia.
            repeat case_decide; subst; try lia. apply Hs; lia.
          - intros p q Hp Hq Hqn. unfold a' in *. rewrite length_swapAt in Hqn.
            rewrite !swapAt_lookup by lia.
            repeat case_decide; subst; try lia; apply Hsp; lia. }
        assert (Hmax' : forall k, k < j + 1 -> inOrder d (a' !!! k) (a' !!! (j + 1))).
        { intros k Hk. unfold a'. rewrite !swapAt_lookup by lia.
          repeat case_decide; subst; try lia.
          - exact Hsw.
          - apply Hmax; lia. }
        apply IH.
        -- cbn [swapStep emit array compareStep]. rewrite length_swapAt. lia.
        -- cbn [swapStep emit array compareStep]. rewrite length_swapAt. lia.
        -- cbn [swapStep emit array compareStep]. fold a'.
           destruct (decide (j + 1 + 1 < m)); [split; assumption|].
           apply settled_extend; try assumption; try lia.
           ++ unfold a'. rewrite length_swapAt. lia.
           ++ intros k Hk. replace (m - 1) with (j + 1) by lia.
              apply Hmax'. lia.
      * apply shouldSwap_false in Hsw.
        assert (Hmax' : forall k, k < j + 1 ->
                          inOrder d (array r !!! k) (array r !!! (j + 1))).
        { intros k Hk. destruct (decide (k = j)) as [->|Hne]; [exact Hsw|].
          eapply inOrder_trans; [apply Hmax; lia | exact Hsw]. }
        apply IH.
        -- cbn [emit array compareStep]. lia.
        -- cbn [emit array compareStep]. lia.
        -- cbn [emit array compareStep].
           destruct (decide (j + 1 + 1 < m)); [split; [split|]; assumption|].
           apply settled_extend; try (split; assumption); try lia.
           intros k Hk. replace (m - 1) with (j + 1) by lia.
           apply Hmax'. lia.
    + destruct HQ as [Hs Hsp].
      assert (Ho : inOrder d (array r !!! j) (array r !!! (j + 1)))
        by (apply Hs; lia).
      destruct (shouldSwap d (array r !!! j) (array r !!! (j + 1))) eqn:Hsw.
      * exfalso. exact (shouldSwap_strict _ _ Hsw Ho).
      * apply IH.
        -- cbn [emit array compareStep]. lia.
        -- cbn [emit array compareStep]. lia.
        -- cbn [emit array compareStep].
           destruct (decide (j + 1 + 1 < m)); [lia | split; assumption].
Qed.

Lemma adjacent_sorted (a : list Z) :
  (forall k, k + 1 < length a -> inOrder d (a !!! k) (a !!! (k + 1))) ->
  StronglySorted (inOrder d) a.
Proof.
  intros H. apply sorted_by_index. intros i j Hij Hj.
  induction j as [|j IH]; [lia|].
  destruct (decide (i = j)) as [->|Hne].
  - replace (S j) with (j + 1) by lia. apply H. lia.
  - eapply inOrder_trans; [apply IH; lia|].
    replace (S j) with (j + 1) by lia. apply H. lia.
Qed.

Lemma bubblePasses_sorts fuel : forall m r,
  follows initial r -> array r ≡ₚ initial ->
  m <= fuel -> m <= length (array r) -> settled d (array r) m ->
  sorts d initial (bubblePasses d fuel r).
Proof.
  induction fuel as [|fuel IH]; intros m r Hf Hp Hmf Hm Hset.
  - simpl. split; [exact Hf|]. split; [exact Hp|].
    assert (m = 0) by lia. subst m. destruct Hset as [Hs _].
    apply sorted_by_index. intros i j Hij Hj. apply Hs; lia.
  - cbn [bubblePasses].
    destruct (decide (length (array r) = 0)) as [Hz|Hnz].
    { rewrite Hz. simpl. split; [exact Hf|]. split; [exact Hp|].
      destruct (array r); [constructor | discriminate]. }
    destruct (bubblePass_basic (length (array r) - 1) 0 false r Hf)
      as (H1 & H2 & H3 & H4); [right; lia|].
    pose proof (bubblePass_settles m (length (array r) - 1) 0 false r) as Hst.
    destruct (bubblePass d (length (array r) - 1) 0 false r) as [sw r'].
    cbn [fst snd] in *. destruct sw.
    + apply (IH (m - 1)); try assumption; try lia.
      * rewrite H3. exact Hp.
      * apply Hst; try lia.
        destruct (decide (0 + 1 < m)).
        -- split; [exact Hset|]. intros k Hk. lia.
        -- destruct (decide (m = 0)) as [->|Hm0]; [exact Hset|].
           apply settled_extend; try assumption; lia.
    + destruct (H4 eq_refl) as (_ & E2 & E3). split; [|split].
      * exact H1.
      * rewrite H3. exact Hp.
      * rewrite E2. apply adjacent_sorted. intros k Hk. apply E3; lia.
Qed.

Lemma bubble_sorts : sorts d initial (bubble d (mkRun initial [])).
Proof.
  apply (bubblePasses_sorts _ (length initial)); simpl; try reflexivity.
  { apply follows_start. }
  split.
  - intros p q Hp Hpq Hq. lia.
  - intros p q Hp Hq Hqn. lia.
Qed.

End BubbleSort.

(** ** Insertion *)

Section InsertionSort.
Import Engine.
Local Open Scope nat_scope.
Context (d : Direction) (initial : list Z).

Lemma shifting_step a0 key i j a :
  S j <= i -> i < length a0 ->
  shifting d a0 key i (S j) a ->
  shouldSwap d (a !!! j) key = true ->
  shifting d a0 key i j (<[S j := a !!! j]> a).
Proof.
  intros Hji Hi (Hl & Hp & S1 & S2 & S3 & S4) Hsw.
  apply shouldSwap_true in Hsw.
  split; [rewrite length_insert; exact Hl|]. split.
  - rewrite <- Hp.
    replace (<[j := key]> (<[S j := a !!! j]> a))
      with (swapAt j (S j) (<[S j := key]> a)).
    + apply swapAt_perm; rewrite length_insert; lia.
    + unfold swapAt.
      rewrite list_lookup_total_insert_eq by lia.
      rewrite list_lookup_total_insert_ne by lia.
      rewrite list_insert_insert_eq. reflexivity.
  - split; [|split; [|split]].
    + intros p q Hp0 Hpq Hq.
      rewrite !list_lookup_total_insert_ne by lia. apply S1; lia.
    + intros p q Hp0 Hpq Hq.
      destruct (decide (p = S j)) as [->|Hne].
      * rewrite list_lookup_total_insert_eq by lia.
        rewrite list_lookup_total_insert_ne by lia. apply S3; lia.
      * rewrite !list_lookup_total_insert_ne by lia. apply S2; lia.
    + intros p q Hp0 Hq0 Hq.
      rewrite (list_lookup_total_insert_ne a (S j) p) by lia.
      destruct (decide (q = S j)) as [->|Hne].
      * rewrite list_lookup_total_insert_eq by lia. apply S1; lia.
      * rewrite list_lookup_total_insert_ne by lia. apply S3; lia.
    + intros q Hq0 Hq.
      destruct (decide (q = S j)) as [->|Hne].
      * rewrite list_lookup_total_insert_eq by lia. exact Hsw.
      * rewrite list_lookup_total_insert_ne by lia. apply S4; lia.
Qed.

Lemma insertShift_spec a0 key i h : forall r,
  follows initial r -> h <= i -> i < length a0 ->
  shifting d a0 key i h (array r) ->
  follows initial (insertShift d key h r).2
  /\ (insertShift d key h r).1 <= h
  /\ shifting d a0 key i (insertShift d key h r).1 (array (insertShift d key h r).2)
  /\ forall p, p < (insertShift d key h r).1 ->
       inOrder d (array (insertShift d key h r).2 !!! p) key.
Proof.
  induction h as [|j IH]; intros r Hf Hhi Hi Hsh.
  - simpl. split; [exact Hf|]. split; [lia|]. split; [exact Hsh|].
    intros p Hp. lia.
  - cbn [insertShift]. change (array (compareStep j (S j) r)) with (array r).
    destruct (shouldSwap d (array r !!! j) key) eqn:Hsw.
    + destruct (IH (setStep (S j) (array r !!! j) (compareStep j (S j) r)))
        as (H1 & H2 & H3 & H4).
      * apply follows_set, follows_compare, Hf.
      * lia.
      * exact Hi.
      * cbn [setStep emit array compareStep].
        apply shifting_step; assumption.
      * split; [exact H1|]. split; [lia|]. split; [exact H3 | exact H4].
    + cbn [fst snd]. change (array (compareStep j (S j) r)) with (array r).
      split; [apply follows_compare, Hf|]. split; [lia|]. split; [exact Hsh|].
      apply shouldSwap_false in Hsw. intros p Hp.
      destruct Hsh as (_ & _ & S1 & _).
      destruct (decide (p = j)) as [->|Hne]; [exact Hsw|].
      eapply inOrder_trans; [|exact Hsw]. apply S1; lia.
Qed.

Lemma insertFrom_spec count : forall i r,
  follows initial r -> array r ≡ₚ initial ->
  length (array r) <= i + count -> (0 < count -> i + count = length (array r)) ->
  sortedRange d (array r) 0 i ->
  sorts d initial (insertFrom d count i r).
Proof.
  induction count as [|count IH]; intros i r Hf Hp Hn Hc Hs.
  - simpl. split; [exact Hf|]. split; [exact Hp|].
    apply sorted_by_index. intros p q Hpq Hq. apply Hs; lia.
  - cbn [insertFrom]. specialize (Hc ltac:(lia)).
    set (key := array r !!! i).
    destruct (insertShift_spec (array r) key i i r) as (H1 & H2 & H3 & H4);
      try assumption; try lia.
    { split; [reflexivity|]. split.
      - rewrite list_insert_id; [reflexivity|].
        apply list_lookup_lookup_total_lt. lia.
      - split; [exact Hs|]. split; [|split].
        + intros p q Hp0 Hpq Hq. lia.
        + intros p q Hp0 Hq0 Hq. lia.
        + intros q Hq0 Hq. lia. }
    destruct (insertShift d key i r) as [h r1]. cbn [fst snd] in *.
    destruct H3 as (Hl & Hperm & S1 & S2 & S3 & S4).
    apply IH.
    + apply follows_set, H1.
    + cbn [setStep emit array]. rewrite Hperm. exact Hp.
    + cbn [setStep emit array]. rewrite length_insert, Hl. lia.
    + cbn [setStep emit array]. rewrite length_insert, Hl. lia.
    + cbn [setStep emit array]. intros p q Hp0 Hpq Hq.
      destruct (decide (p = h)) as [->|Hph]; destruct (decide (q = h)) as [->|Hqh];
        try lia.
      * rewrite list_lookup_total_insert_eq by lia.
        rewrite list_lookup_total_insert_ne by lia. apply S4; lia.
      * rewrite list_lookup_total_insert_eq by lia.
        rewrite list_lookup_total_insert_ne by lia. apply H4; lia.
      * rewrite !list_lookup_total_insert_ne by lia.
        destruct (decide (q < h)); [apply S1; lia|].
        destruct (decide (p < h)); [apply S3; lia | apply S2; lia].
Qed.

Lemma insertion_sorts : sorts d initial (insertion d (mkRun initial [])).
Proof.
  apply insertFrom_spec; simpl; try reflexivity; try lia.
  { apply follows_start. }
  intros p q Hp Hpq Hq. replace p with 0 by lia.
  assert (q = 0) by lia. lia.
Qed.

End InsertionSort.

(** ** Rearranging a range *)

Section Rearranged.
Import Engine.
Local Open Scope nat_scope.

Lemma rearranged_refl a lo hi : rearranged a a lo hi.
Proof.
  split; [reflexivity|]. split; [reflexivity|]. split; [reflexivity|].
  intros k Hlo Hhi. exists k. auto.
Qed.

Lemma rearranged_trans a a' a'' lo hi :
  rearranged a a' lo hi -> rearranged a' a'' lo hi -> rearranged a a'' lo hi.
Proof.
  intros (L1 & P1 & O1 & I1) (L2 & P2 & O2 & I2).
  split; [congruence|]. split; [etrans; eassumption|]. split.
  - intros k Hk. rewrite O2, O1 by exact Hk. reflexivity.
  - intros k Hlo Hhi. destruct (I2 k Hlo Hhi) as (k' & Hlo' & Hhi' & E').
    destruct (I1 k' Hlo' Hhi') as (k'' & Hlo'' & Hhi'' & E'').
    exists k''. rewrite E', E''. auto.
Qed.

Lemma rearranged_widen a a' lo hi lo' hi' :
  rearranged a a' lo' hi' -> lo <= lo' -> hi' <= hi -> rearranged a a' lo hi.
Proof.
  intros (L & P & O & I) Hlo Hhi.
  split; [exact L|]. split; [exact P|]. split.
  - intros k Hk. apply O. lia.
  - intros k Hk1 Hk2.
    destruct (decide (lo' <= k /\ k <= hi')) as [[H1 H2]|Hout].
    + destruct (I k H1 H2) as (k' & H1' & H2' & E). exists k'.
      split; [lia|]. split; [lia | exact E].
    + exists k. split; [lia|]. split; [lia|]. apply O. lia.
Qed.

Lemma rearranged_swap a i j lo hi :
  lo <= i -> i <= hi -> lo <= j -> j <= hi -> hi < length a ->
  rearranged a (swapAt i j a) lo hi.
Proof.
  intros Hi1 Hi2 Hj1 Hj2 Hn.
  split; [apply length_swapAt|]. split; [apply swapAt_perm; lia|]. split.
  - intros k Hk. rewrite swapAt_lookup by lia.
    repeat case_decide; subst; lia.
  - intros k Hk1 Hk2. rewrite swapAt_lookup by lia.
    repeat case_decide; subst.
    + exists j. auto.
    + exists i. auto.
    + exists k. auto.
Qed.

End Rearranged.

(** ** Quick *)

Section QuickSort.
Import Engine.
Local Open Scope nat_scope.
Context (d : Direction) (initial : list Z).

Lemma array_swap_unless i j r :
  array (if i =? j then r else swapStep i j r) = swapAt i j (array r).
Proof.
  destruct (i =? j) eqn:E.
  - apply Nat.eqb_eq in E. subst j. rewrite swapAt_same. reflexivity.
  - reflexivity.
Qed.

Lemma follows_swap_unless i j r :
  follows initial r -> follows initial (if i =? j then r else swapStep i j r).
Proof.
  intros H. destruct (i =? j); [exact H | apply follows_swap, H].
Qed.

Lemma partitionLoop_spec a0 lo hi count : forall j i r,
  follows initial r ->
  lo <= i -> i <= j -> j + count = hi -> hi < length a0 ->
  rearranged a0 (array r) lo (hi - 1) ->
  (forall k, lo <= k -> k < i -> inOrder d (array r !!! k) (a0 !!! hi)) ->
  (forall k, i <= k -> k < j -> inOrder d (a0 !!! hi) (array r !!! k)) ->
  follows initial (partitionLoop d count j i hi r).2
  /\ lo <= (partitionLoop d count j i hi r).1
  /\ (partitionLoop d count j i hi r).1 <= hi
  /\ rearranged a0 (array (partitionLoop d count j i hi r).2) lo (hi - 1)
  /\ (forall k, lo <= k -> k < (partitionLoop d count j i hi r).1 ->
        inOrder d (array (partitionLoop d count j i hi r).2 !!! k) (a0 !!! hi))
  /\ (forall k, (partitionLoop d count j i hi r).1 <= k -> k < hi ->
        inOrder d (a0 !!! hi) (array (partitionLoop d count j i hi r).2 !!! k)).
Proof.
  induction count as [|count IH]; intros j i r Hf Hi Hij Hn Hhi Hr L1 L2.
  - simpl. assert (j = hi) by lia. subst j.
    split; [exact Hf|]. split; [exact Hi|]. split; [exact Hij|].
    split; [exact Hr|]. split; [exact L1 | exact L2].
  - cbn [partitionLoop]. change (array (compareStep j hi r)) with (array r).
    assert (Hpv : array r !!! hi = a0 !!! hi).
    { destruct Hr as (_ & _ & O & _). apply O. lia. }
    assert (Hlen : length (array r) = length a0) by (destruct Hr as [L _]; exact L).
    rewrite Hpv.
    destruct (shouldSwap d (array r !!! j) (a0 !!! hi)) eqn:Hsw.
    + apply shouldSwap_true in Hsw.
      apply IH; try assumption; try lia.
      * apply follows_compare, Hf.
      * intros k Hk1 Hk2. change (array (compareStep j hi r)) with (array r).
        destruct (decide (k = j)) as [->|Hne]; [exact Hsw | apply L2; lia].
    + apply shouldSwap_false in Hsw.
      apply IH; try lia.
      * apply follows_swap_unless, follows_compare, Hf.
      * rewrite array_swap_unless.
        change (array (compareStep j hi r)) with (array r).
        eapply rearranged_trans; [exact Hr|].
        apply rearranged_swap; lia.
      * rewrite array_swap_unless.
        change (array (compareStep j hi r)) with (array r).
        intros k Hk1 Hk2. rewrite swapAt_lookup by lia.
        repeat case_decide; subst; try lia; try exact Hsw.
        apply L1; lia.
      * rewrite array_swap_unless.
        change (array (compareStep j hi r)) with (array r).
        intros k Hk1 Hk2. rewrite swapAt_lookup by lia.
        repeat case_decide; subst; try lia; apply L2; lia.
Qed.

Lemma partition_spec lo hi r :
  follows initial r -> lo < hi -> hi < length (array r) ->
  follows initial (partition d lo hi r).2
  /\ lo <= (partition d lo hi r).1
  /\ (partition d lo hi r).1 <= hi
  /\ rearranged (array r) (array (partition d lo hi r).2) lo hi
  /\ (forall k, lo <= k -> k < (partition d lo hi r).1 ->
        inOrder d (array (partition d lo hi r).2 !!! k)
                  (array (partition d lo hi r).2 !!! (partition d lo hi r).1))
  /\ (forall k, (partition d lo hi r).1 < k -> k <= hi ->
        inOrder d (array (partition d lo hi r).2 !!! (partition d lo hi r).1)
                  (array (partition d lo hi r).2 !!! k)).
Proof.
  intros Hf Hlt Hhi. unfold partition.
  destruct (partitionLoop_spec (array r) lo hi (hi - lo) lo lo (pivotStep hi r))
    as (H1 & H2 & H3 & H4 & H5 & H6); try lia.
  - apply follows_pivot, Hf.
  - apply rearranged_refl.
  - destruct (partitionLoop d (hi - lo) lo lo hi (pivotStep hi r)) as [i r1].
    cbn [fst snd] in *.
    assert (Hlen : length (array r1) = length (array r))
      by (destruct H4 as [L _]; exact L).
    assert (Hpv : array r1 !!! hi = array r !!! hi).
    { destruct H4 as (_ & _ & O & _). apply O. lia. }
    split; [apply follows_swap_unless, H1|]. split; [exact H2|].
    split; [exact H3|]. rewrite array_swap_unless. split.
    + eapply rearranged_trans.
      * eapply rearranged_widen; [exact H4 | lia | lia].
      * apply rearranged_swap; lia.
    + split.
      * intros k Hk1 Hk2. rewrite !swapAt_lookup by lia.
        repeat case_decide; subst; try lia.
        rewrite Hpv. apply H5; lia.
      * intros k Hk1 Hk2. rewrite !swapAt_lookup by lia.
        repeat case_decide; subst; try lia.
        -- rewrite Hpv. apply H6; lia.
        -- rewrite Hpv. apply H6; lia.
Qed.

Lemma quickRange_spec fuel : forall lo hi r,
  follows initial r ->
  (lo < hi -> hi < length (array r) /\ hi + 1 - lo <= fuel) ->
  follows initial (quickRange d fuel lo hi r)
  /\ rearranged (array r) (array (quickRange d fuel lo hi r)) lo hi
  /\ sortedRange d (array (quickRange d fuel lo hi r)) lo (hi + 1).
Proof.
  induction fuel as [|fuel IH]; intros lo hi r Hf Hb.
  - simpl. split; [exact Hf|]. split; [apply rearranged_refl|].
    intros i j Hi Hij Hj. lia.
  - cbn [quickRange]. destruct (lo <? hi) eqn:Hlt.
    + apply Nat.ltb_lt in Hlt. destruct (Hb Hlt) as [Hhi Hfuel].
      destruct (partition_spec lo hi r Hf Hlt Hhi)
        as (P1 & P2 & P3 & P4 & P5 & P6).
      destruct (partition d lo hi r) as [p r1]. cbn [fst snd] in *.
      assert (Hl1 : length (array r1) = length (array r))
        by (destruct P4 as [L _]; exact L).
      destruct (IH lo (p - 1) r1 P1) as (A1 & A2 & A3); [lia|].
      set (r2 := quickRange d fuel lo (p - 1) r1) in *.
      assert (Hl2 : length (array r2) = length (array r1))
        by (destruct A2 as [L _]; exact L).
      destruct (IH (p + 1) hi r2 A1) as (B1 & B2 & B3); [lia|].
      set (r3 := quickRange d fuel (p + 1) hi r2) in *.
      split; [exact B1|]. split.
      * eapply rearranged_trans; [exact P4|].
        eapply rearranged_trans.
        -- eapply rearranged_widen; [exact A2 | lia | lia].
        -- eapply rearranged_widen; [exact B2 | lia | lia].
      * destruct A2 as (_ & _ & AO & AI). destruct B2 as (_ & _ & BO & BI).
        (* the pivot stays at [p]; the left part stays before it, the right
           part after it *)
        assert (Hp2 : array r2 !!! p = array r1 !!! p).
        { destruct (decide (lo < p)) as [Hlp|Hlp]; [apply AO; lia|].
          assert (p = lo) by lia. subst p.
          destruct (decide (lo = 0)) as [->|Hl0]; [|apply AO; lia].
          destruct (AI 0 ltac:(lia) ltac:(lia)) as (k' & K1 & K2 & E).
          rewrite E. f_equal. lia. }
        assert (Hp3 : array r3 !!! p = array r1 !!! p).
        { rewrite BO by lia. exact Hp2. }
        assert (Hleft : forall k, lo <= k -> k < p ->
                  inOrder d (array r3 !!! k) (array r1 !!! p)).
        { intros k Hk1 Hk2. rewrite BO by lia.
          destruct (AI k ltac:(lia) ltac:(lia)) as (k' & K1 & K2 & E).
          rewrite E. apply P5; lia. }
        assert (Hright : forall k, p < k -> k <= hi ->
                  inOrder d (array r1 !!! p) (array r3 !!! k)).
        { intros k Hk1 Hk2.
          destruct (BI k ltac:(lia) ltac:(lia)) as (k' & K1 & K2 & E).
          rewrite E, AO by lia. apply P6; lia. }
        intros i j Hi Hij Hj.
        destruct (decide (j < p)) as [Hjp|Hjp].
        { rewrite !BO by lia. apply A3; lia. }
        destruct (decide (p < i)) as [Hpi|Hpi].
        { apply B3; lia. }
        destruct (decide (i = p)) as [->|Hip].
        { rewrite Hp3. apply Hright; lia. }
        destruct (decide (j = p)) as [->|Hjp'].
        { rewrite Hp3. apply Hleft; lia. }
        eapply inOrder_trans; [apply Hleft; lia | apply Hright; lia].
    + split; [exact Hf|]. split; [apply rearranged_refl|].
      apply Nat.ltb_ge in Hlt. intros i j Hi Hij Hj. lia.
Qed.

Lemma quick_sorts : sorts d initial (quick d (mkRun initial [])).
Proof.
  unfold quick. cbn [array].
  destruct (quickRange_spec (length initial) 0 (length initial - 1)
              (mkRun initial [])) as (H1 & H2 & H3).
  - apply follows_start.
  - cbn [array]. intros H. lia.
  - cbn [array] in *. destruct H2 as (L & P & _ & _).
    split; [exact H1|]. split; [exact P|].
    apply sorted_by_index. intros i j Hij Hj. apply H3; lia.
Qed.

End QuickSort.

(** ** Merge *)

Section MergeSort.
Import Engine.
Local Open Scope nat_scope.
Context (d : Direction) (initial : list Z).

Lemma mergeHalves_nil_l li rs ri k r :
  mergeHalves d [] li rs ri k r = writeAll rs k r.
Proof. destruct rs; reflexivity. Qed.

Lemma mergeHalves_nil_r ls li ri k r :
  mergeHalves d ls li [] ri k r = writeAll ls k r.
Proof. destruct ls; reflexivity. Qed.

Lemma mergeHalves_cons x ls li y rs ri k r :
  mergeHalves d (x :: ls) li (y :: rs) ri k r
  = if shouldSwap d x y
    then mergeHalves d (x :: ls) li rs (ri + 1) (k + 1)
           (writeStep k y (compareStep li ri r))
    else mergeHalves d ls (li + 1) (y :: rs) ri (k + 1)
           (writeStep k x (compareStep li ri r)).
Proof. reflexivity. Qed.

Lemma insert_middle (pre post : list Z) o x :
  <[length pre := x]> (pre ++ o :: post) = pre ++ x :: post.
Proof.
  rewrite insert_app_r_alt by lia.
  replace (length pre - length pre) with 0 by lia. reflexivity.
Qed.

Lemma writeAll_spec xs : forall k r pre old post,
  follows initial r ->
  array r = pre ++ old ++ post -> length pre = k -> length old = length xs ->
  follows initial (writeAll xs k r)
  /\ array (writeAll xs k r) = pre ++ xs ++ post.
Proof.
  induction xs as [|x xs IH]; intros k r pre old post Hf Ha Hk Hl.
  - destruct old; [|discriminate]. simpl. auto.
  - destruct old as [|o old]; [discriminate|]. cbn [writeAll].
    destruct (IH (k + 1) (writeStep k x r) (pre ++ [x]) old post)
      as [H1 H2].
    + apply follows_write, Hf.
    + cbn [writeStep emit array]. rewrite Ha. subst k. simpl app.
      rewrite insert_middle, <- app_assoc. reflexivity.
    + rewrite length_app. simpl. lia.
    + simpl in Hl. lia.
    + split; [exact H1|]. rewrite H2, <- app_assoc. reflexivity.
Qed.

Lemma sorted_cons_perm x (m rest : list Z) :
  StronglySorted (inOrder d) m -> m ≡ₚ rest ->
  Forall (inOrder d x) rest ->
  StronglySorted (inOrder d) (x :: m).
Proof.
  intros Hs Hp Hall. constructor; [exact Hs|]. rewrite Hp. exact Hall.
Qed.

Lemma mergeHalves_spec ls : forall li rs ri k r pre old post,
  follows initial r ->
  array r = pre ++ old ++ post -> length pre = k ->
  length old = length ls + length rs ->
  exists m,
    follows initial (mergeHalves d ls li rs ri k r)
    /\ array (mergeHalves d ls li rs ri k r) = pre ++ m ++ post
    /\ m ≡ₚ ls ++ rs
    /\ (StronglySorted (inOrder d) ls -> StronglySorted (inOrder d) rs ->
        StronglySorted (inOrder d) m).
Proof.
  induction ls as [|x ls IHl]; intros li rs.
  - intros ri k r pre old post Hf Ha Hk Hl. rewrite mergeHalves_nil_l.
    destruct (writeAll_spec rs k r pre old post) as [H1 H2]; try assumption.
    exists rs. split; [exact H1|]. split; [exact H2|]. split; [reflexivity|].
    auto.
  - induction rs as [|y rs IHr]; intros ri k r pre old post Hf Ha Hk Hl.
    + rewrite mergeHalves_nil_r.
      destruct (writeAll_spec (x :: ls) k r pre old post) as [H1 H2];
        try assumption; [simpl in *; lia|].
      exists (x :: ls). split; [exact H1|]. split; [exact H2|].
      split; [rewrite app_nil_r; reflexivity | auto].
    + rewrite mergeHalves_cons.
      destruct old as [|o old]; [discriminate|].
      assert (Ha' : forall v,
                 array (writeStep k v (compareStep li ri r))
                 = (pre ++ [v]) ++ old ++ post).
      { intros v. cbn [writeStep emit array compareStep]. rewrite Ha. subst k.
        simpl app. rewrite insert_middle, <- app_assoc. reflexivity. }
      assert (Hf' : forall v,
                 follows initial (writeStep k v (compareStep li ri r))).
      { intros v. apply follows_write, follows_compare, Hf. }
      destruct (shouldSwap d x y) eqn:Hsw.
      * apply shouldSwap_true in Hsw.
        destruct (IHr (ri + 1) (k + 1) (writeStep k y (compareStep li ri r))
                    (pre ++ [y]) old post) as (m & M1 & M2 & M3 & M4).
        -- apply Hf'.
        -- apply Ha'.
        -- rewrite length_app. simpl. lia.
        -- simpl in Hl. simpl. lia.
        -- exists (y :: m). split; [exact M1|]. split.
           { rewrite M2, <- app_assoc. reflexivity. }
           split.
           { rewrite M3. apply Permutation_middle. }
           intros Sl Sr. apply (sorted_cons_perm y m ((x :: ls) ++ rs)).
           ++ apply M4; [exact Sl|]. inversion Sr; assumption.
           ++ exact M3.
           ++ apply Forall_app. split.
              ** inversion Sl as [|? ? ? Hx]; subst. constructor; [exact Hsw|].
                 eapply Forall_impl; [exact Hx|]. intros z Hz.
                 eapply inOrder_trans; eassumption.
              ** inversion Sr; assumption.
      * apply shouldSwap_false in Hsw.
        destruct (IHl (li + 1) (y :: rs) ri (k + 1)
                    (writeStep k x (compareStep li ri r))
                    (pre ++ [x]) old post) as (m & M1 & M2 & M3 & M4).
        -- apply Hf'.
        -- apply Ha'.
        -- rewrite length_app. simpl. lia.
        -- simpl in Hl. simpl. lia.
        -- exists (x :: m). split; [exact M1|]. split.
           { rewrite M2, <- app_assoc. reflexivity. }
           split.
           { rewrite M3. reflexivity. }
           intros Sl Sr. apply (sorted_cons_perm x m (ls ++ y :: rs)).
           ++ apply M4; [|exact Sr]. inversion Sl; assumption.
           ++ exact M3.
           ++ apply Forall_app. split.
              ** inversion Sl; assumption.
              ** inversion Sr as [|? ? ? Hy]; subst. constructor; [exact Hsw|].
                 eapply Forall_impl; [exact Hy|]. intros z Hz.
                 eapply inOrder_trans; eassumption.
Qed.

Lemma mergeRange_spec fuel : forall lo hi r pre mid post,
  follows initial r ->
  array r = pre ++ mid ++ post -> length pre = lo -> lo + length mid = hi ->
  (2 <= length mid -> length mid <= fuel) ->
  exists m,
    follows initial (mergeRange d fuel lo hi r)
    /\ array (mergeRange d fuel lo hi r) = pre ++ m ++ post
    /\ m ≡ₚ mid
    /\ StronglySorted (inOrder d) m.
Proof.
  induction fuel as [|fuel IH]; intros lo hi r pre mid post Hf Ha Hlo Hhi Hfuel.
  - simpl. exists mid. split; [exact Hf|]. split; [exact Ha|].
    split; [reflexivity|].
    destruct mid as [|x [|y mid]]; [constructor| |simpl in Hfuel; lia].
    constructor; constructor.
  - cbn [mergeRange]. destruct (hi - lo <? 2) eqn:Hsmall.
    + apply Nat.ltb_lt in Hsmall. exists mid.
      split; [exact Hf|]. split; [exact Ha|]. split; [reflexivity|].
      destruct mid as [|x [|y mid]]; [constructor| |simpl in Hhi; lia].
      constructor; constructor.
    + apply Nat.ltb_ge in Hsmall.
      set (h := (hi - lo) / 2).
      assert (Hh : 1 <= h /\ h < length mid).
      { unfold h. replace (hi - lo) with (length mid) by lia.
        split.
        - apply (Nat.div_le_lower_bound _ 2 1); lia.
        - apply Nat.Div0.div_lt_upper_bound; lia. }
      set (left := take h mid). set (right := drop h mid).
      assert (Hmid : mid = left ++ right)
        by (unfold left, right; rewrite take_drop; reflexivity).
      assert (Hll : length left = h) by (unfold left; rewrite length_take; lia).
      assert (Hlr : length right = length mid - h)
        by (unfold right; rewrite length_drop; lia).
      destruct (IH lo (lo + h) r pre left (right ++ post))
        as (l' & A1 & A2 & A3 & A4); try assumption; try lia.
      { rewrite Ha, Hmid, <- app_assoc. reflexivity. }
      set (r1 := mergeRange d fuel lo (lo + h) r) in *.
      assert (Hll' : length l' = h) by (rewrite A3; exact Hll).
      destruct (IH (lo + h) hi r1 (pre ++ l') right post)
        as (r' & B1 & B2 & B3 & B4); try assumption; try lia.
      { rewrite A2, <- app_assoc. reflexivity. }
      { rewrite length_app. lia. }
      set (r2 := mergeRange d fuel (lo + h) hi r1) in *.
      assert (Hlr' : length r' = length mid - h) by (rewrite B3; exact Hlr).
      assert (Els : take (lo + h - lo) (drop lo (array r2)) = l').
      { rewrite B2, <- !app_assoc. rewrite <- Hlo, drop_app_length.
        replace (length pre + h - length pre) with (length l') by lia.
        apply take_app_length. }
      assert (Ers : take (hi - (lo + h)) (drop (lo + h) (array r2)) = r').
      { rewrite B2. replace (lo + h) with (length (pre ++ l'))
          by (rewrite length_app; lia).
        rewrite drop_app_length.
        replace (hi - length (pre ++ l')) with (length r')
          by (rewrite length_app; lia).
        apply take_app_length. }
      rewrite Els, Ers.
      destruct (mergeHalves_spec l' lo r' (lo + h) lo r2 pre (l' ++ r') post)
        as (m & M1 & M2 & M3 & M4); try assumption.
      { rewrite B2, <- !app_assoc. reflexivity. }
      { rewrite length_app. reflexivity. }
      exists m. split; [exact M1|]. split; [exact M2|]. split.
      * rewrite M3, A3, B3, Hmid. reflexivity.
      * apply M4; assumption.
Qed.

Lemma mergeSort_sorts : sorts d initial (mergeSort d (mkRun initial [])).
Proof.
  unfold mergeSort. cbn [array].
  destruct (mergeRange_spec (length initial) 0 (length initial)
              (mkRun initial []) [] initial []) as (m & H1 & H2 & H3 & H4).
  - apply follows_start.
  - cbn [array]. rewrite app_nil_r. reflexivity.
  - reflexivity.
  - reflexivity.
  - auto.
  - rewrite app_nil_r in H2. simpl in H2.
    split; [exact H1|]. rewrite H2. split; [exact H3 | exact H4].
Qed.

End MergeSort.

(** ** Heap *)

Section HeapSort.
Import Engine.
Local Open Scope nat_scope.
Context (d : Direction) (initial : list Z).

Lemma pickTop_cases (a : list Z) i n :
  let top := pickTop d a i n in
  (top = i \/ (top = 2 * i + 1 /\ top < n) \/ (top = 2 * i + 2 /\ top < n))
  /\ inOrder d (a !!! i) (a !!! top)
  /\ (2 * i + 1 < n -> inOrder d (a !!! (2 * i + 1)) (a !!! top))
  /\ (2 * i + 2 < n -> inOrder d (a !!! (2 * i + 2)) (a !!! top)).
Proof.
  unfold pickTop. cbv zeta.
  replace (2 * i + 1 + 1) with (2 * i + 2) by lia.
  destruct (Nat.ltb_spec (2 * i + 1) n) as [E1|E1];
    destruct (Nat.ltb_spec (2 * i + 2) n) as [E2|E2]; cbn [andb].
  - destruct (shouldSwap d (a !!! (2 * i + 1)) (a !!! i)) eqn:S1.
    + apply shouldSwap_true in S1.
      destruct (shouldSwap d (a !!! (2 * i + 2)) (a !!! (2 * i + 1))) eqn:S2.
      * apply shouldSwap_true in S2.
        split; [right; right; split; [reflexivity | lia]|].
        split; [eapply inOrder_trans; eassumption|].
        split; intros _; [exact S2 | apply inOrder_refl].
      * apply shouldSwap_false in S2.
        split; [right; left; split; [reflexivity | lia]|].
        split; [exact S1|]. split; intros _; [apply inOrder_refl | exact S2].
    + apply shouldSwap_false in S1.
      destruct (shouldSwap d (a !!! (2 * i + 2)) (a !!! i)) eqn:S2.
      * apply shouldSwap_true in S2.
        split; [right; right; split; [reflexivity | lia]|].
        split; [exact S2|].
        split; intros _; [eapply inOrder_trans; eassumption | apply inOrder_refl].
      * apply shouldSwap_false in S2.
        split; [left; reflexivity|]. split; [apply inOrder_refl|].
        split; intros _; assumption.
  - destruct (shouldSwap d (a !!! (2 * i + 1)) (a !!! i)) eqn:S1.
    + apply shouldSwap_true in S1.
      split; [right; left; split; [reflexivity | lia]|].
      split; [exact S1|]. split; intros H; [apply inOrder_refl | lia].
    + apply shouldSwap_false in S1.
      split; [left; reflexivity|]. split; [apply inOrder_refl|].
      split; intros H; [exact S1 | lia].
  - exfalso. lia.
  - split; [left; reflexivity|]. split; [apply inOrder_refl|].
    split; intros H; lia.
Qed.

(** One level of [siftDown]: some [compare] steps, then either nothing or a
    [swap] with the index [pickTop] names and the next level. *)
Lemma siftDown_level fuel i n r :
  exists r',
    array r' = array r
    /\ (follows initial r -> follows initial r')
    /\ siftDown d (S fuel) i n r
       = if pickTop d (array r) i n =? i then r'
         else siftDown d fuel (pickTop d (array r) i n) n
                (swapStep i (pickTop d (array r) i n) r').
Proof.
  cbn [siftDown]. unfold pickTop.
  destruct (2 * i + 1 <? n) eqn:E1; destruct (2 * i + 1 + 1 <? n) eqn:E2;
    cbn [andb].
  - change (array (compareStep (2 * i + 1) i r)) with (array r).
    destruct (shouldSwap d (array r !!! (2 * i + 1)) (array r !!! i)).
    + change (array (compareStep (2 * i + 1 + 1) (2 * i + 1)
                       (compareStep (2 * i + 1) i r))) with (array r).
      eexists. split; [|split; [|reflexivity]].
      * reflexivity.
      * intros H. apply follows_compare, follows_compare, H.
    + change (array (compareStep (2 * i + 1 + 1) i
                       (compareStep (2 * i + 1) i r))) with (array r).
      eexists. split; [|split; [|reflexivity]].
      * reflexivity.
      * intros H. apply follows_compare, follows_compare, H.
  - change (array (compareStep (2 * i + 1) i r)) with (array r).
    eexists. split; [|split; [|reflexivity]].
    + reflexivity.
    + intros H. apply follows_compare, H.
  - change (array (compareStep (2 * i + 1 + 1) i r)) with (array r).
    eexists. split; [|split; [|reflexivity]].
    + reflexivity.
    + intros H. apply follows_compare, H.
  - exists r. split; [reflexivity|]. split; [auto | reflexivity].
Qed.

Lemma siftDown_spec n lo fuel : forall i r,
  follows initial r -> n <= length (array r) -> lo <= i -> n - i <= fuel ->
  (forall p, lo <= p -> p <> i -> heapOk d (array r) n p) ->
  (forall p c, lo <= p -> i = 2 * p + 1 \/ i = 2 * p + 2 ->
     c = 2 * i + 1 \/ c = 2 * i + 2 -> c < n ->
     inOrder d (array r !!! c) (array r !!! p)) ->
  follows initial (siftDown d fuel i n r)
  /\ rearranged (array r) (array (siftDown d fuel i n r)) 0 (n - 1)
  /\ heapFrom d (array (siftDown d fuel i n r)) n lo.
Proof.
  induction fuel as [|fuel IH]; intros i r Hf Hn Hlo Hfuel H1 H2.
  - simpl. split; [exact Hf|]. split; [apply rearranged_refl|].
    intros p Hp. destruct (decide (p = i)) as [->|Hne]; [|apply H1; assumption].
    split; intros H; lia.
  - destruct (siftDown_level fuel i n r) as (r' & Ea & Ef & ->).
    pose proof (pickTop_cases (array r) i n) as (Hc & T0 & T1 & T2).
    cbv zeta in Hc, T0, T1, T2.
    set (top := pickTop d (array r) i n) in *. clearbody top.
    destruct (top =? i) eqn:Et.
    + apply Nat.eqb_eq in Et. rewrite Et in *.
      split; [apply Ef, Hf|]. rewrite Ea. split; [apply rearranged_refl|].
      intros p Hp. destruct (decide (p = i)) as [->|Hne]; [|apply H1; assumption].
      split; assumption.
    + apply Nat.eqb_neq in Et.
      assert (Htop : (top = 2 * i + 1 \/ top = 2 * i + 2) /\ top < n)
        by (destruct Hc as [?|[[? ?]|[? ?]]]; [congruence | auto | auto]).
      destruct Htop as [Hchild Htn].
      set (a' := swapAt i top (array r)).
      assert (Hi : i < length (array r)) by lia.
      assert (Ht : top < length (array r)) by lia.
      destruct (IH top (swapStep i top r')) as (R1 & R2 & R3).
      * apply follows_swap, Ef, Hf.
      * cbn [swapStep emit array]. rewrite Ea, length_swapAt. exact Hn.
      * lia.
      * lia.
      * cbn [swapStep emit array]. rewrite Ea. fold a'.
        intros p Hp Hpt.
        assert (Hch : forall c, c = 2 * p + 1 \/ c = 2 * p + 2 -> c < n ->
                  inOrder d (a' !!! c) (a' !!! p)).
        { intros c Hc' Hcn. unfold a'. rewrite !swapAt_lookup by lia.
          destruct (decide (p = i)) as [->|Hpi].
          - (* the parent of the two children *)
            destruct (decide (c = i)) as [->|Hci]; [lia|].
            destruct (decide (c = top)) as [->|Hct]; [exact T0|].
            destruct Hc' as [->| ->]; [apply T1 | apply T2]; lia.
          - destruct (H1 p Hp Hpi) as [K1 K2].
            destruct (decide (p = top)) as [->|_]; [congruence|].
            destruct (decide (c = i)) as [->|Hci].
            + apply (H2 p top); try lia.
            + destruct (decide (c = top)) as [->|Hct]; [lia|].
              destruct Hc' as [->| ->]; [apply K1 | apply K2]; lia. }
        split; intros Hlt; apply Hch; lia.
      * cbn [swapStep emit array]. rewrite Ea. fold a'.
        intros p c Hp Hpar Hc' Hcn. unfold a'.
        assert (p = i) by lia. subst p.
        rewrite !swapAt_lookup by lia.
        destruct (H1 top ltac:(lia) ltac:(lia)) as [K1 K2].
        repeat case_decide; subst; try lia.
        destruct Hc' as [->| ->]; [apply K1 | apply K2]; lia.
      * cbn [swapStep emit array] in R2. rewrite Ea in R2.
        split; [exact R1|]. split; [|exact R3].
        eapply rearranged_trans; [|exact R2].
        apply rearranged_swap; lia.
Qed.


Lemma sift_spec n lo i r :
  follows initial r -> n <= length (array r) -> lo <= i ->
  (forall p, lo <= p -> p <> i -> heapOk d (array r) n p) ->
  (forall p c, lo <= p -> i = 2 * p + 1 \/ i = 2 * p + 2 ->
     c = 2 * i + 1 \/ c = 2 * i + 2 -> c < n ->
     inOrder d (array r !!! c) (array r !!! p)) ->
  follows initial (sift d i n r)
  /\ rearranged (array r) (array (sift d i n r)) 0 (n - 1)
  /\ heapFrom d (array (sift d i n r)) n lo.
Proof.
  intros Hf Hn Hlo H1 H2. unfold sift.
  apply (siftDown_spec n lo n i (siftStep i r)); try assumption; try lia.
  apply follows_sift, Hf.
Qed.

Lemma buildHeap_spec n i : forall r,
  follows initial r -> n <= length (array r) ->
  heapFrom d (array r) n i ->
  follows initial (buildHeap d i n r)
  /\ rearranged (array r) (array (buildHeap d i n r)) 0 (n - 1)
  /\ heapFrom d (array (buildHeap d i n r)) n 0.
Proof.
  induction i as [|i IH]; intros r Hf Hn Hh.
  - simpl. split; [exact Hf|]. split; [apply rearranged_refl | exact Hh].
  - cbn [buildHeap].
    destruct (sift_spec n i i r) as (S1 & S2 & S3); try assumption; try lia.
    + intros p Hp Hne. apply Hh. lia.
    + destruct (IH (sift d i n r)) as (B1 & B2 & B3); try assumption.
      * destruct S2 as [L _]. lia.
      * split; [exact B1|]. split; [|exact B3].
        eapply rearranged_trans; eassumption.
Qed.

Lemma parent_exists k :
  1 <= k -> exists p, p < k /\ (k = 2 * p + 1 \/ k = 2 * p + 2).
Proof.
  intros Hk. destruct (Nat.Even_or_Odd k) as [[q Hq]|[q Hq]].
  - exists (q - 1). lia.
  - exists q. lia.
Qed.

Lemma heap_root (a : list Z) n :
  heapFrom d a n 0 -> forall k, k < n -> inOrder d (a !!! k) (a !!! 0).
Proof.
  intros Hh k. induction k as [k IH] using lt_wf_ind. intros Hk.
  destruct (decide (k = 0)) as [->|Hne]; [apply inOrder_refl|].
  destruct (parent_exists k) as (p & Hp & Hc); [lia|].
  destruct (Hh p ltac:(lia)) as [K1 K2].
  apply (inOrder_trans d _ (a !!! p)); [|apply IH; lia].
  destruct Hc as [->| ->]; [apply K1 | apply K2]; lia.
Qed.

Lemma extractAll_spec n : forall r,
  follows initial r -> array r ≡ₚ initial -> n <= length (array r) ->
  heapFrom d (array r) n 0 -> settled d (array r) n ->
  sorts d initial (extractAll d n r).
Proof.
  induction n as [|last IH]; intros r Hf Hp Hn Hh [Hs Hsp].
  - simpl. split; [exact Hf|]. split; [exact Hp|].
    apply sorted_by_index. intros i j Hij Hj. apply Hs; lia.
  - cbn [extractAll]. destruct (last =? 0) eqn:El.
    + apply Nat.eqb_eq in El. subst last.
      split; [exact Hf|]. split; [exact Hp|].
      apply sorted_by_index. intros i j Hij Hj.
      destruct (decide (i = 0)) as [->|Hne]; [apply Hsp; lia | apply Hs; lia].
    + apply Nat.eqb_neq in El.
      pose proof (heap_root _ _ Hh) as Hroot.
      set (a1 := swapAt 0 last (array r)).
      assert (Hl1 : length a1 = length (array r)) by apply length_swapAt.
      destruct (sift_spec last 0 0 (swapStep 0 last r))
        as (S1 & S2 & S3).
      * apply follows_swap, Hf.
      * cbn [swapStep emit array]. fold a1. lia.
      * lia.
      * cbn [swapStep emit array]. fold a1. intros p _ Hp0.
        destruct (Hh p ltac:(lia)) as [K1 K2].
        unfold heapOk, a1. split; intros Hlt;
          rewrite !swapAt_lookup by lia;
          repeat case_decide; subst; try lia; [apply K1 | apply K2]; lia.
      * intros p c _ Hpar. lia.
      * cbn [swapStep emit array] in S2, S3. fold a1 in S2, S3.
        set (r2 := sift d 0 last (swapStep 0 last r)) in *.
        destruct S2 as (L2 & P2 & O2 & I2).
        apply IH.
        -- exact S1.
        -- rewrite P2. unfold a1. rewrite swapAt_perm by lia. exact Hp.
        -- lia.
        -- exact S3.
        -- split.
           ++ intros i j Hi Hij Hj. rewrite L2, Hl1 in Hj.
              rewrite !O2 by lia. unfold a1. rewrite !swapAt_lookup by lia.
              repeat case_decide; subst; try lia.
              ** apply Hsp; lia.
              ** apply Hs; lia.
           ++ intros i j Hi Hj Hjn. rewrite L2, Hl1 in Hjn.
              destruct (I2 i ltac:(lia) ltac:(lia)) as (i' & _ & Hi' & ->).
              rewrite O2 by lia. unfold a1. rewrite !swapAt_lookup by lia.
              repeat case_decide; subst; try lia.
              ** apply Hroot; lia.
              ** apply Hsp; lia.
              ** apply Hroot; lia.
              ** apply Hsp; lia.
Qed.

Lemma heapSort_sorts : sorts d initial (heapSort d (mkRun initial [])).
Proof.
  unfold heapSort. cbn [array]. set (n := length initial).
  destruct (buildHeap_spec n (n / 2) (mkRun initial [])) as (B1 & B2 & B3).
  - apply follows_start.
  - cbn [array]. lia.
  - cbn [array]. intros p Hp.
    assert (n <= 2 * p + 1).
    { pose proof (Nat.div_mod_eq n 2) as E.
      pose proof (Nat.mod_upper_bound n 2 ltac:(lia)). lia. }
    split; intros H'; lia.
  - cbn [array] in B2. destruct B2 as (L & P & _ & _).
    unfold n in *. apply extractAll_spec; try assumption.
    + lia.
    + split.
      * intros i j Hi Hij Hj. lia.
      * intros i j Hi Hj Hjn. lia.
Qed.

End HeapSort.

(** ** All six generators *)

Section Generators.
Import Engine.
Local Open Scope nat_scope.

Lemma sortWith_sorts alg d initial :
  sorts d initial (sortWith alg d (mkRun initial [])).
Proof.
  destruct alg; simpl.
  - apply bubble_sorts.
  - apply insertion_sorts.
  - apply selection_sorts.
  - apply quick_sorts.
  - apply mergeSort_sorts.
  - apply heapSort_sorts.
Qed.

(** C1. For each of the six algorithms, both directions and every initial
    array (the valid NumberLists among them), the generated sequence ends
    with a [done] step; applying every step in order to the initial array
    gives the snapshot of that last step, which is sorted in the requested
    direction and is a permutation of the input. Along the way every step
    stands at its [stepIndex] and its snapshot is the array the steps up to
    it produce. *)
Theorem C1_generated_steps_sort_the_input
    (alg : Algorithm) (d : Direction) (initial : list Z) :
  exists final : Step,
    last (generate alg initial d) = Some final
    /\ kind final = Done
    /\ applySteps initial (generate alg initial d) = arraySnapshot final
    /\ StronglySorted (inOrder d) (arraySnapshot final)
    /\ arraySnapshot final ≡ₚ initial
    /\ forall n s, generate alg initial d !! n = Some s ->
         stepIndex s = n
         /\ applySteps initial (take (S n) (generate alg initial d))
            = arraySnapshot s.
Proof.
  destruct (sortWith_sorts alg d initial) as (Hf & Hp & Hs).
  pose proof (follows_done _ _ Hf) as [Hd Hall].
  unfold generate.
  set (r := sortWith alg d (mkRun initial [])) in *.
  exists (mkStep Done [] None (array r) (length (steps r))).
  split; [unfold doneStep, emit; cbn [steps]; apply last_snoc|].
  split; [reflexivity|].
  split; [exact Hd|]. split; [exact Hs|]. split; [exact Hp | exact Hall].
Qed.

(** The scenario of the specification: [5, 3, 4, 1, 2]. *)
Example scenario_bubble_ascending :
  arraySnapshot <$> last (generate Bubble [5; 3; 4; 1; 2]%Z Ascending)
  = Some [1; 2; 3; 4; 5]%Z.
Proof. vm_compute. reflexivity. Qed.

Example scenario_heap_descending :
  arraySnapshot <$> last (generate Heap [5; 3; 4; 1; 2]%Z Descending)
  = Some [5; 4; 3; 2; 1]%Z.
Proof. vm_compute. reflexivity. Qed.

End Generators.
(** * [showNotification]: every notification removes itself *)

Section Notifications.
Import DOM.
Local Open Scope nat_scope.

Lemma strictEquals_refl a : strictEquals a a = true.
Proof. induction a as [|c a IH]; [reflexivity|]. cbn. rewrite N.eqb_refl. exact IH. Qed.

Lemma getPropertyValue_setProperty name value s :
  getPropertyValue name (setProperty name value s) = value.
Proof.
  induction s as [|[n v] s IH]; cbn [setProperty getPropertyValue].
  - rewrite strictEquals_refl. reflexivity.
  - destruct (strictEquals n name) eqn:E; cbn [getPropertyValue]; rewrite E;
      [reflexivity | exact IH].
Qed.

Lemma sameCallback_eq a b : sameCallback a b = true <-> a = b.
Proof.
  destruct a, b; cbn; rewrite ?Nat.eqb_eq; split; intros H;
    try discriminate; try (injection H as ->); try subst; reflexivity.
Qed.

Lemma pendingIn_In cb ts :
  pendingIn cb ts = true <-> In cb (List.map handler ts).
Proof.
  unfold pendingIn. rewrite existsb_exists, in_map_iff. split.
  - intros (t & Ht & E). apply sameCallback_eq in E. eauto.
  - intros (t & E & Ht). exists t. split; [exact Ht|]. apply sameCallback_eq, E.
Qed.

Lemma pendingIn_eq cb ts ts' :
  (In cb (List.map handler ts) <-> In cb (List.map handler ts')) ->
  pendingIn cb ts = pendingIn cb ts'.
Proof.
  intros H. destruct (pendingIn cb ts) eqn:E1, (pendingIn cb ts') eqn:E2;
    try reflexivity.
  - apply pendingIn_In, H, pendingIn_In in E1. congruence.
  - apply pendingIn_In, H, pendingIn_In in E2. congruence.
Qed.

Lemma without_fresh n l : ~ In n l -> without n l = l.
Proof.
  unfold without. intros H. induction l as [|x l IH]; [reflexivity|].
  cbn [List.filter]. destruct (Nat.eqb_spec x n) as [->|Hx].
  - destruct H. left. reflexivity.
  - cbn [negb]. rewrite IH; [reflexivity|]. intros Hin. apply H. right. exact Hin.
Qed.

Lemma without_app n l k : without n (l ++ k) = without n l ++ without n k.
Proof. apply List.filter_app. Qed.

Lemma In_without m n l : In m (without n l) <-> In m l /\ m <> n.
Proof.
  unfold without. rewrite filter_In, negb_true_iff, Nat.eqb_neq. tauto.
Qed.

Lemma isChild_In n l : isChild n l = true <-> In n l.
Proof.
  unfold isChild. rewrite existsb_exists. split.
  - intros (x & Hx & E). apply Nat.eqb_eq in E. subst. exact Hx.
  - intros H. exists n. split; [exact H | apply Nat.eqb_refl].
Qed.

Lemma In_owner n ts :
  In n (omap owner ts)
  <-> In (SlideOut n) (List.map handler ts) \/ In (Detach n) (List.map handler ts).
Proof.
  induction ts as [|t ts IH]; [cbn; tauto|].
  cbn [omap list_omap List.map In]. unfold owner at 1.
  destruct (handler t) as [m|m|m]; cbn [In]; rewrite IH; intuition congruence.
Qed.

Lemma In_entering n ts :
  In n (omap entering ts) <-> In (SlideIn n) (List.map handler ts).
Proof.
  induction ts as [|t ts IH]; [cbn; tauto|].
  cbn [omap list_omap List.map In]. unfold entering at 1.
  destruct (handler t) as [m|m|m]; cbn [In]; rewrite IH; intuition congruence.
Qed.

Lemma In_targets cb ts (P : nat -> Prop) :
  Forall (fun t => P (target (handler t))) ts ->
  In cb (List.map handler ts) -> P (target cb).
Proof.
  intros H Hin. apply in_map_iff in Hin as (t & <- & Ht).
  rewrite List.Forall_forall in H. exact (H t Ht).
Qed.

Lemma ordered_app ts extra : ordered ts -> ordered extra -> ordered (ts ++ extra).
Proof.
  intros H He. induction ts as [|t ts IH]; [exact He|].
  cbn [app ordered] in *. destruct H as [H1 H2]. split; [|exact (IH H2)].
  destruct (handler t); try exact I.
  rewrite List.map_app. apply in_or_app. left. exact H1.
Qed.

Lemma ordered_delete ts : forall k t,
  ts !! k = Some t ->
  (forall n, handler t = SlideOut n -> k = 0) ->
  ordered ts -> ordered (delete k ts).
Proof.
  induction ts as [|x ts IH]; intros k t Hk Hout H; [discriminate|].
  destruct H as [H1 H2]. destruct k as [|k]; [exact H2|].
  change (delete (S k) (x :: ts)) with (x :: delete k ts).
  change (ts !! k = Some t) in Hk. cbn [ordered]. split.
  - destruct (handler x) as [n|n|n] eqn:Ex; try exact I.
    apply in_map_iff in H1 as (u & Eu & Hu).
    apply in_map_iff. exists u. split; [exact Eu|].
    apply list_elem_of_In in Hu. apply list_elem_of_lookup in Hu as [j Hj].
    destruct (Nat.eq_dec j k) as [->|Hjk].
    + assert (u = t) by congruence. subst u.
      specialize (Hout _ Eu). discriminate.
    + apply list_elem_of_In, list_elem_of_lookup.
      destruct (Nat.lt_ge_cases j k).
      * exists j. rewrite list_lookup_delete_lt by lia. exact Hj.
      * exists (j - 1). rewrite list_lookup_delete_ge by lia.
        replace (S (j - 1)) with j by lia. exact Hj.
  - destruct (handler t) as [n|n|n] eqn:Et.
    + apply (IH k t Hk); [intros; congruence | exact H2].
    + specialize (Hout _ eq_refl). discriminate.
    + apply (IH k t Hk); [intros; congruence | exact H2].
Qed.

Lemma ordered_lookup ts : forall k t n,
  ordered ts -> ts !! k = Some t -> handler t = SlideIn n ->
  In (SlideOut n) (List.map handler (delete k ts)).
Proof.
  induction ts as [|x ts IH]; intros k t n H Hk Ht; [discriminate|].
  destruct H as [H1 H2]. destruct k as [|k].
  - change (Some x = Some t) in Hk. injection Hk as ->. rewrite Ht in H1. exact H1.
  - change (delete (S k) (x :: ts)) with (x :: delete k ts).
    change (ts !! k = Some t) in Hk.
    cbn [List.map In]. right. exact (IH k t n H2 Hk Ht).
Qed.

Lemma alter_last {A} (f : A -> A) l x :
  alter f (length l) (l ++ [x]) = l ++ [f x].
Proof. induction l as [|y l IH]; [reflexivity|]. cbn. f_equal. exact IH. Qed.

Lemma showNotification_page message type page :
  exists e,
    showNotification message type page
    = Normal tt
        (mkPage (elements page ++ [e])
           (without (length (elements page)) (body page) ++ [length (elements page)])
           (timers page ++ [mkTimer (SlideIn (length (elements page))) 100;
                            mkTimer (SlideOut (length (elements page))) 3000]))
    /\ getPropertyValue (lit "transform") (style e) = lit "translateX(100%)"
    /\ getPropertyValue (lit "position") (style e) = lit "fixed"
    /\ getPropertyValue (lit "top") (style e) = lit "20px"
    /\ getPropertyValue (lit "right") (style e) = lit "20px".
Proof.
  unfold showNotification, bind, createElement, setClassName, setTextContent,
    setCssText, setStyle, appendChild, setTimeout, update.
  cbn [elements body timers]. rewrite !alter_last. cbn [tagName className textContent style].
  rewrite <- app_assoc. eexists. split; [reflexivity|].
  repeat split; reflexivity.
Qed.

Lemma transform_alter_ne f n m page b t :
  n <> m ->
  transform m (mkPage (alter f n (elements page)) b t) = transform m page.
Proof.
  intros H. unfold transform. cbn [elements].
  rewrite list_lookup_alter_ne by exact H. reflexivity.
Qed.

Lemma transform_set n value page b t :
  n < length (elements page) ->
  transform n
    (mkPage (alter (fun e => mkElement (tagName e) (className e) (textContent e)
                               (setProperty (lit "transform") value (style e)))
               n (elements page)) b t)
  = value.
Proof.
  intros H. unfold transform. cbn [elements].
  rewrite list_lookup_alter_eq.
  destruct (lookup_lt_is_Some_2 _ _ H) as [e ->]. cbn [fmap option_fmap option_map style].
  apply getPropertyValue_setProperty.
Qed.

Lemma onScreen_eq n page page' :
  (In (SlideIn n) (List.map handler (timers page))
   <-> In (SlideIn n) (List.map handler (timers page'))) ->
  (In (SlideOut n) (List.map handler (timers page))
   <-> In (SlideOut n) (List.map handler (timers page'))) ->
  onScreen n page = onScreen n page'.
Proof.
  intros H1 H2. unfold onScreen, pending.
  rewrite (pendingIn_eq _ _ _ H1), (pendingIn_eq _ _ _ H2). reflexivity.
Qed.

Lemma In_handler_delete cb ts k t :
  ts !! k = Some t ->
  (In cb (List.map handler ts)
   <-> cb = handler t \/ In cb (List.map handler (delete k ts))).
Proof.
  intros Hk. pose proof (delete_Permutation _ _ _ Hk) as P.
  assert (Q : Permutation (List.map handler ts)
                (handler t :: List.map handler (delete k ts))).
  { change (handler t :: List.map handler (delete k ts))
      with (List.map handler (t :: delete k ts)).
    apply Permutation_map, P. }
  split.
  - intros H. apply (Permutation_in _ Q) in H. destruct H as [H|H]; auto.
  - intros H. apply (Permutation_in _ (Permutation_sym Q)).
    destruct H as [H|H]; [left; auto | right; exact H].
Qed.

Lemma base_bound c n : In n (seq 0 c) -> n < c.
Proof. rewrite in_seq. lia. Qed.

Lemma live_bound c page live :
  Forall (fun t => c <= target (handler t) < length (elements page)) (timers page) ->
  omap owner (timers page) ≡ₚ live ->
  forall n, In n live -> c <= n < length (elements page).
Proof.
  intros F P n Hn. apply (Permutation_in _ (Permutation_sym P)) in Hn.
  apply In_owner in Hn as [Hn|Hn];
    exact (In_targets _ _ (fun x => c <= x < length (elements page)) F Hn).
Qed.

Lemma mayRun_SlideOut k ts t n :
  Forall (fun t => milliseconds t = delayOf (handler t)) ts ->
  ts !! k = Some t -> handler t = SlideOut n -> mayRun k ts = true -> k = 0.
Proof.
  intros F Hk Ht. unfold mayRun. rewrite Hk. intros H.
  destruct k as [|k]; [reflexivity|]. exfalso.
  destruct ts as [|x ts]; [discriminate|].
  cbn [take firstn forallb] in H. apply andb_prop in H as [H _].
  apply Z.ltb_lt in H.
  rewrite List.Forall_forall in F.
  rewrite (F t), (F x), Ht in H.
  - destruct (handler x); cbn in H; lia.
  - left. reflexivity.
  - apply list_elem_of_In, list_elem_of_lookup. eauto.
Qed.

Lemma Invariant_load cs : Invariant cs (load cs).
Proof.
  exists []. cbn [load body elements timers].
  split; [rewrite app_nil_r; reflexivity|].
  split; [apply firstn_all|].
  split; [constructor|]. split; [constructor|].
  split; [reflexivity|]. split; [constructor|]. split; [constructor|].
  split; [exact I|]. intros n [].
Qed.

Lemma Invariant_Call cs page message type :
  Invariant cs page ->
  exists page',
    showNotification message type page = Normal tt page' /\ Invariant cs page'.
Proof.
  intros (live & Hb & He & Hnd & Ht & Ho & Hi & Hk & Hord & Htr).
  destruct (showNotification_page message type page) as (e & -> & Etr & _).
  set (n := length (elements page)) in *.
  eexists. split; [reflexivity|].
  assert (Hc : length cs <= n).
  { unfold n. rewrite <- He at 1. rewrite length_take. lia. }
  assert (Hlive : forall m, In m live -> length cs <= m < n)
    by exact (live_bound _ _ _ Ht Ho).
  assert (Hfresh : ~ In n (body page)).
  { rewrite Hb. intros [H|H]%in_app_or.
    - apply base_bound in H. lia.
    - apply Hlive in H. lia. }
  assert (Hin : forall cb, In cb (List.map handler (timers page)) -> target cb < n).
  { intros cb H.
    exact (proj2 (In_targets _ _ (fun x => length cs <= x < n) Ht H)). }
  exists (live ++ [n]). cbn [body elements timers].
  split; [rewrite (without_fresh _ _ Hfresh), Hb, <- app_assoc; reflexivity|].
  split; [rewrite take_app_le by lia; exact He|].
  split.
  { apply NoDup_app. split; [exact Hnd|]. split; [|apply NoDup_singleton].
    intros x Hx%list_elem_of_In%Hlive Hx'%list_elem_of_In.
    destruct Hx' as [<-|[]]. lia. }
  split.
  { apply Forall_app. split.
    - eapply List.Forall_impl; [|exact Ht]. cbn beta. intros t H.
      rewrite length_app. cbn [length]. fold n. lia.
    - repeat constructor; cbn [handler target]; try rewrite length_app;
        cbn [length]; fold n; lia. }
  split; [rewrite omap_app; cbn; rewrite Ho; reflexivity|].
  split.
  { rewrite omap_app. change (omap entering [_; _]) with [n].
    apply NoDup_app. split; [exact Hi|]. split; [|apply NoDup_singleton].
    intros x Hx%list_elem_of_In%In_entering%Hin Hx'%list_elem_of_In.
    destruct Hx' as [<-|[]]. cbn in Hx. lia. }
  split; [apply Forall_app; split; [exact Hk | repeat constructor]|].
  split.
  { apply ordered_app; [exact Hord|]. cbn. tauto. }
  intros m [Hm|Hm]%in_app_or.
  - pose proof (Hlive _ Hm) as Hmn.
    transitivity (transform m page).
    { unfold transform. cbn [elements]. rewrite lookup_app_l by (fold n; lia).
      reflexivity. }
    rewrite (Htr _ Hm).
    match goal with
    | |- _ = if onScreen m ?p then _ else _ => rewrite (onScreen_eq m page p)
    end; [reflexivity | ..]; cbn [timers];
      rewrite List.map_app, in_app_iff; cbn [List.map handler In];
      (split; [tauto|]); intros [H|[H|[H|[]]]];
      solve [exact H | discriminate | injection H; lia].
  - destruct Hm as [<-|[]].
    unfold transform. cbn [elements].
    rewrite list_lookup_middle by reflexivity. rewrite Etr.
    unfold onScreen, pending. cbn [timers].
    assert (P : pendingIn (SlideIn n) (timers page ++ [mkTimer (SlideIn n) 100;
                                                      mkTimer (SlideOut n) 3000]) = true).
    { apply pendingIn_In. rewrite List.map_app, in_app_iff. right. left. reflexivity. }
    rewrite P. reflexivity.
Qed.

Lemma remaining_cons x ts :
  remaining (x :: ts)
  = (match handler x with SlideOut _ => 2 | _ => 1 end) + remaining ts.
Proof. reflexivity. Qed.

Lemma remaining_delete ts : forall k t,
  ts !! k = Some t ->
  remaining ts
  = (match handler t with SlideOut _ => 2 | _ => 1 end) + remaining (delete k ts).
Proof.
  induction ts as [|x ts IH]; intros k t Hk; [discriminate|].
  destruct k as [|k].
  - change (Some x = Some t) in Hk. injection Hk as ->. reflexivity.
  - change (ts !! k = Some t) in Hk.
    change (delete (S k) (x :: ts)) with (x :: delete k ts).
    rewrite !remaining_cons, (IH k t Hk). lia.
Qed.

Lemma remaining_app ts extra : remaining (ts ++ extra) = remaining ts + remaining extra.
Proof. unfold remaining. rewrite List.map_app, list_sum_app. reflexivity. Qed.

Lemma NoDup_without n l : NoDup l -> NoDup (without n l).
Proof.
  induction 1 as [|x l Hx Hl IH]; [constructor|].
  unfold without. cbn [List.filter].
  destruct (negb (x =? n)); [|exact IH].
  constructor; [|exact IH].
  intros H%list_elem_of_In%In_without. apply Hx, list_elem_of_In, H.
Qed.

Lemma perm_without n (X live : list nat) :
  NoDup live -> n :: X ≡ₚ live -> X ≡ₚ without n live.
Proof.
  intros Hnd P.
  assert (Hx : NoDup (n :: X)) by (rewrite P; exact Hnd).
  apply NoDup_cons in Hx as [Hn Hx].
  apply NoDup_Permutation; [exact Hx | apply NoDup_without, Hnd|].
  intros x. rewrite !list_elem_of_In, In_without. split.
  - intros H. split.
    + apply (Permutation_in _ P). right. exact H.
    + intros ->. apply Hn, list_elem_of_In, H.
  - intros [H Hne]. apply (Permutation_in _ (Permutation_sym P)) in H.
    destruct H as [->|H]; [congruence | exact H].
Qed.

Lemma Invariant_Timeout cs page k t :
  Invariant cs page ->
  timers page !! k = Some t -> mayRun k (timers page) = true ->
  exists page',
    invoke (handler t)
      (mkPage (elements page) (body page) (delete k (timers page)))
    = Normal tt page'
    /\ Invariant cs page'
    /\ remaining (timers page') + 1 = remaining (timers page).
Proof.
  intros (live & Hb & He & Hnd & Ht & Ho & Hi & Hk & Hord & Htr) Hlook Hrun.
  set (ts := timers page) in *. set (ts0 := delete k ts).
  assert (Hc : length cs <= length (elements page)).
  { rewrite <- He at 1. rewrite length_take. lia. }
  assert (Hlive : forall m, In m live -> length cs <= m < length (elements page))
    by exact (live_bound _ _ _ Ht Ho).
  pose proof (delete_Permutation _ _ _ Hlook) as P. fold ts0 in P.
  assert (Htt : length cs <= target (handler t) < length (elements page)).
  { rewrite List.Forall_forall in Ht. apply Ht.
    apply list_elem_of_In, list_elem_of_lookup. eauto. }
  assert (Ht0 : Forall (fun t => length cs <= target (handler t) < length (elements page)) ts0)
    by (apply Forall_delete, Ht).
  assert (Hk0 : Forall (fun t => milliseconds t = delayOf (handler t)) ts0)
    by (apply Forall_delete, Hk).
  assert (Hord0 : ordered ts0).
  { apply (ordered_delete ts k t Hlook); [|exact Hord].
    intros n E. exact (mayRun_SlideOut k ts t n Hk Hlook E Hrun). }
  assert (Po : omap owner ts ≡ₚ omap owner (t :: ts0)) by (rewrite P at 1; reflexivity).
  assert (Pe : omap entering ts ≡ₚ omap entering (t :: ts0)) by (rewrite P at 1; reflexivity).
  pose proof (remaining_delete ts k t Hlook) as Hrem. fold ts0 in Hrem.
  assert (Hmem : forall cb, In cb (List.map handler ts)
                            <-> cb = handler t \/ In cb (List.map handler ts0))
    by (intros cb; apply In_handler_delete, Hlook).
  destruct (handler t) as [n|n|n] eqn:Et; cbn [invoke target] in *.
  - (* SlideIn *)
    unfold setStyle, update. cbn [elements body timers].
    eexists. split; [reflexivity|]. split; [|cbn [timers]; lia].
    cbn [omap list_omap] in Po, Pe. unfold owner at 2 in Po. unfold entering at 2 in Pe.
    rewrite Et in Po, Pe.
    assert (Hi0 : NoDup (n :: omap entering ts0)) by (rewrite <- Pe; exact Hi).
    apply NoDup_cons in Hi0 as [Hn Hi0].
    exists live. cbn [body elements timers].
    split; [exact Hb|].
    split; [rewrite take_alter_ge by lia; exact He|].
    split; [exact Hnd|].
    split; [eapply List.Forall_impl; [|exact Ht0]; cbn beta; intros;
            rewrite length_alter; assumption|].
    split; [rewrite <- Po; exact Ho|].
    split; [exact Hi0|]. split; [exact Hk0|]. split; [exact Hord0|].
    intros m Hm. destruct (Nat.eq_dec n m) as [<-|Hne].
    + rewrite transform_set by lia.
      unfold onScreen, pending. cbn [timers].
      assert (E1 : pendingIn (SlideIn n) ts0 = false).
      { destruct (pendingIn (SlideIn n) ts0) eqn:E; [|reflexivity].
        apply pendingIn_In, In_entering, list_elem_of_In in E. contradiction. }
      assert (E2 : pendingIn (SlideOut n) ts0 = true).
      { apply pendingIn_In. exact (ordered_lookup ts k t n Hord Hlook Et). }
      rewrite E1, E2. reflexivity.
    + rewrite transform_alter_ne by exact Hne. rewrite (Htr _ Hm).
      match goal with
      | |- _ = if onScreen m ?p then _ else _ => rewrite (onScreen_eq m page p)
      end; [reflexivity | ..]; cbn [timers]; fold ts; rewrite Hmem;
        (split; [intros [H|H]; [first [discriminate | congruence]
                               | exact H]
                | tauto]).
  - (* SlideOut *)
    unfold setStyle, setTimeout, update, bind. cbn [elements body timers].
    eexists. split; [reflexivity|].
    split; [|cbn [timers]; rewrite remaining_app; cbn; lia].
    cbn [omap list_omap] in Po, Pe. unfold owner at 2 in Po. unfold entering at 2 in Pe.
    rewrite Et in Po, Pe.
    assert (Ho0 : NoDup (n :: omap owner ts0)) by (rewrite <- Po, Ho; exact Hnd).
    apply NoDup_cons in Ho0 as [Hn Ho0].
    exists live. cbn [body elements timers].
    split; [exact Hb|].
    split; [rewrite take_alter_ge by lia; exact He|].
    split; [exact Hnd|].
    split.
    { apply Forall_app. split.
      - eapply List.Forall_impl; [|exact Ht0]; cbn beta; intros;
          rewrite length_alter; assumption.
      - repeat constructor; cbn [handler target]; rewrite ?length_alter; lia. }
    split.
    { rewrite omap_app. change (omap owner [_]) with [n].
      rewrite <- Ho, Po. symmetry. apply Permutation_cons_append. }
    split; [rewrite omap_app; change (omap entering [_]) with (@nil nat);
            rewrite app_nil_r, <- Pe; exact Hi|].
    split; [apply Forall_app; split; [exact Hk0 | repeat constructor]|].
    split; [apply ordered_app; [exact Hord0 | cbn; tauto]|].
    intros m Hm. destruct (Nat.eq_dec n m) as [<-|Hne].
    + rewrite transform_set by lia.
      unfold onScreen, pending. cbn [timers].
      assert (E2 : pendingIn (SlideOut n) (ts0 ++ [mkTimer (Detach n) 300]) = false).
      { destruct (pendingIn _ _) eqn:E; [|reflexivity].
        apply pendingIn_In in E. rewrite List.map_app, in_app_iff in E.
        destruct E as [E|[E|[]]]; [|discriminate].
        exfalso. apply Hn, list_elem_of_In, In_owner. left. exact E. }
      rewrite E2, andb_false_r. reflexivity.
    + rewrite transform_alter_ne by exact Hne. rewrite (Htr _ Hm).
      match goal with
      | |- _ = if onScreen m ?p then _ else _ => rewrite (onScreen_eq m page p)
      end; [reflexivity | ..]; cbn [timers]; fold ts;
        rewrite Hmem, List.map_app, in_app_iff; cbn [List.map handler In];
        (split; [intros [H|H]; [first [discriminate | congruence]
                               | tauto]
                | intros [H|[H|[]]]; [tauto | discriminate]]).
  - (* Detach *)
    cbn [omap list_omap] in Po, Pe. unfold owner at 2 in Po. unfold entering at 2 in Pe.
    rewrite Et in Po, Pe.
    assert (Hin : In n live).
    { apply (Permutation_in _ Ho), (Permutation_in _ (Permutation_sym Po)).
      left. reflexivity. }
    unfold removeChild. cbn [elements body timers].
    assert (Hchild : isChild n (body page) = true).
    { apply isChild_In. rewrite Hb. apply in_or_app. right. exact Hin. }
    rewrite Hchild. eexists. split; [reflexivity|]. split; [|cbn [timers]; lia].
    exists (without n live). cbn [body elements timers].
    split.
    { rewrite Hb, without_app. f_equal. apply without_fresh.
      intros H%base_bound. lia. }
    split; [exact He|].
    split; [apply NoDup_without, Hnd|].
    split; [exact Ht0|].
    split; [apply perm_without; [exact Hnd | rewrite <- Po; exact Ho]|].
    split; [rewrite <- Pe; exact Hi|].
    split; [exact Hk0|]. split; [exact Hord0|].
    intros m [Hm Hne]%In_without.
    transitivity (transform m page); [reflexivity|]. rewrite (Htr _ Hm).
    match goal with
    | |- _ = if onScreen m ?p then _ else _ => rewrite (onScreen_eq m page p)
    end; [reflexivity | ..]; cbn [timers]; fold ts; rewrite Hmem;
      (split; [intros [H|H]; [discriminate | exact H] | tauto]).
Qed.

Lemma run_Invariant cs events : forall page,
  Invariant cs page ->
  match run events page with
  | Some (Normal _ page') => Invariant cs page'
  | Some (Throw _) => False
  | None => True
  end.
Proof.
  induction events as [|e events IH]; intros page Hinv; [exact Hinv|].
  cbn [run]. destruct e as [message type|k]; cbn [step].
  - destruct (Invariant_Call cs page message type Hinv) as (page' & -> & Hinv').
    exact (IH _ Hinv').
  - destruct (timers page !! k) as [t|] eqn:Hk; [|exact I].
    destruct (mayRun k (timers page)) eqn:Hrun; [|exact I].
    destruct (Invariant_Timeout cs page k t Hinv Hk Hrun) as (page' & -> & Hinv' & _).
    exact (IH _ Hinv').
Qed.

Lemma reachable_Invariant cs events outcome :
  run events (load cs) = Some outcome ->
  exists page, outcome = Normal tt page /\ Invariant cs page.
Proof.
  intros E. pose proof (run_Invariant cs events _ (Invariant_load cs)) as H.
  rewrite E in H. destruct outcome as [[] page|e]; [|destruct H].
  exists page. split; [reflexivity | exact H].
Qed.

Lemma Invariant_notifications cs page live :
  body page = seq 0 (length cs) ++ live -> notifications cs page = live.
Proof.
  intros H. unfold notifications. rewrite H.
  apply drop_app_length'. rewrite length_seq. reflexivity.
Qed.

Lemma owner_exclusive ts n :
  NoDup (omap owner ts) ->
  In (SlideOut n) (List.map handler ts) -> In (Detach n) (List.map handler ts) ->
  False.
Proof.
  induction ts as [|t ts IH]; [intros _ []|].
  cbn [omap list_omap List.map In]. unfold owner at 1.
  destruct (handler t) as [m|m|m].
  - intros Hnd [H|H] [H'|H']; try discriminate. exact (IH Hnd H H').
  - intros [Hm Hnd]%NoDup_cons [H|H] [H'|H']; try discriminate.
    + injection H as ->. apply Hm, list_elem_of_In, In_owner. right. exact H'.
    + exact (IH Hnd H H').
  - intros [Hm Hnd]%NoDup_cons [H|H] [H'|H']; try discriminate.
    + injection H' as ->. apply Hm, list_elem_of_In, In_owner. left. exact H.
    + exact (IH Hnd H H').
Qed.

Lemma ordered_In ts n :
  ordered ts -> In (SlideIn n) (List.map handler ts) ->
  In (SlideOut n) (List.map handler ts).
Proof.
  induction ts as [|t ts IH]; [intros _ []|].
  cbn [ordered List.map In]. intros [H1 H2] [H|H].
  - rewrite H in H1. right. exact H1.
  - right. exact (IH H2 H).
Qed.

Lemma remaining_nil ts : remaining ts = 0 -> ts = [].
Proof.
  destruct ts as [|t ts]; [reflexivity|]. rewrite remaining_cons.
  destruct (handler t); lia.
Qed.

Lemma drain cs : forall fuel page,
  Invariant cs page -> remaining (timers page) = fuel ->
  exists page',
    run (repeat (Timeout 0) fuel) page = Some (Normal tt page')
    /\ Invariant cs page' /\ timers page' = [].
Proof.
  induction fuel as [|fuel IH]; intros page Hinv Hrem.
  - exists page. split; [reflexivity|]. split; [exact Hinv|].
    apply remaining_nil, Hrem.
  - destruct (timers page) as [|t ts] eqn:Ets; [discriminate|].
    assert (Hk : timers page !! 0 = Some t) by (rewrite Ets; reflexivity).
    assert (Hrun : mayRun 0 (timers page) = true) by (rewrite Ets; reflexivity).
    destruct (Invariant_Timeout cs page 0 t Hinv Hk Hrun) as (page' & E & Hinv' & Hr).
    rewrite Ets in Hr.
    destruct (IH page' Hinv' ltac:(lia)) as (page'' & Erun & Hinv'' & Hnil).
    exists page''. split; [|split; assumption].
    cbn [repeat run step]. rewrite Hk, Hrun, E. exact Erun.
Qed.

(** X13. [showNotification] never fails and leaves the page as it found
    it. Whatever the calls and whatever the order in which the browser runs
    the timers, no [removeChild] throws; the original children of the body
    stay first and in order, and no original element is changed; the
    notifications on the page are exactly the elements that still have a
    [SlideOut] or a [Detach] timer, so that once no timer is active the
    body has its original children again. *)
Theorem showNotification_cleans_up
    (children : list Element) (events : list Event) (outcome : Completion unit) :
  run events (load children) = Some outcome ->
  exists page,
    outcome = Normal tt page
    /\ body page = body (load children) ++ notifications children page
    /\ take (length children) (elements page) = children
    /\ (forall n, In n (notifications children page)
                  <-> pending (SlideOut n) page = true
                      \/ pending (Detach n) page = true)
    /\ (timers page = [] -> body page = body (load children)).
Proof.
  intros E. destruct (reachable_Invariant _ _ _ E) as (page & -> & Hinv).
  exists page. split; [reflexivity|].
  destruct Hinv as (live & Hb & He & Hnd & Ht & Ho & _).
  rewrite (Invariant_notifications _ _ _ Hb). cbn [load body].
  split; [exact Hb|]. split; [exact He|]. split.
  - intros n. unfold pending. rewrite !pendingIn_In, <- In_owner.
    split; intros H.
    + exact (Permutation_in _ (Permutation_sym Ho) H).
    + exact (Permutation_in _ Ho H).
  - intros Hnil. rewrite Hnil in Ho. cbn in Ho.
    apply Permutation_nil in Ho. rewrite Hb, Ho, app_nil_r. reflexivity.
Qed.

(** X14. Every notification goes away. From any page the events lead to,
    letting the first active timer run, again and again, ends after
    [remaining] steps, at most two for each active timer: then no timer is
    active and the body has its original children. *)
Theorem notifications_go_away
    (children : list Element) (events : list Event) (page : Page) :
  run events (load children) = Some (Normal tt page) ->
  exists page',
    run (repeat (Timeout 0) (remaining (timers page))) page
    = Some (Normal tt page')
    /\ timers page' = []
    /\ body page' = body (load children)
    /\ take (length children) (elements page') = children
    /\ remaining (timers page) <= 2 * length (timers page).
Proof.
  intros E. destruct (reachable_Invariant _ _ _ E) as (p & [= <-] & Hinv).
  destruct (drain children _ page Hinv eq_refl) as (page' & Erun & Hinv' & Hnil).
  exists page'. split; [exact Erun|]. split; [exact Hnil|].
  destruct Hinv' as (live & Hb & He & _ & _ & Ho & _).
  rewrite Hnil in Ho. cbn in Ho. apply Permutation_nil in Ho.
  split; [rewrite Hb, Ho, app_nil_r; reflexivity|]. split; [exact He|].
  clear. induction (timers page) as [|t ts IH]; [reflexivity|].
  rewrite remaining_cons. cbn [length]. destruct (handler t); lia.
Qed.

(** X15. A notification is on screen between its two timers and at no
    other time. On every page the events lead to, the [transform] of a
    notification is [translateX(0)] when its [SlideIn] has run and its
    [SlideOut] has not, and [translateX(100%)] otherwise; a [SlideIn] that
    is active has its [SlideOut] active too; and a notification whose
    [Detach] is active, which is the one [removeChild] takes away, is off
    screen. *)
Theorem notification_is_on_screen_between_its_timers
    (children : list Element) (events : list Event) (page : Page) (n : nat) :
  run events (load children) = Some (Normal tt page) ->
  In n (notifications children page) ->
  transform n page
  = (if onScreen n page then lit "translateX(0)" else lit "translateX(100%)")
  /\ (pending (SlideIn n) page = true -> pending (SlideOut n) page = true)
  /\ pending (SlideOut n) page = negb (pending (Detach n) page)
  /\ (pending (Detach n) page = true ->
      transform n page = lit "translateX(100%)").
Proof.
  intros E Hin. destruct (reachable_Invariant _ _ _ E) as (p & [= <-] & Hinv).
  destruct Hinv as (live & Hb & He & Hnd & Ht & Ho & Hi & Hk & Hord & Htr).
  rewrite (Invariant_notifications _ _ _ Hb) in Hin.
  assert (Hx : pending (SlideOut n) page = negb (pending (Detach n) page)).
  { unfold pending.
    assert (Hnd' : NoDup (omap owner (timers page))) by (rewrite Ho; exact Hnd).
    pose proof (Permutation_in _ (Permutation_sym Ho) Hin) as Hown.
    apply In_owner in Hown.
    destruct (pendingIn (SlideOut n) (timers page)) eqn:E1,
             (pendingIn (Detach n) (timers page)) eqn:E2; try reflexivity; exfalso.
    - apply pendingIn_In in E1, E2. exact (owner_exclusive _ _ Hnd' E1 E2).
    - destruct Hown as [H|H]; apply pendingIn_In in H; congruence. }
  split; [exact (Htr _ Hin)|]. split.
  - unfold pending. rewrite !pendingIn_In. apply ordered_In, Hord.
  - split; [exact Hx|]. intros Hd. rewrite (Htr _ Hin).
    unfold onScreen. rewrite Hx, Hd, andb_false_r. reflexivity.
Qed.

Lemma showNotification_cleans_up_witness :
  match run twoNotifications (load twoElements) with
  | Some outcome =>
      exists page,
        outcome = Normal tt page
        /\ body page = body (load twoElements) ++ notifications twoElements page
        /\ take (length twoElements) (elements page) = twoElements
        /\ (forall n, In n (notifications twoElements page)
                      <-> pending (SlideOut n) page = true
                          \/ pending (Detach n) page = true)
        /\ (timers page = [] -> body page = body (load twoElements))
  | None => False
  end.
Proof.
  destruct (run twoNotifications (load twoElements)) as [outcome|] eqn:E.
  - exact (showNotification_cleans_up twoElements twoNotifications outcome E).
  - vm_compute in E. discriminate.
Defined.

Lemma notifications_go_away_witness :
  match run twoNotifications (load twoElements) with
  | Some (Normal _ page) =>
      exists page',
        run (repeat (Timeout 0) (remaining (timers page))) page
        = Some (Normal tt page')
        /\ timers page' = []
        /\ body page' = body (load twoElements)
        /\ take (length twoElements) (elements page') = twoElements
        /\ remaining (timers page) <= 2 * length (timers page)
  | _ => False
  end.
Proof.
  destruct (run twoNotifications (load twoElements)) as [[[] page|e]|] eqn:E.
  - exact (notifications_go_away twoElements twoNotifications page E).
  - vm_compute in E. discriminate.
  - vm_compute in E. discriminate.
Defined.

Lemma notification_is_on_screen_witness :
  match run twoNotifications (load twoElements) with
  | Some (Normal _ page) =>
      transform 3 page
      = (if onScreen 3 page then lit "translateX(0)" else lit "translateX(100%)")
      /\ (pending (SlideIn 3) page = true -> pending (SlideOut 3) page = true)
      /\ pending (SlideOut 3) page = negb (pending (Detach 3) page)
      /\ (pending (Detach 3) page = true ->
          transform 3 page = lit "translateX(100%)")
  | _ => False
  end.
Proof.
  destruct (run twoNotifications (load twoElements)) as [[[] page|e]|] eqn:E.
  - apply (notification_is_on_screen_between_its_timers
             twoElements twoNotifications page 3 E).
    vm_compute in E. injection E as <-. vm_compute. right. left. reflexivity.
  - vm_compute in E. discriminate.
  - vm_compute in E. discriminate.
Defined.

(** ** Where the notifications are drawn *)

Lemma strictEquals_eq a : forall b, strictEquals a b = true <-> a = b.
Proof.
  induction a as [|x a IH]; intros [|y b]; cbn [strictEquals];
    try (split; [discriminate | discriminate]); [tauto|].
  rewrite andb_true_iff, N.eqb_eq, IH. split.
  - intros [-> ->]. reflexivity.
  - intros [= -> ->]. tauto.
Qed.

Lemma getPropertyValue_other name name' value s :
  name <> name' ->
  getPropertyValue name' (setProperty name value s) = getPropertyValue name' s.
Proof.
  intros Hne.
  assert (F : strictEquals name name' = false).
  { destruct (strictEquals name name') eqn:E; [|reflexivity].
    apply strictEquals_eq in E. contradiction. }
  induction s as [|[n v] s IH]; cbn [setProperty getPropertyValue].
  - rewrite F. reflexivity.
  - destruct (strictEquals n name) eqn:E; cbn [getPropertyValue].
    + apply strictEquals_eq in E. subst n. rewrite F. reflexivity.
    + rewrite IH. reflexivity.
Qed.

Lemma corner_kept (cs : list Element) events : forall page,
  (forall n, length cs <= n < length (elements page) ->
             corner n page = (lit "fixed", lit "20px", lit "20px")) ->
  match run events page with
  | Some (Normal _ page') =>
      forall n, length cs <= n < length (elements page') ->
                corner n page' = (lit "fixed", lit "20px", lit "20px")
  | _ => True
  end.
Proof.
  induction events as [|e events IH]; intros page H; [exact H|].
  cbn [run]. destruct e as [message type|k]; cbn [step].
  - destruct (showNotification_page message type page) as (x & -> & _ & E1 & E2 & E3).
    apply IH. cbn [elements]. intros n Hn. rewrite length_app in Hn. cbn [length] in Hn.
    unfold corner. cbn [elements].
    destruct (Nat.eq_dec n (length (elements page))) as [->|Hne].
    + rewrite list_lookup_middle by reflexivity. rewrite E1, E2, E3. reflexivity.
    + rewrite lookup_app_l by lia. apply H. lia.
  - destruct (timers page !! k) as [t|] eqn:Hk; [|exact I].
    destruct (mayRun k (timers page)); [|exact I].
    assert (K : forall value m b ts,
               length cs <= m < length (elements page) ->
               corner m
                 (mkPage (alter (fun e => mkElement (tagName e) (className e)
                                            (textContent e)
                                            (setProperty (lit "transform") value (style e)))
                            (target (handler t)) (elements page)) b ts)
               = (lit "fixed", lit "20px", lit "20px")).
    { intros value m b ts Hm. specialize (H m Hm). unfold corner in *.
      cbn [elements] in *. rewrite list_lookup_alter.
      destruct (decide (target (handler t) = m)) as [->|_]; [|exact H].
      destruct (elements page !! m) as [x|]; [|discriminate].
      cbn [fmap option_fmap option_map style].
      rewrite !getPropertyValue_other by discriminate. exact H. }
    destruct (handler t) as [n|n|n]; cbn [invoke target] in *.
    + unfold setStyle, update. cbn [elements body timers]. apply IH.
      cbn [elements]. intros m Hm. rewrite length_alter in Hm. apply K, Hm.
    + unfold setStyle, setTimeout, update, bind. cbn [elements body timers].
      apply IH. cbn [elements]. intros m Hm. rewrite length_alter in Hm. apply K, Hm.
    + unfold removeChild. cbn [elements body timers].
      destruct (isChild n (body page)); [|exact I]. apply IH. exact H.
Qed.

(** X16. Notifications do not stack. Every notification on the page is laid
    out at the same place, [position: fixed] at [top: 20px] and [right:
    20px], whatever was shown before it and whatever timers have run: two
    notifications that are on screen at the same time cover each other. *)
Theorem notifications_share_one_corner
    (children : list Element) (events : list Event) (page : Page) (n : nat) :
  run events (load children) = Some (Normal tt page) ->
  In n (notifications children page) ->
  corner n page = (lit "fixed", lit "20px", lit "20px").
Proof.
  intros E Hin. destruct (reachable_Invariant _ _ _ E) as (p & [= <-] & Hinv).
  destruct Hinv as (live & Hb & _ & _ & Ht & Ho & _).
  rewrite (Invariant_notifications _ _ _ Hb) in Hin.
  pose proof (live_bound _ _ _ Ht Ho n Hin) as Hn.
  pose proof (corner_kept children events (load children)) as H.
  rewrite E in H. apply H; [|exact Hn].
  cbn [load elements]. intros m Hm. lia.
Qed.

Lemma notifications_share_one_corner_witness :
  match run twoNotifications (load twoElements) with
  | Some (Normal _ page) =>
      corner 2 page = (lit "fixed", lit "20px", lit "20px")
      /\ corner 3 page = (lit "fixed", lit "20px", lit "20px")
  | _ => False
  end.
Proof.
  destruct (run twoNotifications (load twoElements)) as [[[] page|e]|] eqn:E.
  - split.
    + apply (notifications_share_one_corner twoElements twoNotifications page 2 E).
      vm_compute in E. injection E as <-. vm_compute. left. reflexivity.
    + apply (notifications_share_one_corner twoElements twoNotifications page 3 E).
      vm_compute in E. injection E as <-. vm_compute. right. left. reflexivity.
  - vm_compute in E. discriminate.
  - vm_compute in E. discriminate.
Defined.

End Notifications.
